(** * tennis-odds-mvp: the odds pipeline of odds.js, odds_all.js and scan_log.js

    A shallow embedding of the three Node scripts of the repository and the
    properties of their collection -> extraction -> normalization ->
    persistence pipeline.

    - JavaScript numbers are an interface [JsNumber] with the instance
      [float]: binary64, the arithmetic the scripts run on.  The results of
      [+] and [/] are tied to the exact rationals by the specification
      [SpecFloat] of the primitive floats, which is shown here to be
      rounding to nearest, ties to even.
    - JavaScript strings are [string]: sequences of code units below 256
      (Latin-1); characters beyond are outside the embedding.
    - Exceptions, the file system and the console are threaded through a
      small state-and-error monad [M]; the network gives, for the catalog
      and for each competition key and region, the outcome of [fetch].
    - The file has three parts: the embedding of the scripts, the
      vocabulary of the statements, and the properties. *)

From Stdlib Require Import ZArith QArith Qpower Qround Qabs Floats List String Ascii Lia Lqa Bool.
From stdpp Require Import gmap strings.
Import ListNotations.

Set Warnings "-register-all".
Local Open Scope string_scope.
Local Open Scope list_scope.

(** [s +:+ t] is string concatenation (stdpp), [l ++ k] list concatenation. *)

(** ** Characters and strings: the JavaScript built-ins the scripts use *)

Definition LF : ascii := "010"%char.
Definition CR : ascii := "013"%char.
Definition DQUOTE : ascii := "034"%char.
Definition COMMA : ascii := ","%char.
Definition BACKSLASH : ascii := "092"%char.

Definition char_str (c : ascii) : string := String c EmptyString.

(** [s.includes(c)] for a single character, the test behind the character
    classes of the regular expressions in the sources. *)
Fixpoint str_has (c : ascii) (s : string) : bool :=
  match s with
  | EmptyString => false
  | String d s' => Ascii.eqb c d || str_has c s'
  end.

(** [Array.prototype.join]. *)
Definition join (sep : string) (l : list string) : string := String.concat sep l.

(** The number of occurrences of a character. *)
Fixpoint count_char (c : ascii) (s : string) : nat :=
  match s with
  | EmptyString => 0
  | String d s' => (if Ascii.eqb c d then 1 else 0) + count_char c s'
  end.

(** [s.slice(0, n)]. *)
Fixpoint slice0 (n : nat) (s : string) : string :=
  match n, s with
  | S n', String c s' => String c (slice0 n' s')
  | _, _ => EmptyString
  end.

(** Decimal digits of a natural number, most significant first. *)
Definition digit_char (d : Z) : ascii :=
  ascii_of_nat (48 + Z.to_nat d).

Fixpoint digits_go (fuel : nat) (n : Z) (acc : string) : string :=
  match fuel with
  | O => acc
  | S fuel' =>
      let acc' := String (digit_char (n mod 10)) acc in
      if (n / 10 =? 0)%Z then acc' else digits_go fuel' (n / 10) acc'
  end.

(** Every non-negative [n] has at most [Z.log2 n + 1] decimal digits. *)
Definition nat_digits (n : Z) : string :=
  digits_go (S (Z.to_nat (Z.log2 n))) n EmptyString.

(** [String(n)] for an integer-valued number of moderate size. *)
Definition int_to_string (n : Z) : string :=
  if (n <? 0)%Z then "-" +:+ nat_digits (- n) else nat_digits n.

(** Exactly [w] decimal digits of [n], zero padded (the low [w] digits). *)
Fixpoint pad_digits (w : nat) (n : Z) : string :=
  match w with
  | O => EmptyString
  | S w' => pad_digits w' (n / 10) +:+ char_str (digit_char (n mod 10))
  end.

Fixpoint repeat_char (c : ascii) (n : nat) : string :=
  match n with
  | O => EmptyString
  | S n' => String c (repeat_char c n')
  end.

(** ** JavaScript numbers *)

(** The operations on numbers that the scripts use: the literals [0] and
    [1], [+], [/], [Number.isFinite], [toFixed(4)] and [String(x)]. *)
Class JsNumber (num : Type) := {
  num_zero : num;
  num_one : num;
  num_add : num -> num -> num;
  num_div : num -> num -> num;
  num_isFinite : num -> bool;
  num_toFixed4 : num -> string;
  num_toString : num -> string
}.

(** *** Rendering an exact value with four decimals: [Number.prototype.toFixed]

    [n] is the integer for which [n / 10^4 - x] is as close to zero as
    possible, the larger one on a tie; the sign is printed when [x < 0]. *)
Definition round4 (x : Q) : Z := Qfloor (Qabs x * 10000 + (1 # 2))%Q.

Definition fixed4_digits (n : Z) : string :=
  let m := nat_digits n in
  let k := String.length m in
  let m := if (k <=? 4)%nat then repeat_char "0" (5 - k) +:+ m else m in
  let k := String.length m in
  substring 0 (k - 4) m +:+ "." +:+ substring (k - 4) 4 m.

Definition toFixed4_exact (x : Q) : string :=
  (if Qlt_le_dec x 0 then "-" else "") +:+ fixed4_digits (round4 x).

(** *** binary64: the numbers of the scripts *)

(** The exact value [m * 2^e] of a finite double. *)
Definition float_value (f : float) : option Q :=
  match Prim2SF f with
  | S754_zero _ => Some 0%Q
  | S754_finite s m e =>
      let v := (inject_Z (Z.pos m) * Qpower 2 e)%Q in
      Some (if s then Qopp v else v)
  | _ => None
  end.

Definition Qltb (a b : Q) : bool := negb (Qle_bool b a).

(** The decimal exponent [n] of [x > 0]: [10^(n-1) <= x < 10^n]. *)
Definition decimal_exponent (x : Q) : Z :=
  let r := Qred x in
  let a := Z.of_nat (String.length (nat_digits (Qnum r))) in
  let b := Z.of_nat (String.length (nat_digits (Z.pos (Qden r)))) in
  if Qltb r (Qpower 10 (a - b)) then (a - b)%Z else (a - b + 1)%Z.

(** Drop the trailing zeros of a decimal significand: [s * 10^p] is kept. *)
Fixpoint strip_zeros (fuel : nat) (s p : Z) : Z * Z :=
  match fuel with
  | O => (s, p)
  | S fuel' =>
      if ((s mod 10 =? 0) && negb (s =? 0))%Z
      then strip_zeros fuel' (s / 10) (p + 1) else (s, p)
  end.

(** [Number::toString], steps 5 onwards: the shortest decimal significand
    [s] (with [k] digits) and exponent [n] such that [s * 10^(n-k)] rounds
    to the double [m * 2^e]; among several, the closest to it. *)
Section ShortestDigits.
Variables (m : positive) (e : Z).

(** The double [x = m * 2^e] and the interval of the reals that round to
    it: half way to its neighbours on either side. *)
Definition dbl_x : Q := (inject_Z (Z.pos m) * Qpower 2 e)%Q.
Definition dbl_gap_down : Q :=
  if ((Z.pos m =? 2 ^ 52) && (-1074 <? e))%Z then Qpower 2 (e - 1) else Qpower 2 e.
Definition dbl_low : Q := (dbl_x - dbl_gap_down / 2)%Q.
Definition dbl_high : Q := (dbl_x + Qpower 2 e / 2)%Q.

(** Round-to-nearest, ties to even: the end points round to [x] when its
    significand is even. *)
Definition rounds_to_x (v : Q) : bool :=
  if Z.even (Z.pos m) then Qle_bool dbl_low v && Qle_bool v dbl_high
  else Qltb dbl_low v && Qltb v dbl_high.

Fixpoint shortest_go (fuel : nat) (n0 k : Z) : Z * Z :=
  let scale := Qpower 10 (n0 - k) in
  let s := Qfloor (dbl_x / scale) in
  let v1 := (inject_Z s * scale)%Q in
  let v2 := (inject_Z (s + 1) * scale)%Q in
  let ok1 := rounds_to_x v1 in
  let ok2 := rounds_to_x v2 in
  let pick (c : Z) := strip_zeros 400 c (n0 - k) in
  match fuel with
  | O => pick s
  | S fuel' =>
      if ok1 && ok2 then
        let d1 := (dbl_x - v1)%Q in
        let d2 := (v2 - dbl_x)%Q in
        if Qltb d1 d2 then pick s
        else if Qltb d2 d1 then pick (s + 1)%Z
        else if Z.even s then pick s else pick (s + 1)%Z
      else if ok1 then pick s
      else if ok2 then pick (s + 1)%Z
      else shortest_go fuel' n0 (k + 1)%Z
  end.

Definition shortest_digits : Z * Z :=
  shortest_go 20 (decimal_exponent dbl_x) 1.
End ShortestDigits.

(** The notation of [Number::toString] for a positive finite double. *)
Definition format_digits (s p : Z) : string :=
  let ds := nat_digits s in
  let k := Z.of_nat (String.length ds) in
  let n := (k + p)%Z in
  if ((k <=? n) && (n <=? 21))%Z then
    ds +:+ repeat_char "0" (Z.to_nat (n - k))
  else if ((0 <? n) && (n <=? 21))%Z then
    substring 0 (Z.to_nat n) ds +:+ "." +:+ substring (Z.to_nat n) (Z.to_nat (k - n)) ds
  else if ((-6 <? n) && (n <=? 0))%Z then
    "0." +:+ repeat_char "0" (Z.to_nat (- n)) +:+ ds
  else
    let ex := (n - 1)%Z in
    let es := (if (ex <? 0)%Z then "-" else "+") +:+ nat_digits (Z.abs ex) in
    if (k =? 1)%Z then ds +:+ "e" +:+ es
    else substring 0 1 ds +:+ "." +:+ substring 1 (Z.to_nat (k - 1)) ds +:+ "e" +:+ es.

(** [String(x)] of a double. *)
Definition float_toString (f : float) : string :=
  match Prim2SF f with
  | S754_nan => "NaN"
  | S754_zero _ => "0"
  | S754_infinity s => if s then "-Infinity" else "Infinity"
  | S754_finite s m e =>
      let '(d, p) := shortest_digits m e in
      (if s then "-" else "") +:+ format_digits d p
  end.

(** [Number.isFinite(x)]. *)
Definition float_isFinite (f : float) : bool :=
  negb (is_nan f) && negb (is_infinity f).

(** [x.toFixed(4)]: a value that is not finite, or is at least [10^21] in
    magnitude, is printed as [String(x)]. *)
Definition float_toFixed4 (f : float) : string :=
  match float_value f with
  | None => float_toString f
  | Some v =>
      if Qle_bool (Qpower 10 21) (Qabs v) then float_toString f
      else toFixed4_exact v
  end.

#[export] Instance float_JsNumber : JsNumber float := {|
  num_zero := 0%float;
  num_one := 1%float;
  num_add := PrimFloat.add;
  num_div := PrimFloat.div;
  num_isFinite := float_isFinite;
  num_toFixed4 := float_toFixed4;
  num_toString := float_toString
|}.

(** *** Rounding to nearest, ties to even: the results of [+] and [/] in
    binary64, as [SpecFloat] computes them *)

(** The power [2^e] of any integer exponent, as a rational. *)
Definition pow2 (e : Z) : Q := Qpower 2 e.

(** The integer nearest to [t], the even one on a tie. *)
Definition rneZ (t : Q) : Z :=
  let f := Qfloor t in
  match Qcompare (t - inject_Z f) (1 # 2) with
  | Lt => f
  | Eq => if Z.even f then f else (f + 1)%Z
  | Gt => (f + 1)%Z
  end.

(** Where [t] lies in the interval from [m] to [m + 1]: the location that
    the rounding functions of [SpecFloat] carry along. *)
Definition located (t : Q) (m : Z) (l : location) : Prop :=
  match l with
  | loc_Exact => (t == inject_Z m)%Q
  | loc_Inexact Lt => (inject_Z m < t /\ t < inject_Z m + (1 # 2))%Q
  | loc_Inexact Eq => (t == inject_Z m + (1 # 2))%Q
  | loc_Inexact Gt => (inject_Z m + (1 # 2) < t /\ t < inject_Z m + 1)%Q
  end.

(** [E] is the exponent of the binary64 grid around [x >= 0]: 53 digits,
    and never below the exponent -1074 of the subnormal numbers. *)
Definition cexp_of (x : Q) (E : Z) : Prop :=
  (-1074 <= E)%Z /\ (x < pow2 (E + 53))%Q /\ (E = (-1074)%Z \/ (pow2 (E + 52) <= x)%Q).

(** [f] is [x] rounded to nearest even on the binary64 grid, the exponent
    unbounded above. *)
Definition rounds (x f : Q) : Prop :=
  exists E, cexp_of x E /\ (f == inject_Z (rneZ (x / pow2 E)) * pow2 E)%Q.

(** The exact value of a finite number; 0 for the others. *)
Definition SF2Q (s : spec_float) : Q :=
  match s with
  | S754_finite sg m e =>
      let v := (inject_Z (Z.pos m) * pow2 e)%Q in if sg then Qopp v else v
  | _ => 0%Q
  end.

(** [r] is the binary64 result for the exact value [x >= 0]: the rounding
    of [x], or the infinity when that is 2^1024 or more. *)
Definition rounded (x : Q) (r : spec_float) : Prop :=
  exists f, rounds x f /\
    match r with
    | S754_zero false => (f == 0)%Q
    | S754_finite false m e => (f == inject_Z (Z.pos m) * pow2 e)%Q
    | S754_infinity false => (pow2 1024 <= f)%Q
    | _ => False
    end.

(** The exact value of a double; 0 for the infinities and NaN. *)
Definition fval (x : float) : Q := SF2Q (Prim2SF x).

(** A positive finite double; a double that is +0 or positive finite. *)
Definition pos_finite (x : float) : Prop :=
  exists m e, Prim2SF x = S754_finite false m e.

Definition fin_nonneg (x : float) : Prop :=
  Prim2SF x = S754_zero false \/ pos_finite x.

Definition pos_infinite (x : float) : Prop := Prim2SF x = S754_infinity false.

(** The left-to-right sum of [reduce((a, b) => a + b, acc)]. *)
Definition fsum (rs : list float) (acc : float) : float :=
  fold_left (fun a b => (a + b)%float) rs acc.

(** A finite double above zero: what a decimal odds value is. *)
Definition positive_finite (x : float) : bool :=
  float_isFinite x && (0 <? x)%float.

(** ** ProbabilityNormalizer: [normalizeDecimalOddsToProbs]
    (odds.js:13-17, odds_all.js:17-21; the two copies are identical) *)

Section Normalizer.
Context {num : Type} `{JsNumber num}.

Definition normalizeDecimalOddsToProbs (decimalOdds : list num) : list num :=
  let implied := map (fun o => num_div num_one o) decimalOdds in
  let sum := fold_left (fun a b => num_add a b) implied num_zero in
  map (fun p => num_div p sum) implied.

End Normalizer.

(** ** JavaScript values, objects and their serializations *)

(** More string built-ins. *)
Fixpoint replace_char (c : ascii) (by_ : string) (s : string) : string :=
  match s with
  | EmptyString => EmptyString
  | String d s' =>
      (if Ascii.eqb c d then by_ else char_str d) +:+ replace_char c by_ s'
  end.

Fixpoint remove_chars (drop : ascii -> bool) (s : string) : string :=
  match s with
  | EmptyString => EmptyString
  | String d s' => if drop d then remove_chars drop s' else String d (remove_chars drop s')
  end.

Definition to_lower_char (c : ascii) : ascii :=
  let n := nat_of_ascii c in
  if ((65 <=? n) && (n <=? 90))%nat then ascii_of_nat (n + 32) else c.

Fixpoint toLowerCase (s : string) : string :=
  match s with
  | EmptyString => EmptyString
  | String c s' => String (to_lower_char c) (toLowerCase s')
  end.

(** [s.includes(needle)]. *)
Fixpoint includes (needle s : string) : bool :=
  String.prefix needle s ||
  match s with
  | EmptyString => false
  | String _ s' => includes needle s'
  end.

(** White space and line terminators of [String.prototype.trim] among the
    code units below 256: TAB, LF, VT, FF, CR, SP and NBSP (U+00A0). *)
Definition is_space (c : ascii) : bool :=
  let n := nat_of_ascii c in
  ((9 <=? n) && (n <=? 13) || (n =? 32) || (n =? 160))%nat.

Fixpoint trim_start (s : string) : string :=
  match s with
  | String c s' => if is_space c then trim_start s' else s
  | EmptyString => EmptyString
  end.

Fixpoint trim_end (s : string) : string :=
  match s with
  | EmptyString => EmptyString
  | String c s' =>
      match trim_end s' with
      | EmptyString => if is_space c then EmptyString else char_str c
      | t => String c t
      end
  end.

Definition trim (s : string) : string := trim_end (trim_start s).

(** [s.split(c)] on a single character: never the empty list. *)
Fixpoint split_char (c : ascii) (s : string) : list string :=
  match s with
  | EmptyString => [EmptyString]
  | String d s' =>
      if Ascii.eqb c d then EmptyString :: split_char c s'
      else match split_char c s' with
           | [] => [char_str d]
           | x :: xs => String d x :: xs
           end
  end.

(** [x || dflt] on a string: the empty string is falsy. *)
Definition or_str (x dflt : string) : string :=
  if String.eqb x "" then dflt else x.

(** [x || dflt] where [x] may be undefined. *)
Definition or_default (x : option string) (dflt : string) : string :=
  match x with
  | Some s => or_str s dflt
  | None => dflt
  end.

(** The values held by the fields of the rows the scripts build. *)
Inductive value (num : Type) : Type :=
| VUndefined
| VNull
| VStr (s : string)
| VNum (x : num).
Arguments VUndefined {num}.
Arguments VNull {num}.
Arguments VStr {num} s.
Arguments VNum {num} x.

(** An object literal: its own properties in the order [Object.keys] lists
    them, which for the non-numeric keys of the scripts is insertion order. *)
Definition record (num : Type) : Type := list (string * value num).

(** What a plain object inherits: the properties of [Object.prototype],
    each with the text that [String] gives of its value in Node.js (the
    functions print as native code under their own names, [constructor] is
    the function [Object], [__proto__] is the prototype itself). *)
Definition native_function (name : string) : string * string :=
  (name, "function " +:+ name +:+ "() { [native code] }").

Definition Object_prototype : list (string * string) :=
  [ ("constructor", "function Object() { [native code] }");
    native_function "__defineGetter__";
    native_function "__defineSetter__";
    native_function "hasOwnProperty";
    native_function "__lookupGetter__";
    native_function "__lookupSetter__";
    native_function "isPrototypeOf";
    native_function "propertyIsEnumerable";
    native_function "toString";
    native_function "valueOf";
    ("__proto__", "[object Object]");
    native_function "toLocaleString" ].

Section Values.
Context {num : Type} `{JsNumber num}.

(** [String(v)]. *)
Definition to_String (v : value num) : string :=
  match v with
  | VUndefined => "undefined"
  | VNull => "null"
  | VStr s => s
  | VNum x => num_toString x
  end.

Definition Object_keys (r : record num) : list string := map fst r.

(** [r[h]]: the record's own property of that name; failing that, the
    property of that name that every object inherits from
    [Object.prototype], given by its [String] form (all that [toCsv] uses
    of a value that is neither null nor undefined); failing that,
    undefined. *)
Fixpoint get (r : record num) (h : string) : value num :=
  match r with
  | [] =>
      match List.find (fun kv => String.eqb (fst kv) h) Object_prototype with
      | Some kv => VStr (snd kv)
      | None => VUndefined
      end
  | (k, v) :: r' => if String.eqb k h then v else get r' h
  end.

(** ** CsvSerializer: [toCsv] (odds.js:19-31, odds_all.js:68-77) *)

(** The character class of esc: a double quote, a comma or a line feed. *)
Definition needs_quoting (s : string) : bool :=
  str_has DQUOTE s || str_has COMMA s || str_has LF s.

Definition esc (v : value num) : string :=
  match v with
  | VNull | VUndefined => ""
  | _ =>
      let s := to_String v in
      if needs_quoting s
      then char_str DQUOTE +:+ replace_char DQUOTE (String DQUOTE (char_str DQUOTE)) s +:+ char_str DQUOTE
      else s
  end.

Definition toCsv (rows : list (record num)) : string :=
  match rows with
  | [] => ""
  | r0 :: _ =>
      let headers := Object_keys r0 in
      join (char_str LF)
        (join "," headers ::
         map (fun r => join "," (map (fun h => esc (get r h)) headers)) rows)
  end.

End Values.

(** *** JSON.stringify(value, null, 2) *)

(** A JavaScript value as [JSON.stringify] and [console.log] receive it.  A
    number carries its [String(x)] form and whether it is finite. *)
Inductive jsval : Type :=
| JUndefined
| JNull
| JString (s : string)
| JNumber (finite : bool) (text : string)
| JArray (l : list jsval)
| JObject (l : list (string * jsval)).

Definition hex_digit (n : nat) : ascii :=
  if (n <? 10)%nat then ascii_of_nat (48 + n) else ascii_of_nat (87 + n).

(** QuoteJSONString, one character at a time. *)
Definition json_escape_char (c : ascii) : string :=
  let n := nat_of_ascii c in
  if (n =? 8)%nat then String BACKSLASH "b"
  else if (n =? 9)%nat then String BACKSLASH "t"
  else if (n =? 10)%nat then String BACKSLASH "n"
  else if (n =? 12)%nat then String BACKSLASH "f"
  else if (n =? 13)%nat then String BACKSLASH "r"
  else if (n =? 34)%nat then String BACKSLASH (char_str DQUOTE)
  else if (n =? 92)%nat then String BACKSLASH (char_str BACKSLASH)
  else if (n <? 32)%nat then
    String BACKSLASH ("u00" +:+ String (hex_digit (n / 16)) (char_str (hex_digit (n mod 16))))
  else char_str c.

Fixpoint json_escape (s : string) : string :=
  match s with
  | EmptyString => EmptyString
  | String c s' => json_escape_char c +:+ json_escape s'
  end.

(** [JSON.stringify(s)] of a string. *)
Definition JSON_quote (s : string) : string :=
  String DQUOTE (json_escape s +:+ char_str DQUOTE).

(** [JSON.stringify(v, null, 2)] at the current indentation: [None] is
    JavaScript's undefined (a property holding it is left out, an array
    element holding it is written null, as is a number that is not finite). *)
Fixpoint stringify_at (indent : string) (v : jsval) : option string :=
  let inner := indent +:+ "  " in
  let sep := "," +:+ String LF inner in
  let wrap (opening closing : string) (parts : list string) : string :=
    match parts with
    | [] => opening +:+ closing
    | _ => opening +:+ String LF inner +:+ join sep parts +:+ String LF indent +:+ closing
    end in
  match v with
  | JUndefined => None
  | JNull => Some "null"
  | JString s => Some (JSON_quote s)
  | JNumber finite text => Some (if finite then text else "null")
  | JArray l =>
      Some (wrap "[" "]"
        (map (fun x => match stringify_at inner x with Some t => t | None => "null" end) l))
  | JObject l =>
      Some (wrap "{" "}"
        (flat_map (fun kx =>
           match stringify_at inner (snd kx) with
           | Some t => [JSON_quote (fst kx) +:+ ": " +:+ t]
           | None => []
           end) l))
  end.

Definition JSON_stringify2 (v : jsval) : string :=
  match stringify_at "" v with
  | Some t => t
  | None => "undefined"
  end.

Section ValuesToJs.
Context {num : Type} `{JsNumber num}.

Definition js_of_num (x : num) : jsval := JNumber (num_isFinite x) (num_toString x).

Definition js_of_value (v : value num) : jsval :=
  match v with
  | VUndefined => JUndefined
  | VNull => JNull
  | VStr s => JString s
  | VNum x => js_of_num x
  end.

Definition js_of_record (r : record num) : jsval :=
  JObject (map (fun kv => (fst kv, js_of_value (snd kv))) r).

End ValuesToJs.

(** ** The upstream payloads (spec section 3, RawMarketEvent) *)

Record outcome (num : Type) : Type := {
  o_name : string;
  o_price : num
}.
Arguments o_name {num}.
Arguments o_price {num}.

Record market (num : Type) : Type := {
  m_key : string;
  m_outcomes : list (outcome num)
}.
Arguments m_key {num}.
Arguments m_outcomes {num}.

(** [b_markets = None] is a bookmaker without a markets property and
    [b_key = None] one without a key; an empty [b_title] stands for a
    missing or empty title (both are falsy, and the title is only ever
    read as [bk.title || ...]). *)
Record bookmaker (num : Type) : Type := {
  b_title : string;
  b_key : option string;
  b_markets : option (list (market num))
}.
Arguments b_title {num}.
Arguments b_key {num}.
Arguments b_markets {num}.

Record event (num : Type) : Type := {
  ev_id : string;
  ev_commence_time : string;
  ev_bookmakers : option (list (bookmaker num))
}.
Arguments ev_id {num}.
Arguments ev_commence_time {num}.
Arguments ev_bookmakers {num}.

(** An entry of the sports catalog; [None] is a missing property, and
    [s_active] is the truthiness of its active property. *)
Record sport : Type := {
  s_key : string;
  s_group : option string;
  s_title : option string;
  s_details : option string;
  s_active : bool
}.

(** ** The network *)

(** What [res.json()] gives: an array, some other JSON value (an object,
    as the API's error messages are), or a rejection. *)
Inductive body (A : Type) : Type :=
| JsonArray (l : list A)
| JsonOther
| NotJson (msg : string).
Arguments JsonArray {A} l.
Arguments JsonOther {A}.
Arguments NotJson {A} msg.

(** What [await fetch(url)] gives: a rejection (transport failure) or a
    response with [res.ok], [res.status], [res.statusText] and its body. *)
Inductive fetched (A : Type) : Type :=
| Rejected (msg : string)
| Response (ok : bool) (status : Z) (statusText : string) (b : body A).
Arguments Rejected {A} msg.
Arguments Response {A} ok status statusText b.

(** The upstream at the time of a run: the answer to GET /sports/ and, for
    each competition key and region, the answer to GET /sports/{key}/odds. *)
Record network (num : Type) : Type := {
  get_sports : fetched sport;
  get_odds : string -> string -> fetched (event num)
}.
Arguments get_sports {num}.
Arguments get_odds {num}.

Definition API : string := "https://api.the-odds-api.com/v4".

Definition sports_url (API_KEY : string) : string :=
  API +:+ "/sports/?apiKey=" +:+ API_KEY.

Definition odds_url (API_KEY sportKey region : string) : string :=
  API +:+ "/sports/" +:+ sportKey +:+ "/odds?regions=" +:+ region
      +:+ "&markets=h2h&oddsFormat=decimal&apiKey=" +:+ API_KEY.

(** ** The process: environment, clock, files, console, exceptions *)

Record environment : Type := {
  ODDS_API_KEY : option string;
  env_REGION : option string;
  env_REGIONS : option string
}.

(** A UTC date and time, as [new Date()] reads the clock. *)
Record utc : Type := {
  year : Z;
  month : Z;
  day : Z;
  hours : Z;
  minutes : Z;
  seconds : Z;
  milliseconds : Z
}.

(** [Date.prototype.toISOString] for the years 0000 to 9999:
    YYYY-MM-DDTHH:mm:ss.sssZ. *)
Definition toISOString (d : utc) : string :=
  pad_digits 4 (year d) +:+ "-" +:+ pad_digits 2 (month d) +:+ "-" +:+ pad_digits 2 (day d)
  +:+ "T" +:+ pad_digits 2 (hours d) +:+ ":" +:+ pad_digits 2 (minutes d) +:+ ":"
  +:+ pad_digits 2 (seconds d) +:+ "." +:+ pad_digits 3 (milliseconds d) +:+ "Z".

Inductive console_arg : Type :=
| CText (s : string)
| CObject (v : jsval).

(** The part of the machine the scripts change: files by path, the
    directories, and the calls of [console.log] and [console.error]. *)
Record world : Type := {
  files : gmap string string;
  dirs : gset string;
  stdout : list (list console_arg);
  stderr : list (list console_arg)
}.

(** A computation that returns or throws (the message of the error). *)
Inductive result (A : Type) : Type :=
| Ok (a : A)
| Throw (msg : string).
Arguments Ok {A} a.
Arguments Throw {A} msg.

Definition M (A : Type) : Type := world -> result A * world.

Definition ret {A : Type} (a : A) : M A := fun w => (Ok a, w).

Definition bind {A B : Type} (m : M A) (k : A -> M B) : M B :=
  fun w =>
    match m w with
    | (Ok a, w') => k a w'
    | (Throw msg, w') => (Throw msg, w')
    end.

Definition throw {A : Type} (msg : string) : M A := fun w => (Throw msg, w).

Definition lift {A : Type} (r : result A) : M A := fun w => (r, w).

Notation "x <- m ;; k" := (bind m (fun x => k))
  (at level 100, m at next level, right associativity).
Notation "m ;;; k" := (bind m (fun _ => k))
  (at level 100, right associativity).

Definition existsSync (p : string) : M bool :=
  fun w => (Ok (bool_decide (is_Some (files w !! p)) || bool_decide (p ∈ dirs w)), w).

Definition mkdirSync (p : string) : M unit :=
  fun w => (Ok tt, {| files := files w; dirs := {[p]} ∪ dirs w;
                      stdout := stdout w; stderr := stderr w |}).

(** [fs.writeFileSync] and [fs.appendFileSync] where the operating system
    lets the write through.  The states in which it refuses (the path is a
    directory, its parent is missing or is a regular file, the name is not
    a file name, no permission) are not represented: statements about
    what a run writes are about runs that complete, and say which states
    they exclude. *)
Definition writeFileSync (p data : string) : M unit :=
  fun w => (Ok tt, {| files := <[p := data]> (files w); dirs := dirs w;
                      stdout := stdout w; stderr := stderr w |}).

Definition appendFileSync (p data : string) : M unit :=
  fun w => (Ok tt, {| files := <[p := default "" (files w !! p) +:+ data]> (files w);
                      dirs := dirs w; stdout := stdout w; stderr := stderr w |}).

Definition console_log (args : list console_arg) : M unit :=
  fun w => (Ok tt, {| files := files w; dirs := dirs w;
                      stdout := stdout w ++ [args]; stderr := stderr w |}).

Definition console_error (args : list console_arg) : M unit :=
  fun w => (Ok tt, {| files := files w; dirs := dirs w;
                      stdout := stdout w; stderr := stderr w ++ [args] |}).

(** [try { body } catch (e) { console.error('ERROR:', e.message); process.exit(1) }]
    around the whole script: the exit status and the final state. *)
Definition run_script (m : M unit) (w : world) : Z * world :=
  match m w with
  | (Ok _, w') => (0%Z, w')
  | (Throw msg, w') => (1%Z, snd (console_error [CText "ERROR:"; CText msg] w'))
  end.

(** [await res.json()] after the script has handled [!res.ok]. *)
Definition res_json {A : Type} (not_array : string) (b : body A) : result (list A) :=
  match b with
  | JsonArray l => Ok l
  | JsonOther => Throw not_array
  | NotJson msg => Throw msg
  end.

(** [`${x}`] and [JSON.stringify(x)] inside a template, for a string that
    may be undefined. *)
Definition template_str (x : option string) : string := default "undefined" x.

Definition template_json (x : option string) : string :=
  match x with
  | Some s => JSON_quote s
  | None => "undefined"
  end.

(** The catalog filter shared by the three scripts (odds.js:38-42,
    odds_all.js:28-32, odds.js:163-167). *)
Definition is_tennis (s : sport) : bool :=
  includes "tennis" (toLowerCase (or_default (s_group s) ""))
  || includes "tennis" (toLowerCase (or_default (s_details s) ""))
  || includes "tennis" (toLowerCase (or_default (s_title s) "")).

(** ** MarketRowExtractor (odds.js:61-66, odds_all.js:44-49; identical) *)

Section Extractor.
Context {num : Type}.

Definition is_h2h (m : market num) : bool := String.eqb (m_key m) "h2h".

(** [(b.markets || []).some(m => m.key === 'h2h')] *)
Definition offers_h2h (b : bookmaker num) : bool :=
  existsb is_h2h (default [] (b_markets b)).

(** [const bk = (ev.bookmakers || []).find(b => ...)] *)
Definition select_bk (ev : event num) : option (bookmaker num) :=
  List.find offers_h2h (default [] (ev_bookmakers ev)).

(** [const h2h = bk?.markets?.find(m => m.key === 'h2h')] *)
Definition select_h2h (ev : event num) : option (market num) :=
  match select_bk ev with
  | None => None
  | Some bk =>
      match b_markets bk with
      | None => None
      | Some ms => List.find is_h2h ms
      end
  end.

(** What survives the two guards [if (!h2h)] and [if (odds.length < 2)]:
    the bookmaker and the names and prices in payload order. *)
Record extracted : Type := {
  x_bk : bookmaker num;
  x_names : list string;
  x_odds : list num
}.

Definition extract (ev : event num) : option extracted :=
  match select_bk ev, select_h2h ev with
  | Some bk, Some h2h =>
      let names := map o_name (m_outcomes h2h) in
      let odds := map o_price (m_outcomes h2h) in
      if (length odds <? 2)%nat then None
      else Some {| x_bk := bk; x_names := names; x_odds := odds |}
  | _, _ => None
  end.

End Extractor.
Arguments extracted num : clear implicits.

(** The character class [-:]. *)
Definition is_dash_or_colon (c : ascii) : bool :=
  Ascii.eqb c "-" || Ascii.eqb c ":".

(** [ts.replace(/[-:]/g,'').slice(0,15)] (odds_all.js:96). *)
Definition stamp_of (ts : string) : string :=
  slice0 15 (remove_chars is_dash_or_colon ts).

(** ** odds_all.js: the bulk snapshot *)

Module OddsAll.
Section Script.
Context {num : Type} `{JsNumber num}.
Variables (env : environment) (now : utc) (net : network num).

Definition REGION : string := trim (or_default (env_REGION env) "eu").

Definition getActiveTennisKeys : result (list (string * option string)) :=
  match get_sports net with
  | Rejected msg => Throw msg
  | Response ok status statusText b =>
      if negb ok then
        Throw ("sports failed: " +:+ int_to_string status +:+ " " +:+ statusText)
      else
        match res_json "data.filter is not a function" b with
        | Throw msg => Throw msg
        | Ok data =>
            Ok (map (fun s => (s_key s, s_title s))
                  (List.filter s_active (List.filter is_tennis data)))
        end
  end.

(** The object pushed for one event (odds_all.js:51-63). *)
Definition row_of (sportKey : string) (ev : event num) (x : extracted num) : record num :=
  let names := x_names x in
  let odds := x_odds x in
  let probs := normalizeDecimalOddsToProbs odds in
  let prob (i : nat) : string :=
    match nth_error probs i with
    | Some p => if num_isFinite p then num_toFixed4 p else ""
    | None => ""
    end in
  let odd (i : nat) : value num :=
    match nth_error odds i with
    | Some o => VNum o
    | None => VUndefined
    end in
  [ ("event_id", VStr (ev_id ev));
    ("start", VStr (ev_commence_time ev));
    ("player1", VStr (or_default (nth_error names 0) ""));
    ("player2", VStr (or_default (nth_error names 1) ""));
    ("odds1", odd 0%nat);
    ("odds2", odd 1%nat);
    ("prob1", VStr (prob 0%nat));
    ("prob2", VStr (prob 1%nat));
    ("bookmaker", VStr (or_str (b_title (x_bk x)) (or_default (b_key (x_bk x)) "")));
    ("sport_key", VStr sportKey);
    ("region", VStr REGION) ].

(** The loop over the events of one response (odds_all.js:43-64). *)
Fixpoint rows_of_events (sportKey : string) (raw : list (event num)) : list (record num) :=
  match raw with
  | [] => []
  | ev :: raw' =>
      match extract ev with
      | None => rows_of_events sportKey raw'
      | Some x => row_of sportKey ev x :: rows_of_events sportKey raw'
      end
  end.

Definition fetchOddsForKey (sportKey : string) : result (list (record num)) :=
  match get_odds net sportKey REGION with
  | Rejected msg => Throw msg
  | Response ok status statusText b =>
      if negb ok then Ok []
      else
        match res_json "raw is not iterable" b with
        | Throw msg => Throw msg
        | Ok raw => Ok (rows_of_events sportKey raw)
        end
  end.

(** The loop of main over the competitions (odds_all.js:84-89); [all] is
    the accumulator that [all.push(...rows)] extends. *)
Fixpoint collect (keys : list (string * option string)) (all : list (record num))
  : result (list (record num)) :=
  match keys with
  | [] => Ok all
  | (key, _) :: keys' =>
      match fetchOddsForKey key with
      | Throw msg => Throw msg
      | Ok rows => collect keys' (all ++ rows)
      end
  end.

Definition snapshot_json (ts : string) (all : list (record num)) : jsval :=
  JObject [ ("fetchedAt", JString ts);
            ("region", JString REGION);
            ("count", JNumber true (int_to_string (Z.of_nat (length all))));
            ("events", JArray (map js_of_record all)) ].

(** The body of the try block (odds_all.js:81-100). *)
Definition main_body : M unit :=
  let ts := toISOString now in
  keys <- lift getActiveTennisKeys ;;
  all <- lift (collect keys []) ;;
  let outDir := "data" in
  there <- existsSync outDir ;;
  (if there then ret tt else mkdirSync outDir) ;;;
  let csv := toCsv all in
  let stamp := stamp_of ts in
  writeFileSync (outDir +:+ "/odds_latest.csv") csv ;;;
  writeFileSync (outDir +:+ "/odds_latest.json") (JSON_stringify2 (snapshot_json ts all)) ;;;
  writeFileSync (outDir +:+ "/odds_" +:+ stamp +:+ ".csv") csv ;;;
  console_log [CText ("Wrote " +:+ int_to_string (Z.of_nat (length all))
                        +:+ " rows to data/odds_latest.csv (region=" +:+ REGION +:+ ")")].

(** The script: the credential check of lines 10-13, then main. *)
Definition main (w : world) : Z * world :=
  if String.eqb (or_default (ODDS_API_KEY env) "") "" then
    (1%Z, snd (console_error [CText "ERROR: Missing ODDS_API_KEY"] w))
  else run_script main_body w.

End Script.
End OddsAll.

(** ** odds.js: the single-competition command line *)

Module Odds.

Record flags : Type := {
  include : option string;
  writeCsv : bool;
  region : option string
}.

(** [rest[i + 1] || null] *)
Definition next_or_null (rest : list string) : option string :=
  match rest with
  | x :: _ => if String.eqb x "" then None else Some x
  | [] => None
  end.

(** The loop over the arguments after the command and its operand
    (odds.js:117-122); a flag that takes a value skips it. *)
Fixpoint parse_flags (fuel : nat) (rest : list string) (f : flags) : flags :=
  match fuel, rest with
  | S fuel', t :: rest' =>
      if String.eqb t "--include" then
        parse_flags fuel' (tl rest')
          {| include := next_or_null rest'; writeCsv := writeCsv f; region := region f |}
      else if String.eqb t "--csv" then
        parse_flags fuel' rest'
          {| include := include f; writeCsv := true; region := region f |}
      else if String.eqb t "--region" then
        parse_flags fuel' (tl rest')
          {| include := include f; writeCsv := writeCsv f; region := next_or_null rest' |}
      else parse_flags fuel' rest' f
  | _, _ => f
  end.

Section Script.
Context {num : Type} `{JsNumber num}.

(** [new RegExp(pattern, 'i')]: a syntax error, or the predicate
    [re.test]; the regular-expression engine is not part of the scripts. *)
Variable RegExp_i : string -> result (string -> bool).
Variables (env : environment) (now : utc) (net : network num).

Definition usage : string :=
  "node odds.js fetch <sport_key> [--include " +:+ char_str DQUOTE +:+ "A|B"
  +:+ char_str DQUOTE +:+ "] [--csv] [--region eu|uk|us|au]".

Definition listSports : M unit :=
  match get_sports net with
  | Rejected msg => throw msg
  | Response ok status statusText b =>
      if negb ok then
        throw ("Sports fetch failed: " +:+ int_to_string status +:+ " " +:+ statusText)
      else
        data <- lift (res_json "data.filter is not a function" b) ;;
        let tennis := List.filter is_tennis data in
        console_log [CText ("Tennis sport keys:" +:+ char_str LF)] ;;;
        fold_right
          (fun s k =>
             console_log [CText ("- " +:+ s_key s +:+ "  |  " +:+ template_str (s_title s)
                                 +:+ "  |  active=" +:+ (if s_active s then "true" else "false"))] ;;; k)
          (ret tt) tennis
  end.

(** The object built for one event (odds.js:68-75). *)
Record mapped_event : Type := {
  e_id : string;
  e_start : string;
  e_players : list string;
  e_odds_decimal : list num;
  e_probs_normalized : list num;
  e_bookmaker : option string
}.

Definition mapped_of (ev : event num) (x : extracted num) : mapped_event :=
  {| e_id := ev_id ev;
     e_start := ev_commence_time ev;
     e_players := x_names x;
     e_odds_decimal := x_odds x;
     e_probs_normalized := normalizeDecimalOddsToProbs (x_odds x);
     e_bookmaker := if String.eqb (b_title (x_bk x)) "" then b_key (x_bk x)
                    else Some (b_title (x_bk x)) |}.

(** [raw.map(ev => ...).filter(Boolean)] (odds.js:60-76). *)
Definition map_events (raw : list (event num)) : list mapped_event :=
  flat_map (fun ev =>
    match extract ev with
    | Some x => [mapped_of ev x]
    | None => []
    end) raw.

Definition filterByNames (events : list mapped_event) (includePattern : option string)
  : result (list mapped_event) :=
  match includePattern with
  | None => Ok events
  | Some pattern =>
      if String.eqb pattern "" then Ok events
      else
        match RegExp_i pattern with
        | Throw msg => Throw msg
        | Ok re_test => Ok (List.filter (fun e => re_test (join " " (e_players e))) events)
        end
  end.

Definition js_of_event (e : mapped_event) : jsval :=
  JObject [ ("id", JString (e_id e));
            ("start", JString (e_start e));
            ("players", JArray (map JString (e_players e)));
            ("odds_decimal", JArray (map js_of_num (e_odds_decimal e)));
            ("probs_normalized", JArray (map js_of_num (e_probs_normalized e)));
            ("bookmaker", match e_bookmaker e with
                          | Some b => JString b
                          | None => JUndefined
                          end) ].

(** The flat row of the CSV (odds.js:92-103). *)
Definition csv_row (regionToUse : string) (e : mapped_event) : record num :=
  let odd (i : nat) : value num :=
    match nth_error (e_odds_decimal e) i with
    | Some o => VNum o
    | None => VStr ""
    end in
  let prob (i : nat) : value num :=
    match nth_error (e_probs_normalized e) i with
    | Some p => VStr (num_toFixed4 p)
    | None => VStr ""
    end in
  [ ("id", VStr (e_id e));
    ("start", VStr (e_start e));
    ("player1", VStr (or_default (nth_error (e_players e) 0) ""));
    ("player2", VStr (or_default (nth_error (e_players e) 1) ""));
    ("odds1", odd 0%nat);
    ("odds2", odd 1%nat);
    ("prob1", prob 0%nat);
    ("prob2", prob 1%nat);
    ("bookmaker", VStr (or_default (e_bookmaker e) ""));
    ("region", VStr regionToUse) ].

Definition fetchOddsForKey (sportKey : string) (f : flags) : M unit :=
  let regionToUse := or_default (region f) (or_default (env_REGION env) "eu") in
  match get_odds net sportKey regionToUse with
  | Rejected msg => throw msg
  | Response ok status statusText b =>
      if negb ok then
        throw ("Odds fetch failed: " +:+ int_to_string status +:+ " " +:+ statusText)
      else
        raw <- lift (res_json "raw.map is not a function" b) ;;
        let mapped := map_events raw in
        filtered <- lift (filterByNames mapped (include f)) ;;
        let out :=
          JObject [ ("sportKey", JString sportKey);
                    ("region", JString regionToUse);
                    ("filter", match include f with
                               | Some p => if String.eqb p "" then JNull else JString p
                               | None => JNull
                               end);
                    ("fetchedAt", JString (toISOString now));
                    ("events", JArray (map js_of_event filtered)) ] in
        let jsonName := "odds_" +:+ sportKey +:+ ".json" in
        writeFileSync jsonName (JSON_stringify2 out) ;;;
        console_log [CText ("Saved " +:+ int_to_string (Z.of_nat (length filtered))
                              +:+ " events to " +:+ jsonName
                              +:+ " (region=" +:+ regionToUse +:+ ")")] ;;;
        (if writeCsv f then
           let rows := map (csv_row regionToUse) filtered in
           let csv := toCsv rows in
           let csvName := "odds_" +:+ sportKey +:+ ".csv" in
           writeFileSync csvName csv ;;;
           console_log [CText ("Saved CSV to " +:+ csvName +:+ " (region=" +:+ regionToUse +:+ ")")]
         else ret tt) ;;;
        match filtered with
        | e :: _ => console_log [CText "Sample:"; CObject (js_of_event e)]
        | [] => ret tt
        end
  end.

(** The command line (odds.js:114-137): [args] is [process.argv] after the
    interpreter and the script. *)
Definition cli_body (args : list string) : M unit :=
  let cmd := nth_error args 0 in
  let arg := nth_error args 1 in
  let rest := skipn 2 args in
  let f := parse_flags (length rest) rest
             {| include := None; writeCsv := false; region := None |} in
  match cmd with
  | Some "sports" => listSports
  | Some "fetch" =>
      match arg with
      | None => throw ("Usage: " +:+ usage)
      | Some a =>
          if String.eqb a "" then throw ("Usage: " +:+ usage)
          else fetchOddsForKey a f
      end
  | _ =>
      console_log [CText ("Commands:" +:+ char_str LF +:+ "  node odds.js sports"
                            +:+ char_str LF +:+ "  " +:+ usage)]
  end.

Definition main (args : list string) (w : world) : Z * world :=
  if String.eqb (or_default (ODDS_API_KEY env) "") "" then
    (1%Z, snd (console_error [CText "ERROR: Missing ODDS_API_KEY in .env"] w))
  else run_script (cli_body args) w.

End Script.
End Odds.

(** ** scan_log.js: the history scan (the second script of src/odds.js, from
    line 138 on; line numbers below are those of src/odds.js) *)

Module ScanLog.

Record scan_row : Type := {
  r_ts : string;
  r_key : string;
  r_title : option string;
  r_region : string;
  r_count : Z
}.

Definition header : string := "timestamp,key,title,region,count" +:+ char_str LF.

(** [line] (odds.js:197-198). *)
Definition line (o : scan_row) : string :=
  r_ts o +:+ "," +:+ JSON_quote (r_key o) +:+ "," +:+ template_json (r_title o)
  +:+ "," +:+ r_region o +:+ "," +:+ int_to_string (r_count o) +:+ char_str LF.

Definition outPath : string := "scan_history.csv".

(** HistoryLogger: the header when the file is new, then the lines
    (odds.js:196-203). *)
Definition appendHistory (rows : list scan_row) : M unit :=
  there <- existsSync outPath ;;
  (if there then ret tt else writeFileSync outPath header) ;;;
  appendFileSync outPath (join "" (map line rows)) ;;;
  console_log [CText ("Appended " +:+ int_to_string (Z.of_nat (length rows))
                        +:+ " rows to " +:+ outPath)].

Section Script.
Context {num : Type}.
Variables (env : environment) (now : utc) (net : network num).

Definition API_KEY : string := or_default (ODDS_API_KEY env) "".

Definition REGIONS : list string :=
  List.filter (fun s => negb (String.eqb s ""))
    (map trim (split_char "," (or_default (env_REGIONS env) "eu"))).

(** [fetchJSON]: the parsed body, [None] when it is not an array. *)
Definition fetchJSON {A : Type} (url : string) (r : fetched A) : result (option (list A)) :=
  match r with
  | Rejected msg => Throw msg
  | Response ok status statusText b =>
      if negb ok then
        Throw (url +:+ " → " +:+ int_to_string status +:+ " " +:+ statusText)
      else
        match b with
        | JsonArray l => Ok (Some l)
        | JsonOther => Ok None
        | NotJson msg => Throw msg
        end
  end.

Definition getTennisSports : result (list sport) :=
  match fetchJSON (sports_url API_KEY) (get_sports net) with
  | Throw msg => Throw msg
  | Ok None => Throw "data.filter is not a function"
  | Ok (Some data) => Ok (List.filter is_tennis data)
  end.

Definition countEvents (sportKey region : string) : Z :=
  match fetchJSON (odds_url API_KEY sportKey region) (get_odds net sportKey region) with
  | Ok (Some data) => Z.of_nat (length data)
  | Ok None => 0%Z
  | Throw _ => (-1)%Z
  end.

(** The two nested loops of main (odds.js:188-194). *)
Definition scan_rows (ts : string) (sports : list sport) : list scan_row :=
  flat_map (fun s =>
    map (fun r =>
      {| r_ts := ts; r_key := s_key s; r_title := s_title s;
         r_region := r; r_count := countEvents (s_key s) r |}) REGIONS) sports.

Definition main_body : M unit :=
  let ts := toISOString now in
  all <- lift getTennisSports ;;
  let sports := List.filter s_active all in
  let rows := scan_rows ts sports in
  appendHistory rows.

Definition main (w : world) : Z * world :=
  if String.eqb API_KEY "" then
    (1%Z, snd (console_error [CText "ERROR: Missing ODDS_API_KEY in .env"] w))
  else run_script main_body w.

End Script.
End ScanLog.

(** * Vocabulary of the statements *)

(** The mathematical sum of a list of rationals. *)
Definition Qsum (l : list Q) : Q := fold_right Qplus 0%Q l.

(** The same payload with every price changed by [f]. *)
Definition reprice_outcome {num : Type} (f : num -> num) (o : outcome num) : outcome num :=
  {| o_name := o_name o; o_price := f (o_price o) |}.

Definition reprice_market {num : Type} (f : num -> num) (m : market num) : market num :=
  {| m_key := m_key m; m_outcomes := map (reprice_outcome f) (m_outcomes m) |}.

Definition reprice_bookmaker {num : Type} (f : num -> num) (b : bookmaker num) : bookmaker num :=
  {| b_title := b_title b; b_key := b_key b;
     b_markets := option_map (map (reprice_market f)) (b_markets b) |}.

Definition reprice_event {num : Type} (f : num -> num) (ev : event num) : event num :=
  {| ev_id := ev_id ev; ev_commence_time := ev_commence_time ev;
     ev_bookmakers := option_map (map (reprice_bookmaker f)) (ev_bookmakers ev) |}.

(** The state after [console.error('ERROR:', msg)]. *)
Definition with_error (msg : string) (w : world) : world :=
  {| files := files w; dirs := dirs w; stdout := stdout w;
     stderr := stderr w ++ [[CText "ERROR:"; CText msg]] |}.

(** The credential is present ([!API_KEY] is false). *)
Definition has_api_key (env : environment) : Prop :=
  or_default (ODDS_API_KEY env) "" <> "".


Definition fetch_returns {num : Type} `{JsNumber num}
    (env : environment) (net : network num) (k : string * option string) : Prop :=
  exists rows, OddsAll.fetchOddsForKey env net (fst k) = Ok rows.

(** The region the command line fetches for: the --region flag, else the
    environment's REGION, else eu (odds.js:54). *)
Definition cli_flags (rest : list string) : Odds.flags :=
  Odds.parse_flags (length rest) rest
    {| Odds.include := None; Odds.writeCsv := false; Odds.region := None |}.

Definition cli_region (env : environment) (rest : list string) : string :=
  or_default (Odds.region (cli_flags rest)) (or_default (env_REGION env) "eu").

(** *** Example payloads, for the witnesses and the counterexamples *)

Definition example_market (n1 : string) (p1 : float) (n2 : string) (p2 : float)
  : market float :=
  {| m_key := "h2h";
     m_outcomes := [ {| o_name := n1; o_price := p1 |}; {| o_name := n2; o_price := p2 |} ] |}.

Definition example_bookmaker (t : string) (ms : list (market float)) : bookmaker float :=
  {| b_title := t; b_key := Some (toLowerCase t); b_markets := Some ms |}.

Definition example_event (i : string) (bs : list (bookmaker float)) : event float :=
  {| ev_id := i; ev_commence_time := "2024-06-01T12:00:00Z"; ev_bookmakers := Some bs |}.

(** Two bookmakers price the match; a third one, listed first, offers only
    another market. *)
Definition example_match : event float :=
  example_event "m1"
    [ example_bookmaker "Spreads" [ {| m_key := "spreads"; m_outcomes := [] |} ];
      example_bookmaker "First" [ example_market "Alice" 0x1.ccccccccccccdp+0 "Bob" 0x1.199999999999ap+1 ];
      example_bookmaker "Second" [ example_market "Alice" 0x1.8p+0 "Bob" 3 ] ].

(** An event whose only head-to-head market has a single outcome. *)
Definition example_walkover : event float :=
  example_event "m2"
    [ example_bookmaker "First"
        [ {| m_key := "h2h"; m_outcomes := [ {| o_name := "Alice"; o_price := 2%float |} ] |} ] ].

(** A market priced at zero on both sides. *)
Definition example_zero_priced : event float :=
  example_event "m3" [ example_bookmaker "First" [ example_market "Carol" 0 "Dana" 0 ] ].

(** A three-way market whose third outcome is a very long shot. *)
Definition example_three_way : event float :=
  example_event "m4"
    [ example_bookmaker "First"
        [ {| m_key := "h2h";
             m_outcomes := [ {| o_name := "Alice"; o_price := 2%float |};
                             {| o_name := "Bob"; o_price := 2%float |};
                             {| o_name := "Draw"; o_price := 100000%float |} ] |} ] ].

(** A three-way market whose first two probabilities both round up: the
    odds 1.03, 198.97 and 1e20. *)
Definition example_three_way_rounding : event float :=
  example_event "m5"
    [ example_bookmaker "First"
        [ {| m_key := "h2h";
             m_outcomes := [ {| o_name := "Alice"; o_price := 0x1.07ae147ae147bp+0%float |};
                             {| o_name := "Bob"; o_price := 0x1.8df0a3d70a3d7p+7%float |};
                             {| o_name := "Draw"; o_price := 0x1.5af1d78b58c4p+66%float |} ] |} ] ].

Definition example_sport (k : string) : sport :=
  {| s_key := k; s_group := Some "Tennis"; s_title := Some ("Open " +:+ k);
     s_details := None; s_active := true |}.

Definition example_env : environment :=
  {| ODDS_API_KEY := Some "k"; env_REGION := None; env_REGIONS := None |}.

Definition example_now : utc :=
  {| year := 2024; month := 1; day := 5; hours := 10; minutes := 3;
     seconds := 45; milliseconds := 7 |}.

Definition empty_world : world :=
  {| files := ∅; dirs := ∅; stdout := []; stderr := [] |}.

(** A catalog of two competitions; the first answers with [evs], the second
    with [second]. *)
Definition example_net (evs : list (event float)) (second : fetched (event float))
  : network float :=
  {| get_sports := Response true 200 "OK" (JsonArray [example_sport "atp"; example_sport "wta"]);
     get_odds := fun k _ =>
       if String.eqb k "atp" then Response true 200 "OK" (JsonArray evs) else second |}.

(** No regular expression is used in the examples. *)
Definition no_regexp : string -> result (string -> bool) :=
  fun _ => Throw "Invalid regular expression".

(** The value printed by a decimal text such as 0.5000 (digits, a point,
    digits), to read the persisted probability fields back. *)
Fixpoint digits_value (s : string) (acc : Z) : option Z :=
  match s with
  | EmptyString => Some acc
  | String c s' =>
      let n := nat_of_ascii c in
      if ((48 <=? n) && (n <=? 57))%nat
      then digits_value s' (10 * acc + Z.of_nat (n - 48))%Z
      else None
  end.

Definition decimal_value (s : string) : option Q :=
  match split_char "." s with
  | [a; b] =>
      match digits_value a 0, digits_value b 0 with
      | Some x, Some y =>
          Some (inject_Z x + inject_Z y / inject_Z (10 ^ Z.of_nat (String.length b)))%Q
      | _, _ => None
      end
  | _ => None
  end.

(** *** The calendar, to say when one reading of the clock is after another *)

Definition is_leap (y : Z) : bool :=
  ((y mod 4 =? 0) && (negb (y mod 100 =? 0) || (y mod 400 =? 0)))%Z.

Definition days_in_month (y m : Z) : Z :=
  match m with
  | 2 => if is_leap y then 29 else 28
  | 4 | 6 | 9 | 11 => 30
  | _ => 31
  end%Z.

Definition year_length (y : Z) : Z := if is_leap y then 366%Z else 365%Z.

(** ECMAScript's DayFromYear: the day number of 1 January of year [y],
    counted from 1 January 1970. *)
Definition day_from_year (y : Z) : Z :=
  (365 * (y - 1970) + (y - 1969) / 4 - (y - 1901) / 100 + (y - 1601) / 400)%Z.

Definition days_before_month (y m : Z) : Z :=
  let leap := (if is_leap y then 1 else 0)%Z in
  match m with
  | 1 => 0
  | 2 => 31
  | 3 => 59 + leap
  | 4 => 90 + leap
  | 5 => 120 + leap
  | 6 => 151 + leap
  | 7 => 181 + leap
  | 8 => 212 + leap
  | 9 => 243 + leap
  | 10 => 273 + leap
  | 11 => 304 + leap
  | _ => 334 + leap
  end%Z.

(** The time value of a date: milliseconds since the epoch (MakeDate). *)
Definition time_value (d : utc) : Z :=
  ((day_from_year (year d) + days_before_month (year d) (month d) + (day d - 1)) * 86400000
   + hours d * 3600000 + minutes d * 60000 + seconds d * 1000 + milliseconds d)%Z.

(** A date of the proleptic Gregorian calendar with a four-digit year. *)
Definition valid_utc (d : utc) : Prop :=
  (0 <= year d <= 9999 /\ 1 <= month d <= 12 /\
   1 <= day d <= days_in_month (year d) (month d) /\
   0 <= hours d < 24 /\ 0 <= minutes d < 60 /\ 0 <= seconds d < 60 /\
   0 <= milliseconds d < 1000)%Z.

(** What the archive stamp of a date looks like: YYYYMMDD, the letter T,
    HHmmss. *)
Definition stamp_shape (d : utc) : string :=
  pad_digits 4 (year d) +:+ pad_digits 2 (month d) +:+ pad_digits 2 (day d) +:+ "T"
  +:+ pad_digits 2 (hours d) +:+ pad_digits 2 (minutes d) +:+ pad_digits 2 (seconds d).

(** *** The history file *)

Definition header_text : string := "timestamp,key,title,region,count".

(** The lines of a text: the pieces between line feeds (the last piece is
    what follows the last line feed, empty when the text ends with one). *)
Definition file_lines (c : string) : list string := split_char LF c.

(** A row whose timestamp and region hold no line feed (the key and the
    title are JSON-quoted, the count is a number). *)
Definition row_ok (o : ScanLog.scan_row) : Prop :=
  str_has LF (ScanLog.r_ts o) = false /\ str_has LF (ScanLog.r_region o) = false.

(** A line without its line feed. *)
Definition line_body (o : ScanLog.scan_row) : string :=
  ScanLog.r_ts o +:+ "," +:+ JSON_quote (ScanLog.r_key o) +:+ ","
  +:+ template_json (ScanLog.r_title o) +:+ "," +:+ ScanLog.r_region o +:+ ","
  +:+ int_to_string (ScanLog.r_count o).

(** The rows one invocation of scan_log.js logs, [None] when it stops
    before the logger (no credential, or the catalog fetch fails). *)
Definition scan_batch {num : Type} (run : environment * utc * network num)
  : option (list ScanLog.scan_row) :=
  let '(env, now, net) := run in
  if String.eqb (ScanLog.API_KEY env) "" then None
  else
    match ScanLog.getTennisSports env net with
    | Ok all => Some (ScanLog.scan_rows env net (toISOString now) (List.filter s_active all))
    | Throw _ => None
    end.

(** Successive invocations of scan_log.js on the same machine. *)
Fixpoint run_scans {num : Type} (runs : list (environment * utc * network num)) (w : world)
  : world :=
  match runs with
  | [] => w
  | (env, now, net) :: runs' => run_scans runs' (snd (ScanLog.main env now net w))
  end.

(** The batches of the invocations that reached the logger, in order. *)
Fixpoint logged_batches {num : Type} (runs : list (environment * utc * network num))
  : list (list ScanLog.scan_row) :=
  match runs with
  | [] => []
  | run :: runs' =>
      match scan_batch run with
      | Some rows => rows :: logged_batches runs'
      | None => logged_batches runs'
      end
  end.

Definition regions_ok {num : Type} (run : environment * utc * network num) : Prop :=
  Forall (fun r => str_has LF r = false) (ScanLog.REGIONS (fst (fst run))).

(** *** Reading CSV back: an RFC 4180 reader

    Fields are separated by commas and records by line breaks (CR LF, or a
    bare LF as [toCsv] writes); a field that starts with a double quote
    runs to the closing double quote, with a doubled double quote standing
    for one; the last record may or may not be followed by a line break; an
    empty line is a record with one empty field. *)

Inductive reader_mode : Type :=
| AtFieldStart
| InUnquoted
| InQuoted
| AfterQuote.

Fixpoint read_csv (mode : reader_mode) (field : string) (rec : list string)
    (done : list (list string)) (s : string) {struct s} : option (list (list string)) :=
  match s with
  | EmptyString =>
      match mode with
      | AtFieldStart =>
          Some (match rec with [] => done | _ => done ++ [rec ++ [""]] end)
      | InUnquoted | AfterQuote => Some (done ++ [rec ++ [field]])
      | InQuoted => None
      end
  | String c s' =>
      match mode with
      | InQuoted =>
          if Ascii.eqb c DQUOTE then read_csv AfterQuote field rec done s'
          else read_csv InQuoted (field +:+ char_str c) rec done s'
      | AfterQuote =>
          if Ascii.eqb c DQUOTE then read_csv InQuoted (field +:+ char_str DQUOTE) rec done s'
          else if Ascii.eqb c COMMA then read_csv AtFieldStart "" (rec ++ [field]) done s'
          else if Ascii.eqb c LF then read_csv AtFieldStart "" [] (done ++ [rec ++ [field]]) s'
          else if Ascii.eqb c CR then
            match s' with
            | String d s'' =>
                if Ascii.eqb d LF
                then read_csv AtFieldStart "" [] (done ++ [rec ++ [field]]) s''
                else None
            | EmptyString => None
            end
          else None
      | _ =>
          if Ascii.eqb c DQUOTE then
            match mode with
            | AtFieldStart => read_csv InQuoted "" rec done s'
            | _ => None
            end
          else if Ascii.eqb c COMMA then read_csv AtFieldStart "" (rec ++ [field]) done s'
          else if Ascii.eqb c LF then read_csv AtFieldStart "" [] (done ++ [rec ++ [field]]) s'
          else if Ascii.eqb c CR then
            match s' with
            | String d s'' =>
                if Ascii.eqb d LF
                then read_csv AtFieldStart "" [] (done ++ [rec ++ [field]]) s''
                else read_csv InUnquoted (field +:+ char_str c) rec done s'
            | EmptyString => read_csv InUnquoted (field +:+ char_str c) rec done s'
            end
          else read_csv InUnquoted (field +:+ char_str c) rec done s'
      end
  end.

(** The table a text holds: [None] when it is not well formed. *)
Definition parse_csv (s : string) : option (list (list string)) :=
  read_csv AtFieldStart "" [] [] s.

(** The records of a table with a header line: each later line paired
    with the header. *)
Definition csv_records (t : list (list string)) : list (list (string * string)) :=
  match t with
  | [] => []
  | hdr :: lines => map (fun fields => combine hdr fields) lines
  end.

Definition read_records (s : string) : option (list (list (string * string))) :=
  option_map csv_records (parse_csv s).

(** The text a field of a record stands for: [String(v)], and the empty
    text for null and undefined. *)
Definition field_text {num : Type} `{JsNumber num} (v : value num) : string :=
  match v with
  | VNull | VUndefined => ""
  | _ => to_String v
  end.

(** A record as a CSV reader can give it back: every value by its text. *)
Definition record_texts {num : Type} `{JsNumber num} (r : record num)
  : list (string * string) :=
  map (fun kv => (fst kv, field_text (snd kv))) r.

(** A field wrapped in double quotes, its double quotes doubled. *)
Definition quoted (s : string) : string :=
  char_str DQUOTE +:+ replace_char DQUOTE (String DQUOTE (char_str DQUOTE)) s +:+ char_str DQUOTE.

(** How [esc] renders a text. *)
Definition rendered (s : string) : string :=
  if needs_quoting s then quoted s else s.

(** The line of one record under the columns [headers]. *)
Definition csv_line {num : Type} `{JsNumber num} (headers : list string) (r : record num)
  : string :=
  join "," (map (fun h => esc (get r h)) headers).

(** Records of one shape: the keys of the first one, without repetition,
    are the keys of each, in the same order. *)
Definition uniform {num : Type} (rows : list (record num)) : Prop :=
  match rows with
  | [] => True
  | r0 :: _ => List.NoDup (map fst r0) /\ Forall (fun r => map fst r = map fst r0) rows
  end.

(** A text that can stand in a CSV line as it is. *)
Definition plain (s : string) : Prop :=
  str_has DQUOTE s = false /\ str_has COMMA s = false /\ str_has LF s = false
  /\ str_has CR s = false.

(** A text that [esc] renders so that it reads back: one that is quoted,
    or one without a carriage return. *)
Definition readable (s : string) : Prop :=
  needs_quoting s = false -> str_has CR s = false.
(** Two records whose values hold a comma, double quotes, a line feed, a
    number and null. *)
Definition example_records : list (record float) :=
  [ [ ("name", VStr "Doe, Jane");
      ("note", VStr ("she said " +:+ char_str DQUOTE +:+ "hi" +:+ char_str DQUOTE));
      ("odds", VNum 0x1.8p+0%float) ];
    [ ("name", VStr ("line one" +:+ char_str LF +:+ "line two"));
      ("note", VNull);
      ("odds", VNum 3%float) ] ].

(** A single column whose last value is empty. *)
Definition example_single_column : list (record float) :=
  [ [ ("a", VStr "x") ]; [ ("a", VStr "") ] ].

(** A key that holds a comma. *)
Definition example_comma_key : list (record float) :=
  [ [ ("a,b", VStr "x") ] ].

(** The same upstream with every event that the extractor drops removed
    from every odds payload. *)
Definition extractable {num : Type} (ev : event num) : bool :=
  match extract ev with
  | Some _ => true
  | None => false
  end.

Definition without_dropped {num : Type} (r : fetched (event num)) : fetched (event num) :=
  match r with
  | Response ok status statusText (JsonArray raw) =>
      Response ok status statusText (JsonArray (List.filter extractable raw))
  | _ => r
  end.

Definition network_without_dropped {num : Type} (net : network num) : network num :=
  {| get_sports := get_sports net;
     get_odds := fun k r => without_dropped (get_odds net k r) |}.

(** Whether the four-decimal text of [n / 10^4] reads back as that value. *)
Definition fixed4_reads_back (n : Z) : bool :=
  match decimal_value (fixed4_digits n) with
  | Some v => Qeq_bool v (n # 10000)
  | None => false
  end.
(** A value that is an infinity or not a number. *)
Definition inf_or_nan (x : float) : Prop :=
  match Prim2SF x with
  | S754_infinity _ | S754_nan => True
  | _ => False
  end.

(** A price the normalizer cannot use: zero (of either sign) or not a
    number, as [1 / undefined] is when the payload has no price. *)
Definition unusable_price (x : float) : Prop :=
  is_nan x = true \/ is_zero x = true.
(** A record as it stands under the columns [headers]: for each column
    the text of [r[h]], the record's own field of that name or else the
    property it inherits from [Object.prototype]; empty when there is
    neither. *)
Definition record_under {num : Type} `{JsNumber num} (headers : list string)
    (r : record num) : list (string * string) :=
  map (fun h => (h, field_text (get r h))) headers.
(** *** Reading the history file back *)

Fixpoint str_forall (f : ascii -> bool) (s : string) : bool :=
  match s with
  | EmptyString => true
  | String c s' => f c && str_forall f s'
  end.

(** A character that [JSON.stringify] writes as it is: not a double quote,
    not a backslash, not a control character. *)
Definition json_verbatim_char (c : ascii) : bool :=
  negb (Ascii.eqb c DQUOTE) && negb (Ascii.eqb c BACKSLASH) && (32 <=? nat_of_ascii c)%nat.

Definition json_verbatim (s : string) : Prop := str_forall json_verbatim_char s = true.

(** The five fields of a logged row, as texts. *)
Definition history_fields (o : ScanLog.scan_row) : list string :=
  [ ScanLog.r_ts o; ScanLog.r_key o; template_str (ScanLog.r_title o);
    ScanLog.r_region o; int_to_string (ScanLog.r_count o) ].

Definition header_fields : list string := ["timestamp"; "key"; "title"; "region"; "count"].

(** A row that the logger writes as a line of CSV: its timestamp and region
    need no quoting, and JSON's quoting of its key and title is CSV's. *)
Definition row_readable (o : ScanLog.scan_row) : Prop :=
  plain (ScanLog.r_ts o) /\ json_verbatim (ScanLog.r_key o) /\
  (forall t, ScanLog.r_title o = Some t -> json_verbatim t) /\
  plain (ScanLog.r_region o).
(** *** The command line *)

(** The line that the sports command prints for a catalog entry. *)
Definition sport_line (s : sport) : string :=
  "- " +:+ s_key s +:+ "  |  " +:+ template_str (s_title s)
  +:+ "  |  active=" +:+ (if s_active s then "true" else "false").

(** The state after a [console.log] of one text. *)
Definition with_output (lines : list string) (w : world) : world :=
  {| files := files w; dirs := dirs w;
     stdout := stdout w ++ map (fun t => [CText t]) lines; stderr := stderr w |}.

(** *** The files of the bulk snapshot *)

Definition latest_csv : string := "data/odds_latest.csv".
Definition latest_json : string := "data/odds_latest.json".

(** The archive of a run whose clock reads [d]. *)
Definition archive_csv (d : utc) : string :=
  "data/odds_" +:+ stamp_of (toISOString d) +:+ ".csv".

(** Two readings of the clock within the same second. *)
Definition same_second (a b : utc) : Prop :=
  year a = year b /\ month a = month b /\ day a = day b /\
  hours a = hours b /\ minutes a = minutes b /\ seconds a = seconds b.
(** The columns that the rows of the two scripts have in common, besides
    the identifier and the probabilities. *)
Definition shared_columns : list string :=
  ["start"; "player1"; "player2"; "odds1"; "odds2"; "bookmaker"].

(** A bulk row and a command-line row that describe the same market. *)
Definition rows_agree {num : Type} `{JsNumber num} (bulk cli : record num) : Prop :=
  get bulk "event_id" = get cli "id" /\
  Forall (fun h => get bulk h = get cli h) shared_columns /\
  Forall (fun h => get bulk h = get cli h \/ get bulk h = VStr "") ["prob1"; "prob2"].


(** *** Market fetches and the rows of the history scan *)


(** The row that the history scan logs for a pair. *)
Definition logged_row {num : Type} (env : environment) (now : utc) (net : network num)
    (s : sport) (region : string) : ScanLog.scan_row :=
  {| ScanLog.r_ts := toISOString now; ScanLog.r_key := s_key s;
     ScanLog.r_title := s_title s; ScanLog.r_region := region;
     ScanLog.r_count := ScanLog.countEvents env net (s_key s) region |}.

(** A text that holds [part] somewhere. *)
Definition holds_text (part text : string) : Prop :=
  exists pre post, text = pre +:+ part +:+ post.


(** * Properties *)

(** ** Binary64: the rounding of [SpecFloat] is rounding to nearest *)

Lemma is_nan_Prim2SF (x : float) : is_nan x = true <-> Prim2SF x = S754_nan.
Proof.
  split.
  - intros Hx. unfold Prim2SF. now rewrite Hx.
  - intros Hx. unfold is_nan. rewrite FloatAxioms.eqb_spec, Hx. reflexivity.
Qed.

Section Pow2.
Local Open Scope Z_scope.

Lemma pow2_pos (e : Z) : (0 < pow2 e)%Q.
Proof. apply Qpower_0_lt. reflexivity. Qed.

Lemma pow2_add (a b : Z) : (pow2 (a + b) == pow2 a * pow2 b)%Q.
Proof. apply Qpower_plus. discriminate. Qed.

Lemma pow2_le (a b : Z) : (a <= b)%Z -> (pow2 a <= pow2 b)%Q.
Proof. intros H. apply Qpower_le_compat_l; [exact H | discriminate]. Qed.

Lemma pow2_lt (a b : Z) : (a < b)%Z -> (pow2 a < pow2 b)%Q.
Proof. intros H. apply Qpower_lt_compat_l; [exact H | reflexivity]. Qed.

Lemma pow2_Z (e : Z) : (0 <= e)%Z -> (pow2 e == inject_Z (2 ^ e))%Q.
Proof. intros H. unfold pow2. now rewrite Zpower_Qpower. Qed.

Lemma pow2_succ (e : Z) : (pow2 (e + 1) == 2 * pow2 e)%Q.
Proof. rewrite pow2_add. change (pow2 1) with 2%Q. ring. Qed.

Lemma pow2_sub (a b : Z) : (pow2 (a - b) == pow2 a / pow2 b)%Q.
Proof.
  pose proof (pow2_pos b).
  assert (E : (pow2 a == pow2 (a - b) * pow2 b)%Q).
  { rewrite <- pow2_add. now replace (a - b + b)%Z with a by lia. }
  rewrite E. field. lra.
Qed.

End Pow2.

Section RneZ.
Local Open Scope Z_scope.

Lemma Qfloor_bounds (t : Q) :
  (inject_Z (Qfloor t) <= t /\ t < inject_Z (Qfloor t) + 1)%Q.
Proof.
  split; [apply Qfloor_le|].
  pose proof (Qlt_floor t) as H. rewrite inject_Z_plus in H. exact H.
Qed.

Lemma Qfloor_unique (t : Q) (n : Z) :
  (inject_Z n <= t)%Q -> (t < inject_Z n + 1)%Q -> Qfloor t = n.
Proof.
  intros H1 H2. destruct (Qfloor_bounds t) as [F1 F2].
  assert (A : (inject_Z n < inject_Z (Qfloor t) + 1)%Q) by lra.
  assert (B : (inject_Z (Qfloor t) < inject_Z n + 1)%Q) by lra.
  change 1%Q with (inject_Z 1) in A, B.
  rewrite <- inject_Z_plus, <- Zlt_Qlt in A, B. lia.
Qed.

Lemma rneZ_cases (t : Q) :
  let f := Qfloor t in
  ((t - inject_Z f < 1 # 2)%Q /\ rneZ t = f) \/
  ((t - inject_Z f == 1 # 2)%Q /\ rneZ t = if Z.even f then f else (f + 1)%Z) \/
  ((1 # 2 < t - inject_Z f)%Q /\ rneZ t = (f + 1)%Z).
Proof.
  intros f. unfold rneZ. fold f.
  destruct (Qcompare (t - inject_Z f) (1 # 2)) eqn:C.
  - right. left. split; [now apply Qeq_alt | reflexivity].
  - left. split; [now apply Qlt_alt | reflexivity].
  - right. right. split; [now apply Qgt_alt | reflexivity].
Qed.

Lemma rneZ_err (t : Q) :
  (inject_Z (rneZ t) - (1 # 2) <= t /\ t <= inject_Z (rneZ t) + (1 # 2))%Q.
Proof.
  destruct (Qfloor_bounds t) as [F1 F2].
  destruct (rneZ_cases t) as [[C ->]|[[C ->]|[C ->]]].
  - lra.
  - destruct (Z.even (Qfloor t)); [lra|]. rewrite inject_Z_plus. change (inject_Z 1) with 1%Q. lra.
  - rewrite inject_Z_plus. change (inject_Z 1) with 1%Q. lra.
Qed.

Lemma rneZ_mono (t1 t2 : Q) : (t1 <= t2)%Q -> (rneZ t1 <= rneZ t2)%Z.
Proof.
  intros Hle.
  pose proof (Qfloor_resp_le _ _ Hle) as Hf.
  destruct (Qfloor_bounds t1) as [A1 A2]. destruct (Qfloor_bounds t2) as [B1 B2].
  assert (Hlo : forall t, (Qfloor t <= rneZ t <= Qfloor t + 1)%Z).
  { intros t. destruct (rneZ_cases t) as [[_ ->]|[[_ ->]|[_ ->]]]; try lia.
    destruct (Z.even (Qfloor t)); lia. }
  destruct (Z.eq_dec (Qfloor t1) (Qfloor t2)) as [Heq|Hne].
  - destruct (rneZ_cases t1) as [[C1 ->]|[[C1 ->]|[C1 ->]]];
      destruct (rneZ_cases t2) as [[C2 ->]|[[C2 ->]|[C2 ->]]];
      rewrite <- ?Heq in *; try lia;
      try (destruct (Z.even (Qfloor t1)); lia);
      exfalso; lra.
  - pose proof (Hlo t1). pose proof (Hlo t2). lia.
Qed.

Lemma rneZ_comp (t1 t2 : Q) : (t1 == t2)%Q -> rneZ t1 = rneZ t2.
Proof.
  intros E. apply Z.le_antisymm; apply rneZ_mono; rewrite E; apply Qle_refl.
Qed.

Lemma rneZ_Z (n : Z) : rneZ (inject_Z n) = n.
Proof.
  destruct (rneZ_cases (inject_Z n)) as [[C ->]|[[C H]|[C H]]].
  - apply Qfloor_Z.
  - rewrite Qfloor_Z in C. exfalso. lra.
  - rewrite Qfloor_Z in C. exfalso. lra.
Qed.

Lemma located_floor (t : Q) (m : Z) (l : location) :
  located t m l -> Qfloor t = m.
Proof.
  intros H. apply Qfloor_unique; destruct l as [|[]]; simpl in H; lra.
Qed.

Lemma rneZ_located (t : Q) (m : Z) (l : location) :
  located t m l -> rneZ t = round_nearest_even m l.
Proof.
  intros H. pose proof (located_floor t m l H) as Hf.
  destruct (rneZ_cases t) as [[C ->]|[[C ->]|[C ->]]]; rewrite Hf in *;
    destruct l as [|[]]; simpl in H |- *; try reflexivity; exfalso; lra.
Qed.

End RneZ.

Section Shifts.
Local Open Scope Z_scope.

Lemma located_comp (t t' : Q) (m : Z) (l : location) :
  (t == t')%Q -> located t m l -> located t' m l.
Proof. intros E H. destruct l as [|[]]; simpl in *; lra. Qed.

Lemma shr_record_of_loc_m (m : Z) (l : location) : shr_m (shr_record_of_loc m l) = m.
Proof. destruct l as [|[]]; reflexivity. Qed.

Lemma shr_record_of_loc_loc (m : Z) (l : location) :
  loc_of_shr_record (shr_record_of_loc m l) = l.
Proof. destruct l as [|[]]; reflexivity. Qed.

Lemma shr_1_located (t : Q) (mrs : shr_record) :
  (0 <= shr_m mrs)%Z ->
  located t (shr_m mrs) (loc_of_shr_record mrs) ->
  (0 <= shr_m (shr_1 mrs))%Z /\
  located (t * (1 # 2)) (shr_m (shr_1 mrs)) (loc_of_shr_record (shr_1 mrs)).
Proof.
  destruct mrs as [m r s]. cbn [shr_m]. intros Hm H.
  destruct m as [|[p|p|]|p]; try lia.
  - destruct r, s; simpl in H |- *; change (inject_Z 0) with 0%Q in *; (split; [lia|]); lra.
  - assert (E : (inject_Z (Z.pos p~1) == 2 * inject_Z (Z.pos p) + 1)%Q).
    { rewrite Pos2Z.inj_xI, inject_Z_plus, inject_Z_mult. reflexivity. }
    destruct r, s; simpl in H |- *; rewrite E in H; (split; [lia|]); lra.
  - assert (E : (inject_Z (Z.pos p~0) == 2 * inject_Z (Z.pos p))%Q).
    { rewrite Pos2Z.inj_xO, inject_Z_mult. reflexivity. }
    destruct r, s; simpl in H |- *; rewrite E in H; (split; [lia|]); lra.
  - destruct r, s; simpl in H |- *; change (inject_Z 0) with 0%Q;
      change (inject_Z 1) with 1%Q in H; (split; [lia|]); lra.
Qed.

Lemma iter_shr_located (p : positive) :
  forall (t : Q) (mrs : shr_record),
    (0 <= shr_m mrs)%Z ->
    located t (shr_m mrs) (loc_of_shr_record mrs) ->
    (0 <= shr_m (SpecFloat.iter_pos shr_1 p mrs))%Z /\
    located (t / pow2 (Z.pos p)) (shr_m (SpecFloat.iter_pos shr_1 p mrs))
      (loc_of_shr_record (SpecFloat.iter_pos shr_1 p mrs)).
Proof.
  induction p as [p IH|p IH|]; intros t mrs Hm H; cbn [SpecFloat.iter_pos].
  - destruct (shr_1_located t mrs Hm H) as [Hm1 H1].
    destruct (IH _ _ Hm1 H1) as [Hm2 H2].
    destruct (IH _ _ Hm2 H2) as [Hm3 H3].
    split; [exact Hm3|]. eapply located_comp; [|exact H3].
    pose proof (pow2_pos (Z.pos p)).
    rewrite (Pos2Z.inj_xI p), pow2_succ.
    replace (2 * Z.pos p)%Z with (Z.pos p + Z.pos p)%Z by lia.
    rewrite pow2_add. field. lra.
  - destruct (IH _ _ Hm H) as [Hm2 H2].
    destruct (IH _ _ Hm2 H2) as [Hm3 H3].
    split; [exact Hm3|]. eapply located_comp; [|exact H3].
    pose proof (pow2_pos (Z.pos p)).
    rewrite (Pos2Z.inj_xO p).
    replace (2 * Z.pos p)%Z with (Z.pos p + Z.pos p)%Z by lia.
    rewrite pow2_add. field. lra.
  - destruct (shr_1_located t mrs Hm H) as [Hm1 H1].
    split; [exact Hm1|]. eapply located_comp; [|exact H1].
    change (pow2 1) with 2%Q. field.
Qed.

Lemma shr_located (t : Q) (m : Z) (l : location) (e n : Z) :
  (0 <= m)%Z -> located t m l -> (0 <= n)%Z ->
  snd (shr (shr_record_of_loc m l) e n) = (e + n)%Z /\
  (0 <= shr_m (fst (shr (shr_record_of_loc m l) e n)))%Z /\
  located (t / pow2 n) (shr_m (fst (shr (shr_record_of_loc m l) e n)))
    (loc_of_shr_record (fst (shr (shr_record_of_loc m l) e n))).
Proof.
  intros Hm H Hn. destruct n as [|p|p]; [| |lia]; cbn [shr fst snd].
  - rewrite shr_record_of_loc_m, shr_record_of_loc_loc.
    split; [lia|]. split; [exact Hm|].
    eapply located_comp; [|exact H]. change (pow2 0) with 1%Q. field.
  - split; [reflexivity|]. apply iter_shr_located.
    + now rewrite shr_record_of_loc_m.
    + now rewrite shr_record_of_loc_m, shr_record_of_loc_loc.
Qed.

Lemma shr_none (mrs : shr_record) (e n : Z) : (n <= 0)%Z -> shr mrs e n = (mrs, e).
Proof. intros Hn. destruct n; [reflexivity | lia | reflexivity]. Qed.

End Shifts.

Section Digits.
Local Open Scope Z_scope.

Lemma digits2_pos_bounds (p : positive) :
  (2 ^ (Z.pos (digits2_pos p) - 1) <= Z.pos p < 2 ^ Z.pos (digits2_pos p))%Z.
Proof.
  induction p as [p IH|p IH|]; cbn [digits2_pos]; [| |cbn; lia];
    rewrite Pos2Z.inj_succ;
    replace (Z.succ (Z.pos (digits2_pos p)) - 1)%Z with (Z.succ (Z.pos (digits2_pos p) - 1)) by lia;
    rewrite !Z.pow_succ_r by lia; lia.
Qed.

Lemma Zdigits2_bounds (m : Z) :
  (0 < m)%Z -> (2 ^ (Zdigits2 m - 1) <= m < 2 ^ Zdigits2 m)%Z.
Proof.
  intros Hm. destruct m as [|p|p]; try lia. apply digits2_pos_bounds.
Qed.

Lemma Zdigits2_pos (m : Z) : (0 < m)%Z -> (0 < Zdigits2 m)%Z.
Proof. intros Hm. destruct m; try lia. reflexivity. Qed.

Lemma Zdigits2_le (m : Z) (k : Z) : (0 < m)%Z -> (m < 2 ^ k)%Z -> (0 <= k)%Z -> (Zdigits2 m <= k)%Z.
Proof.
  intros Hm Hlt Hk. destruct (Zdigits2_bounds m Hm) as [Hlo _].
  pose proof (Zdigits2_pos m Hm).
  destruct (Z_le_gt_dec (Zdigits2 m) k) as [|Hgt]; [assumption|].
  assert (2 ^ k <= 2 ^ (Zdigits2 m - 1))%Z by (apply Z.pow_le_mono_r; lia). lia.
Qed.

Lemma Zdigits2_ge (m : Z) (k : Z) : (0 < m)%Z -> (2 ^ k <= m)%Z -> (0 <= k)%Z -> (k + 1 <= Zdigits2 m)%Z.
Proof.
  intros Hm Hle Hk. destruct (Zdigits2_bounds m Hm) as [_ Hhi].
  pose proof (Zdigits2_pos m Hm).
  destruct (Z_le_gt_dec (k + 1) (Zdigits2 m)) as [|Hgt]; [assumption|].
  assert (2 ^ (Zdigits2 m) <= 2 ^ k)%Z by (apply Z.pow_le_mono_r; lia). lia.
Qed.

End Digits.

Section RoundAux.
Local Open Scope Z_scope.

Lemma fexp64_eq (e : Z) : fexp 53 1024 e = Z.max (e - 53) (-1074).
Proof. reflexivity. Qed.

Lemma located_bounds (t : Q) (m : Z) (l : location) :
  located t m l -> (inject_Z m <= t /\ t < inject_Z m + 1)%Q.
Proof. intros H. destruct l as [|[]]; simpl in H; lra. Qed.

Lemma scaled_le (x a : Q) (e : Z) : (a <= x / pow2 e)%Q -> (a * pow2 e <= x)%Q.
Proof.
  intros H. pose proof (pow2_pos e) as Hp.
  assert (E : (x == x / pow2 e * pow2 e)%Q) by (field; lra).
  rewrite E. apply Qmult_le_compat_r; [exact H | lra].
Qed.

Lemma scaled_lt (x a : Q) (e : Z) : (x / pow2 e < a)%Q -> (x < a * pow2 e)%Q.
Proof.
  intros H. pose proof (pow2_pos e) as Hp.
  assert (E : (x == x / pow2 e * pow2 e)%Q) by (field; lra).
  rewrite E. apply Qmult_lt_compat_r; [exact Hp | exact H].
Qed.

Lemma le_scaled (x a : Q) (e : Z) : (a * pow2 e <= x)%Q -> (a <= x / pow2 e)%Q.
Proof.
  intros H. pose proof (pow2_pos e) as Hp.
  apply Qle_shift_div_l; assumption.
Qed.

Lemma lt_scaled (x a : Q) (e : Z) : (x < a * pow2 e)%Q -> (x / pow2 e < a)%Q.
Proof.
  intros H. pose proof (pow2_pos e) as Hp.
  apply Qlt_shift_div_r; assumption.
Qed.

Lemma shr_fexp_located (x : Q) (m e : Z) (l : location) :
  (0 <= m)%Z -> located (x / pow2 e) m l ->
  (e <= fexp 53 1024 (Zdigits2 m + e))%Z ->
  cexp_of x (fexp 53 1024 (Zdigits2 m + e)) /\
  snd (shr_fexp 53 1024 m e l) = fexp 53 1024 (Zdigits2 m + e) /\
  (0 <= shr_m (fst (shr_fexp 53 1024 m e l)))%Z /\
  located (x / pow2 (fexp 53 1024 (Zdigits2 m + e)))
    (shr_m (fst (shr_fexp 53 1024 m e l)))
    (loc_of_shr_record (fst (shr_fexp 53 1024 m e l))).
Proof.
  intros Hm Hloc He. set (E := fexp 53 1024 (Zdigits2 m + e)) in *.
  assert (HE : E = Z.max (Zdigits2 m + e - 53) (-1074)) by reflexivity.
  destruct (located_bounds _ _ _ Hloc) as [Hlo Hhi].
  split.
  - unfold cexp_of. split; [lia|].
    destruct (Z.eq_dec m 0) as [->|Hne].
    + cbn [Zdigits2] in HE. change (inject_Z 0) with 0%Q in *.
      assert (HE' : E = (-1074)%Z) by lia.
      apply scaled_lt in Hhi.
      assert (pow2 e <= pow2 (-1074))%Q by (apply pow2_le; lia).
      assert (pow2 (-1074) < pow2 (E + 53))%Q by (apply pow2_lt; lia).
      split; [lra | now left].
    + assert (Hpos : (0 < m)%Z) by lia.
      destruct (Zdigits2_bounds m Hpos) as [Dlo Dhi].
      pose proof (Zdigits2_pos m Hpos) as Dpos.
      set (d := Zdigits2 m) in *.
      assert (A : (pow2 (d - 1) <= inject_Z m)%Q).
      { rewrite pow2_Z by lia. now rewrite <- Zle_Qle. }
      assert (B : (inject_Z m + 1 <= pow2 d)%Q).
      { rewrite pow2_Z by lia. change 1%Q with (inject_Z 1).
        rewrite <- inject_Z_plus, <- Zle_Qle. lia. }
      assert (X1 : (pow2 (d - 1 + e) <= x)%Q).
      { rewrite pow2_add. apply scaled_le. lra. }
      assert (X2 : (x < pow2 (d + e))%Q).
      { rewrite pow2_add. apply scaled_lt. lra. }
      split.
      * assert (pow2 (d + e) <= pow2 (E + 53))%Q by (apply pow2_le; lia). lra.
      * destruct (Z.eq_dec E (-1074)) as [|HneE]; [now left|]. right.
        assert (pow2 (E + 52) <= pow2 (d - 1 + e))%Q by (apply pow2_le; lia). lra.
  - unfold shr_fexp. fold E.
    destruct (shr_located (x / pow2 e) m l e (E - e) Hm Hloc ltac:(lia)) as (S1 & S2 & S3).
    split; [rewrite S1; lia|]. split; [exact S2|].
    eapply located_comp; [|exact S3].
    pose proof (pow2_pos e). pose proof (pow2_pos E).
    rewrite pow2_sub. field. lra.
Qed.

Lemma cexp_scaled (x : Q) (E : Z) :
  cexp_of x E ->
  (x / pow2 E < inject_Z (2 ^ 53))%Q /\
  (E <> (-1074)%Z -> (inject_Z (2 ^ 52) <= x / pow2 E)%Q).
Proof.
  intros (HE & Hlt & Hge). split.
  - apply lt_scaled. rewrite <- pow2_Z by lia. rewrite <- pow2_add.
    now replace (53 + E)%Z with (E + 53)%Z by lia.
  - intros Hne. destruct Hge as [|Hge]; [contradiction|].
    apply le_scaled. rewrite <- pow2_Z by lia. rewrite <- pow2_add.
    now replace (52 + E)%Z with (E + 52)%Z by lia.
Qed.

Lemma rne_scaled_bounds (x : Q) (E : Z) :
  (0 <= x)%Q -> cexp_of x E ->
  (0 <= rneZ (x / pow2 E) <= 2 ^ 53)%Z /\
  (E <> (-1074)%Z -> (2 ^ 52 <= rneZ (x / pow2 E))%Z).
Proof.
  intros Hx Hc. destruct (cexp_scaled x E Hc) as [Hlt Hge].
  pose proof (pow2_pos E) as Hp. split; [split|].
  - rewrite <- (rneZ_Z 0). apply rneZ_mono. change (inject_Z 0) with 0%Q.
    apply Qle_shift_div_l; [exact Hp | lra].
  - rewrite <- (rneZ_Z (2 ^ 53)). apply rneZ_mono. lra.
  - intros Hne. rewrite <- (rneZ_Z (2 ^ 52)). apply rneZ_mono. now apply Hge.
Qed.

(** The rounding of [SpecFloat]: given the integer part and the location of
    [x / 2^e], with [e] at or below the exponent of the grid around [x],
    [binary_round_aux] returns the binary64 result for [x]. *)
Lemma binary_round_aux_rounded (x : Q) (m e : Z) (l : location) :
  (0 <= m)%Z -> located (x / pow2 e) m l ->
  (e <= fexp 53 1024 (Zdigits2 m + e))%Z ->
  rounded x (binary_round_aux 53 1024 false m e l).
Proof.
  intros Hm Hloc He.
  destruct (shr_fexp_located x m e l Hm Hloc He) as (Hc & S1 & S2 & S3).
  set (E := fexp 53 1024 (Zdigits2 m + e)) in *.
  assert (Hx : (0 <= x)%Q).
  { destruct (located_bounds _ _ _ Hloc) as [Hlo _].
    pose proof (pow2_pos e). apply scaled_le in Hlo.
    assert (0 <= inject_Z m)%Q by (change 0%Q with (inject_Z 0); now rewrite <- Zle_Qle).
    assert (0 <= inject_Z m * pow2 e)%Q by (apply Qmult_le_0_compat; lra). lra. }
  destruct (rne_scaled_bounds x E Hx Hc) as [[M0 M53] M52].
  assert (HEmin : (-1074 <= E)%Z) by apply Hc.
  exists (inject_Z (rneZ (x / pow2 E)) * pow2 E)%Q. split.
  { exists E. split; [exact Hc | reflexivity]. }
  rewrite (rneZ_located _ _ _ S3) in *.
  unfold binary_round_aux.
  destruct (shr_fexp 53 1024 m e l) as [mrs' e'] eqn:Hs. cbn [fst snd] in *. subst e'.
  set (M := round_nearest_even (shr_m mrs') (loc_of_shr_record mrs')) in *.
  destruct (Z.eq_dec M (2 ^ 53)) as [HM|HM].
  - assert (HM' : M = 9007199254740992) by exact HM.
    rewrite HM'. unfold shr_fexp.
    change (Zdigits2 9007199254740992) with 54%Z.
    rewrite fexp64_eq. replace (Z.max (54 + E - 53) (-1074) - E)%Z with 1%Z by lia.
    cbn [shr_record_of_loc shr SpecFloat.iter_pos shr_1 shr_m].
    assert (V : (inject_Z 9007199254740992 * pow2 E
                 == inject_Z 4503599627370496 * pow2 (E + 1))%Q).
    { rewrite pow2_succ. change 9007199254740992%Z with (2 * 4503599627370496)%Z.
      rewrite inject_Z_mult. change (inject_Z 2) with 2%Q. ring. }
    destruct (E + 1 <=? 1024 - 53)%Z eqn:Hb.
    + exact V.
    + apply Z.leb_gt in Hb. rewrite V.
      assert (P : (pow2 1024 == inject_Z 4503599627370496 * pow2 972)%Q).
      { change 1024%Z with (52 + 972)%Z. rewrite pow2_add, (pow2_Z 52) by lia. reflexivity. }
      rewrite P. apply Qmult_le_l; [reflexivity|]. apply pow2_le. lia.
  - assert (Hshift : shr_fexp 53 1024 M E loc_Exact = (shr_record_of_loc M loc_Exact, E)).
    { unfold shr_fexp. apply shr_none. rewrite fexp64_eq.
      destruct (Z.eq_dec M 0) as [->|HM0]; [cbn [Zdigits2]; lia|].
      assert (Zdigits2 M <= 53)%Z by (apply Zdigits2_le; lia). lia. }
    rewrite Hshift. cbn [shr_record_of_loc shr_m].
    destruct M as [|p|p] eqn:HMp; [| |lia].
    + change (inject_Z 0) with 0%Q. ring.
    + destruct (E <=? 1024 - 53)%Z eqn:Hb; [reflexivity|].
      apply Z.leb_gt in Hb.
      assert (P : (pow2 1024 == inject_Z (2 ^ 52) * pow2 972)%Q).
      { change 1024%Z with (52 + 972)%Z. rewrite pow2_add, (pow2_Z 52) by lia. reflexivity. }
      rewrite P. pose proof (pow2_pos 972). pose proof (pow2_pos E).
      assert (pow2 972 <= pow2 E)%Q by (apply pow2_le; lia).
      assert (inject_Z (2 ^ 52) <= inject_Z (Z.pos p))%Q.
      { rewrite <- Zle_Qle. apply M52. lia. }
      assert (0 < inject_Z (2 ^ 52))%Q by reflexivity.
      apply Qle_trans with (inject_Z (2 ^ 52) * pow2 E)%Q.
      * apply Qmult_le_l; assumption.
      * apply Qmult_le_compat_r; lra.
Qed.

End RoundAux.

Section Rounds.
Local Open Scope Z_scope.

Lemma rounds_comp (x x' f f' : Q) :
  (x == x')%Q -> (f == f')%Q -> rounds x f -> rounds x' f'.
Proof.
  intros Ex Ef (E & (H1 & H2 & H3) & Hf). exists E. split.
  - split; [exact H1|]. split; [now rewrite <- Ex|].
    destruct H3 as [|H3]; [now left | right; now rewrite <- Ex].
  - rewrite <- Ef, Hf.
    assert (R : rneZ (x / pow2 E) = rneZ (x' / pow2 E)).
    { apply rneZ_comp. now rewrite Ex. }
    now rewrite R.
Qed.

Lemma rounds_nonneg (x f : Q) : (0 <= x)%Q -> rounds x f -> (0 <= f)%Q.
Proof.
  intros Hx (E & Hc & Hf). destruct (rne_scaled_bounds x E Hx Hc) as [[M0 _] _].
  rewrite Hf. apply Qmult_le_0_compat.
  - change 0%Q with (inject_Z 0). now rewrite <- Zle_Qle.
  - pose proof (pow2_pos E). lra.
Qed.

(** Rounding is monotone. *)
Lemma rounds_mono (x y f g : Q) :
  (0 <= x)%Q -> (x <= y)%Q -> rounds x f -> rounds y g -> (f <= g)%Q.
Proof.
  intros Hx Hxy (Ex & Hcx & Hf) (Ey & Hcy & Hg).
  assert (Hy : (0 <= y)%Q) by lra.
  destruct (rne_scaled_bounds x Ex Hx Hcx) as [[Mx0 Mx53] Mx52].
  destruct (rne_scaled_bounds y Ey Hy Hcy) as [[My0 My53] My52].
  destruct Hcx as (Hx1 & Hx2 & Hx3). destruct Hcy as (Hy1 & Hy2 & Hy3).
  rewrite Hf, Hg.
  destruct (Z.compare_spec Ex Ey) as [Heq|Hlt|Hgt].
  - subst Ey. pose proof (pow2_pos Ex) as Hp.
    apply Qmult_le_compat_r; [|lra].
    rewrite <- Zle_Qle. apply rneZ_mono.
    apply Qmult_le_compat_r; [exact Hxy|]. apply Qlt_le_weak, Qinv_lt_0_compat, Hp.
  - pose proof (pow2_pos Ex). pose proof (pow2_pos Ey).
    apply Qle_trans with (inject_Z (2 ^ 53) * pow2 Ex)%Q.
    { apply Qmult_le_compat_r; [|lra]. now rewrite <- Zle_Qle. }
    apply Qle_trans with (inject_Z (2 ^ 52) * pow2 Ey)%Q.
    { rewrite <- !pow2_Z, <- !pow2_add by lia. apply pow2_le. lia. }
    apply Qmult_le_compat_r; [|lra]. rewrite <- Zle_Qle. apply My52. lia.
  - exfalso. destruct Hx3 as [Hx3|Hx3]; [lia|].
    assert (pow2 (Ey + 53) <= pow2 (Ex + 52))%Q by (apply pow2_le; lia). lra.
Qed.

Lemma rounds_unique (x f g : Q) : (0 <= x)%Q -> rounds x f -> rounds x g -> (f == g)%Q.
Proof.
  intros Hx Hf Hg. apply Qle_antisym; eapply rounds_mono; eauto; apply Qle_refl.
Qed.

Lemma rounds_half_ulp (x f : Q) :
  rounds x f ->
  exists E, cexp_of x E /\ (f - pow2 E * (1 # 2) <= x)%Q /\ (x <= f + pow2 E * (1 # 2))%Q /\
            (f == inject_Z (rneZ (x / pow2 E)) * pow2 E)%Q.
Proof.
  intros (E & Hc & Hf). exists E. split; [exact Hc|].
  destruct (rneZ_err (x / pow2 E)) as [R1 R2].
  pose proof (pow2_pos E) as Hp.
  apply scaled_le in R1.
  assert (R2' : (x <= (inject_Z (rneZ (x / pow2 E)) + (1 # 2)) * pow2 E)%Q).
  { assert (Ex : (x == x / pow2 E * pow2 E)%Q) by (field; lra).
    rewrite Ex at 1. apply Qmult_le_compat_r; [exact R2 | lra]. }
  rewrite Hf. split; [|split; [|reflexivity]].
  - assert (A : ((inject_Z (rneZ (x / pow2 E)) - (1 # 2)) * pow2 E
                 == inject_Z (rneZ (x / pow2 E)) * pow2 E - pow2 E * (1 # 2))%Q) by ring.
    now rewrite <- A.
  - assert (A : ((inject_Z (rneZ (x / pow2 E)) + (1 # 2)) * pow2 E
                 == inject_Z (rneZ (x / pow2 E)) * pow2 E + pow2 E * (1 # 2))%Q) by ring.
    now rewrite <- A.
Qed.

(** The error of a rounding: relative 2^-53, or absolute 2^-1075 among the
    subnormal numbers. *)
Lemma rounds_err (x f : Q) :
  (0 <= x)%Q -> rounds x f ->
  (f - x <= x * pow2 (-53) + pow2 (-1075))%Q /\ (x - f <= x * pow2 (-53) + pow2 (-1075))%Q.
Proof.
  intros Hx Hr. destruct (rounds_half_ulp x f Hr) as (E & Hc & H1 & H2 & _).
  destruct Hc as (HE & Hlt & Hge).
  assert (Hu : (0 < pow2 (-53))%Q) by apply pow2_pos.
  assert (He : (0 < pow2 (-1075))%Q) by apply pow2_pos.
  assert (Hxu : (0 <= x * pow2 (-53))%Q) by (apply Qmult_le_0_compat; lra).
  destruct Hge as [->|Hge].
  - assert (P : (pow2 (-1074) * (1 # 2) == pow2 (-1075))%Q).
    { change (-1074)%Z with (-1075 + 1)%Z. rewrite pow2_succ. ring. }
    rewrite P in H1, H2. lra.
  - assert (P : (pow2 E * (1 # 2) == pow2 (E + 52) * pow2 (-53))%Q).
    { rewrite <- pow2_add. replace (E + 52 + -53)%Z with (E - 1)%Z by lia.
      replace E with (E - 1 + 1)%Z at 1 by lia. rewrite pow2_succ. ring. }
    assert (Q1 : (pow2 (E + 52) * pow2 (-53) <= x * pow2 (-53))%Q).
    { apply Qmult_le_compat_r; lra. }
    rewrite P in H1, H2. lra.
Qed.

(** On a multiple of 2^-1074 the error is relative. *)
Lemma rounds_err_grid (x f : Q) (k : Z) :
  (0 <= x)%Q -> (x == inject_Z k * pow2 (-1074))%Q -> rounds x f ->
  (f - x <= x * pow2 (-53))%Q /\ (x - f <= x * pow2 (-53))%Q.
Proof.
  intros Hx Hk Hr. destruct (rounds_half_ulp x f Hr) as (E & Hc & H1 & H2 & Hf).
  destruct Hc as (HE & Hlt & Hge).
  assert (Hu : (0 < pow2 (-53))%Q) by apply pow2_pos.
  assert (Hxu : (0 <= x * pow2 (-53))%Q) by (apply Qmult_le_0_compat; lra).
  destruct Hge as [->|Hge].
  - assert (R : rneZ (x / pow2 (-1074)) = k).
    { rewrite <- (rneZ_Z k). apply rneZ_comp. rewrite Hk.
      pose proof (pow2_pos (-1074)). field. lra. }
    rewrite R in Hf. rewrite <- Hk in Hf. lra.
  - assert (P : (pow2 E * (1 # 2) == pow2 (E + 52) * pow2 (-53))%Q).
    { rewrite <- pow2_add. replace (E + 52 + -53)%Z with (E - 1)%Z by lia.
      replace E with (E - 1 + 1)%Z at 1 by lia. rewrite pow2_succ. ring. }
    assert (Q1 : (pow2 (E + 52) * pow2 (-53) <= x * pow2 (-53))%Q).
    { apply Qmult_le_compat_r; lra. }
    rewrite P in H1, H2. lra.
Qed.

Lemma rounds_zero : rounds 0 0.
Proof.
  exists (-1074)%Z. split.
  - split; [lia|]. split; [apply pow2_pos | now left].
  - assert (R : rneZ (0 / pow2 (-1074)) = 0%Z).
    { transitivity (rneZ (inject_Z 0)); [|apply rneZ_Z].
      apply rneZ_comp. change (inject_Z 0) with 0%Q. unfold Qdiv. ring. }
    rewrite R. change (inject_Z 0) with 0%Q. ring.
Qed.

Lemma bounded_inv (m : positive) (e : Z) :
  bounded 53 1024 m e = true ->
  (-1074 <= e <= 971)%Z /\ (Z.pos (digits2_pos m) <= 53)%Z /\
  (e = (-1074)%Z \/ Z.pos (digits2_pos m) = 53%Z).
Proof.
  unfold bounded, canonical_mantissa. rewrite fexp64_eq.
  intros H. apply andb_true_iff in H as [H1 H2].
  apply Z.eqb_eq in H1. apply Z.leb_le in H2. lia.
Qed.

(** A binary64 number rounds to itself. *)
Lemma rounds_float (m : positive) (e : Z) :
  bounded 53 1024 m e = true ->
  rounds (inject_Z (Z.pos m) * pow2 e) (inject_Z (Z.pos m) * pow2 e).
Proof.
  intros Hb. destruct (bounded_inv m e Hb) as (He & Hd & Hn).
  destruct (digits2_pos_bounds m) as [Dlo Dhi].
  pose proof (pow2_pos e) as Hp.
  exists e. split.
  - split; [lia|]. split.
    + replace (e + 53)%Z with (53 + e)%Z by lia. rewrite pow2_add.
      apply Qmult_lt_compat_r; [exact Hp|]. rewrite pow2_Z by lia. rewrite <- Zlt_Qlt.
      assert (2 ^ Z.pos (digits2_pos m) <= 2 ^ 53)%Z by (apply Z.pow_le_mono_r; lia). lia.
    + destruct Hn as [Hn|Hn]; [now left | right].
      replace (e + 52)%Z with (52 + e)%Z by lia. rewrite pow2_add.
      apply Qmult_le_compat_r; [|lra]. rewrite pow2_Z by lia. rewrite <- Zle_Qle.
      rewrite Hn in Dlo. exact Dlo.
  - assert (R : rneZ (inject_Z (Z.pos m) * pow2 e / pow2 e) = Z.pos m).
    { rewrite <- (rneZ_Z (Z.pos m)) at 2. apply rneZ_comp. field. lra. }
    now rewrite R.
Qed.

End Rounds.

Section Operations.
Local Open Scope Z_scope.

Lemma new_location_located (m2 q r : Z) :
  (0 < m2)%Z -> (0 <= r < m2)%Z ->
  located (inject_Z q + inject_Z r / inject_Z m2) q (new_location m2 r).
Proof.
  intros Hm Hr.
  assert (Hm' : (0 < inject_Z m2)%Q) by (change 0%Q with (inject_Z 0); now rewrite <- Zlt_Qlt).
  assert (Fr : forall c : Q, (inject_Z r / inject_Z m2 < c)%Q <-> (inject_Z r < c * inject_Z m2)%Q).
  { intros c. split; intros H.
    - assert (E : (inject_Z r == inject_Z r / inject_Z m2 * inject_Z m2)%Q) by (field; lra).
      rewrite E. now apply Qmult_lt_compat_r.
    - now apply Qlt_shift_div_r. }
  assert (Gr : forall c : Q, (c < inject_Z r / inject_Z m2)%Q <-> (c * inject_Z m2 < inject_Z r)%Q).
  { intros c. split; intros H.
    - assert (E : (inject_Z r == inject_Z r / inject_Z m2 * inject_Z m2)%Q) by (field; lra).
      rewrite E. now apply Qmult_lt_compat_r.
    - now apply Qlt_shift_div_l. }
  assert (Two : (inject_Z (2 * r) == 2 * inject_Z r)%Q).
  { rewrite inject_Z_mult. reflexivity. }
  assert (Lo : (r <> 0)%Z -> (0 < inject_Z r / inject_Z m2)%Q).
  { intros Hne. apply Gr. rewrite Qmult_0_l. change 0%Q with (inject_Z 0).
    rewrite <- Zlt_Qlt. lia. }
  assert (Hi : (inject_Z r / inject_Z m2 < 1)%Q).
  { apply Fr. rewrite Qmult_1_l. rewrite <- Zlt_Qlt. lia. }
  assert (Lt2 : (2 * r < m2)%Z -> (inject_Z r / inject_Z m2 < 1 # 2)%Q).
  { intros H. apply Fr.
    assert (H' : (inject_Z (2 * r) < inject_Z m2)%Q) by (rewrite <- Zlt_Qlt; exact H).
    rewrite Two in H'. lra. }
  assert (Gt2 : (m2 < 2 * r)%Z -> (1 # 2 < inject_Z r / inject_Z m2)%Q).
  { intros H. apply Gr.
    assert (H' : (inject_Z m2 < inject_Z (2 * r))%Q) by (rewrite <- Zlt_Qlt; exact H).
    rewrite Two in H'. lra. }
  assert (Eq2 : (2 * r = m2)%Z -> (inject_Z r / inject_Z m2 == 1 # 2)%Q).
  { intros H.
    assert (E : (inject_Z m2 == 2 * inject_Z r)%Q) by (rewrite <- H; exact Two).
    assert (Hr0 : (0 < inject_Z r)%Q) by lra.
    rewrite E. field. lra. }
  unfold new_location. destruct (Z.even m2) eqn:Hev.
  - unfold new_location_even. destruct (Z.eqb_spec r 0) as [->|Hne].
    + simpl. change (inject_Z 0) with 0%Q. unfold Qdiv. ring.
    + specialize (Lo Hne). destruct (Z.compare_spec (2 * r) m2) as [H|H|H]; simpl.
      * rewrite (Eq2 H). reflexivity.
      * specialize (Lt2 H). lra.
      * specialize (Gt2 H). lra.
  - unfold new_location_odd. destruct (Z.eqb_spec r 0) as [->|Hne].
    + simpl. change (inject_Z 0) with 0%Q. unfold Qdiv. ring.
    + specialize (Lo Hne).
      assert (Hodd : (m2 <> 2 * r)%Z).
      { intros ->. rewrite Z.even_mul in Hev. discriminate. }
      destruct (Z.compare_spec (2 * r + 1) m2) as [H|H|H]; simpl.
      * assert (H' : (2 * r < m2)%Z) by lia. specialize (Lt2 H'). lra.
      * assert (H' : (2 * r < m2)%Z) by lia. specialize (Lt2 H'). lra.
      * assert (H' : (m2 < 2 * r)%Z) by lia. specialize (Gt2 H'). lra.
Qed.

Lemma pow_lt_inv (a b : Z) : (0 <= a)%Z -> (0 <= b)%Z -> (2 ^ a < 2 ^ b)%Z -> (a < b)%Z.
Proof.
  intros Ha Hb H. destruct (Z_lt_ge_dec a b) as [|Hge]; [assumption|].
  assert (2 ^ b <= 2 ^ a)%Z by (apply Z.pow_le_mono_r; lia). lia.
Qed.

Lemma SFdiv_core_located (m1 m2 : positive) (e1 e2 : Z) :
  let '(q, e', l) := SFdiv_core_binary 53 1024 (Z.pos m1) e1 (Z.pos m2) e2 in
  (0 <= q)%Z /\
  located ((inject_Z (Z.pos m1) * pow2 e1) / (inject_Z (Z.pos m2) * pow2 e2) / pow2 e') q l /\
  (e' <= fexp 53 1024 (Zdigits2 q + e'))%Z.
Proof.
  unfold SFdiv_core_binary.
  set (d1 := Zdigits2 (Z.pos m1)). set (d2 := Zdigits2 (Z.pos m2)).
  set (e' := Z.min (fexp 53 1024 (d1 + e1 - (d2 + e2))) (e1 - e2)).
  set (s := (e1 - e2 - e')%Z).
  assert (Hs : (0 <= s)%Z) by (unfold s, e'; lia).
  set (m' := match s with Z.pos _ => Z.shiftl (Z.pos m1) s | 0%Z => Z.pos m1 | Z.neg _ => 0%Z end).
  assert (Hm' : m' = (Z.pos m1 * 2 ^ s)%Z).
  { unfold m'. destruct s as [|p|p]; [lia | now rewrite Z.shiftl_mul_pow2 | lia]. }
  clearbody m'.
  pose proof (Z_div_mod m' (Z.pos m2) ltac:(lia)) as Hdiv.
  destruct (Z.div_eucl m' (Z.pos m2)) as [q r]. destruct Hdiv as [Hdiv Hr].
  assert (Hpow : (0 < 2 ^ s)%Z) by (apply Z.pow_pos_nonneg; lia).
  assert (Hq : (0 <= q)%Z) by nia.
  split; [exact Hq|]. split.
  - eapply located_comp; [|apply (new_location_located (Z.pos m2) q r); lia].
    pose proof (pow2_pos e1). pose proof (pow2_pos e2). pose proof (pow2_pos e').
    assert (P : (pow2 e1 == inject_Z (2 ^ s) * pow2 e2 * pow2 e')%Q).
    { rewrite <- pow2_Z by lia. rewrite <- !pow2_add. unfold s.
      now replace (e1 - e2 - e' + e2 + e')%Z with e1 by lia. }
    assert (Hm2 : (0 < inject_Z (Z.pos m2))%Q) by reflexivity.
    assert (D : (inject_Z m' == inject_Z (Z.pos m2) * inject_Z q + inject_Z r)%Q).
    { rewrite Hdiv, inject_Z_plus, inject_Z_mult. reflexivity. }
    rewrite Hm', inject_Z_mult in D.
    rewrite P. 
    assert (G : (inject_Z (Z.pos m1) * (inject_Z (2 ^ s) * pow2 e2 * pow2 e')
                 / (inject_Z (Z.pos m2) * pow2 e2) / pow2 e'
                 == (inject_Z (Z.pos m1) * inject_Z (2 ^ s)) / inject_Z (Z.pos m2))%Q).
    { field. repeat split; lra. }
    rewrite G, D. field. lra.
  - rewrite fexp64_eq. unfold e' at 1.
    assert (Hf : fexp 53 1024 (d1 + e1 - (d2 + e2)) = Z.max (d1 + e1 - (d2 + e2) - 53) (-1074))
      by reflexivity.
    destruct (Zdigits2_bounds (Z.pos m1) ltac:(lia)) as [A1 A2].
    destruct (Zdigits2_bounds (Z.pos m2) ltac:(lia)) as [B1 B2].
    pose proof (Zdigits2_pos (Z.pos m1) ltac:(lia)) as Pd1.
    pose proof (Zdigits2_pos (Z.pos m2) ltac:(lia)) as Pd2.
    fold d1 in A1, A2, Pd1. fold d2 in B1, B2, Pd2.
    assert (Hlow : (2 ^ (d1 - 1 + s) <= m')%Z).
    { rewrite Hm', Z.pow_add_r by lia. nia. }
    assert (Hup : (m' < 2 ^ d2 * (q + 1))%Z) by nia.
    destruct (Z.eq_dec q 0) as [->|Hq0].
    + cbn [Zdigits2].
      assert (d1 - 1 + s < d2)%Z by (apply pow_lt_inv; lia).
      fold e'. unfold s in *. lia.
    + assert (Hd : (d1 - d2 + s <= Zdigits2 q)%Z).
      { pose proof (Zdigits2_pos q ltac:(lia)).
        destruct (Z_lt_ge_dec (d1 - d2 + s - 1) 0) as [|Hk]; [lia|].
        assert (2 ^ (d1 - d2 + s - 1) <= q)%Z.
        { assert (E : (2 ^ (d1 - 1 + s) = 2 ^ (d1 - d2 + s - 1) * 2 ^ d2)%Z).
          { rewrite <- Z.pow_add_r by lia. f_equal. lia. }
          assert (0 < 2 ^ d2)%Z by (apply Z.pow_pos_nonneg; lia).
          nia. }
        pose proof (Zdigits2_ge q (d1 - d2 + s - 1) ltac:(lia) ltac:(assumption) ltac:(lia)). lia. }
      fold e'. unfold s in *. lia.
Qed.

(** Division of two positive binary64 numbers is the rounding of the exact
    quotient. *)
Lemma SFdiv_rounded (m1 m2 : positive) (e1 e2 : Z) :
  rounded ((inject_Z (Z.pos m1) * pow2 e1) / (inject_Z (Z.pos m2) * pow2 e2))
    (SFdiv 53 1024 (S754_finite false m1 e1) (S754_finite false m2 e2)).
Proof.
  unfold SFdiv. pose proof (SFdiv_core_located m1 m2 e1 e2) as H.
  destruct (SFdiv_core_binary 53 1024 (Z.pos m1) e1 (Z.pos m2) e2) as [[q e'] l].
  destruct H as (Hq & Hloc & He). cbn [xorb].
  now apply binary_round_aux_rounded.
Qed.

Lemma iter_xO (d : positive) (m : positive) :
  Z.pos (Pos.iter xO m d) = (Z.pos m * 2 ^ Z.pos d)%Z.
Proof.
  induction d as [|d IH] using Pos.peano_ind.
  - cbn [Pos.iter]. lia.
  - rewrite Pos.iter_succ, Pos2Z.inj_xO, IH, Pos2Z.inj_succ, Z.pow_succ_r by lia. lia.
Qed.

Lemma shl_align_spec (m : positive) (e e0 : Z) :
  snd (shl_align m e e0) = Z.min e e0 /\
  Z.pos (fst (shl_align m e e0)) = (Z.pos m * 2 ^ (e - Z.min e e0))%Z.
Proof.
  unfold shl_align. destruct (e0 - e)%Z as [|d|d] eqn:Hd; cbn [fst snd].
  - split; [lia|]. replace (e - Z.min e e0)%Z with 0%Z by lia. lia.
  - split; [lia|]. replace (e - Z.min e e0)%Z with 0%Z by lia. lia.
  - split; [lia|]. rewrite iter_xO. f_equal. f_equal. lia.
Qed.

Lemma Zdigits2_shift (m k : Z) :
  (0 < m)%Z -> (0 <= k)%Z -> Zdigits2 (m * 2 ^ k) = (Zdigits2 m + k)%Z.
Proof.
  intros Hm Hk. destruct (Zdigits2_bounds m Hm) as [A1 A2].
  pose proof (Zdigits2_pos m Hm) as Pd.
  assert (Hp : (0 < 2 ^ k)%Z) by (apply Z.pow_pos_nonneg; lia).
  assert (Hmk : (0 < m * 2 ^ k)%Z) by nia.
  apply Z.le_antisymm.
  - apply Zdigits2_le; [exact Hmk| |lia]. rewrite Z.pow_add_r by lia. nia.
  - pose proof (Zdigits2_ge (m * 2 ^ k) (Zdigits2 m - 1 + k) Hmk) as G.
    rewrite Z.pow_add_r in G by lia.
    assert ((2 ^ (Zdigits2 m - 1) * 2 ^ k <= m * 2 ^ k)%Z) by nia.
    specialize (G ltac:(assumption) ltac:(lia)). lia.
Qed.

Lemma binary_round_rounded (m : positive) (e : Z) :
  rounded (inject_Z (Z.pos m) * pow2 e) (binary_round 53 1024 false m e).
Proof.
  unfold binary_round.
  destruct (shl_align_spec m e (fexp 53 1024 (Z.pos (digits2_pos m) + e))) as [S1 S2].
  destruct (shl_align m e (fexp 53 1024 (Z.pos (digits2_pos m) + e))) as [mz ez].
  cbn [fst snd] in S1, S2.
  assert (Hval : (inject_Z (Z.pos m) * pow2 e == inject_Z (Z.pos mz) * pow2 ez)%Q).
  { rewrite S2, inject_Z_mult, <- pow2_Z by lia. rewrite <- Qmult_assoc, <- pow2_add.
    now replace (e - Z.min e (fexp 53 1024 (Z.pos (digits2_pos m) + e)) + ez)%Z with e by lia. }
  destruct (binary_round_aux_rounded (inject_Z (Z.pos mz) * pow2 ez) (Z.pos mz) ez loc_Exact)
    as (f & Hr & Hres).
  - lia.
  - simpl. pose proof (pow2_pos ez). field. lra.
  - rewrite S2, Zdigits2_shift by lia. cbn [Zdigits2].
    replace (Z.pos (digits2_pos m) + (e - Z.min e (fexp 53 1024 (Z.pos (digits2_pos m) + e))) + ez)%Z
      with (Z.pos (digits2_pos m) + e)%Z by lia.
    lia.
  - exists f. split; [|exact Hres].
    eapply rounds_comp; [symmetry; exact Hval | reflexivity | exact Hr].
Qed.

(** Addition of two positive binary64 numbers is the rounding of the exact
    sum. *)
Lemma SFadd_rounded (m1 m2 : positive) (e1 e2 : Z) :
  rounded (inject_Z (Z.pos m1) * pow2 e1 + inject_Z (Z.pos m2) * pow2 e2)
    (SFadd 53 1024 (S754_finite false m1 e1) (S754_finite false m2 e2)).
Proof.
  unfold SFadd. cbn [cond_Zopp].
  destruct (shl_align_spec m1 e1 (Z.min e1 e2)) as [A1 A2].
  destruct (shl_align_spec m2 e2 (Z.min e1 e2)) as [B1 B2].
  set (ez := Z.min e1 e2) in *.
  replace (Z.min e1 ez) with ez in A2 by lia.
  replace (Z.min e2 ez) with ez in B2 by lia.
  change (Z.pos (fst (shl_align m1 e1 ez)) + Z.pos (fst (shl_align m2 e2 ez)))%Z
    with (Z.pos (fst (shl_align m1 e1 ez) + fst (shl_align m2 e2 ez))).
  cbn [binary_normalize].
  destruct (binary_round_rounded (fst (shl_align m1 e1 ez) + fst (shl_align m2 e2 ez)) ez)
    as (f & Hr & Hres).
  exists f. split; [|exact Hres].
  eapply rounds_comp; [|reflexivity|exact Hr].
  rewrite Pos2Z.inj_add, inject_Z_plus, A2, B2, !inject_Z_mult, <- !pow2_Z by lia.
  assert (P1 : (pow2 e1 == pow2 (e1 - ez) * pow2 ez)%Q).
  { rewrite <- pow2_add. now replace (e1 - ez + ez)%Z with e1 by lia. }
  assert (P2 : (pow2 e2 == pow2 (e2 - ez) * pow2 ez)%Q).
  { rewrite <- pow2_add. now replace (e2 - ez + ez)%Z with e2 by lia. }
  rewrite P1, P2. ring.
Qed.

End Operations.

Section Doubles.
Local Open Scope Z_scope.

Lemma is_infinity_Prim2SF (x : float) (s : bool) :
  Prim2SF x = S754_infinity s -> is_infinity x = true.
Proof.
  unfold Prim2SF. destruct (is_nan x); [discriminate|].
  destruct (is_zero x); [discriminate|].
  destruct (is_infinity x); [reflexivity|].
  destruct (FloatOps.Z.frexp x) as [r ex].
  destruct (shr_fexp prec emax _ _ _) as [sh e'].
  destruct (shr_m sh); discriminate.
Qed.

Lemma isFinite_Prim2SF (x : float) :
  float_isFinite x = true ->
  (exists s, Prim2SF x = S754_zero s) \/ (exists s m e, Prim2SF x = S754_finite s m e).
Proof.
  unfold float_isFinite. intros H. apply andb_true_iff in H as [Hn Hi].
  apply negb_true_iff in Hn, Hi.
  destruct (Prim2SF x) as [s|s| |s m e] eqn:E.
  - left. now exists s.
  - apply is_infinity_Prim2SF in E. congruence.
  - apply is_nan_Prim2SF in E. congruence.
  - right. now exists s, m, e.
Qed.

Lemma Prim2SF_isFinite (x : float) (s : bool) (m : positive) (e : Z) :
  Prim2SF x = S754_finite s m e \/ Prim2SF x = S754_zero s -> float_isFinite x = true.
Proof.
  intros H. unfold float_isFinite.
  assert (Hn : is_nan x = false).
  { destruct (is_nan x) eqn:E; [|reflexivity]. apply is_nan_Prim2SF in E.
    destruct H as [H|H]; congruence. }
  assert (Hi : is_infinity x = false).
  { destruct (is_infinity x) eqn:E; [|reflexivity]. exfalso.
    unfold Prim2SF in H. rewrite Hn, E in H.
    destruct (is_zero x) eqn:Ez.
    - destruct H as [H|H]; [discriminate|].
      unfold is_zero in Ez. unfold is_infinity in E.
      rewrite FloatAxioms.eqb_spec in Ez, E.
      rewrite FloatAxioms.abs_spec in E.
      change (Prim2SF PrimFloat.zero) with (S754_zero false) in Ez.
      change (Prim2SF infinity) with (S754_infinity false) in E.
      destruct (Prim2SF x) as [s'|s'| |s' m' e']; try discriminate;
        destruct s'; discriminate.
    - destruct H as [H|H]; discriminate. }
  now rewrite Hn, Hi.
Qed.

Lemma positive_finite_inv (x : float) :
  float_isFinite x = true -> (0 <? x)%float = true -> pos_finite x.
Proof.
  intros Hf Hp. rewrite FloatAxioms.ltb_spec in Hp.
  change (Prim2SF 0) with (S754_zero false) in Hp.
  destruct (isFinite_Prim2SF x Hf) as [[s E]|(s & m & e & E)]; rewrite E in Hp.
  - discriminate.
  - destruct s; [discriminate|]. now exists m, e.
Qed.

Lemma pos_finite_bounded (x : float) (m : positive) (e : Z) :
  Prim2SF x = S754_finite false m e -> bounded 53 1024 m e = true.
Proof.
  intros E. pose proof (FloatAxioms.Prim2SF_valid x) as V. rewrite E in V. exact V.
Qed.

Lemma fval_finite (x : float) (m : positive) (e : Z) :
  Prim2SF x = S754_finite false m e -> fval x = (inject_Z (Z.pos m) * pow2 e)%Q.
Proof. intros E. unfold fval. now rewrite E. Qed.

Lemma fval_zero (x : float) (s : bool) : Prim2SF x = S754_zero s -> fval x = 0%Q.
Proof. intros E. unfold fval. now rewrite E. Qed.

Lemma float_value_fval (x : float) :
  fin_nonneg x -> float_value x = Some (fval x).
Proof.
  unfold float_value, fval. intros [E|(m & e & E)]; rewrite E; reflexivity.
Qed.

Lemma pos_finite_pos (x : float) : pos_finite x -> (0 < fval x)%Q.
Proof.
  intros (m & e & E). rewrite (fval_finite x m e E).
  apply Qmult_lt_0_compat; [reflexivity | apply pow2_pos].
Qed.

Lemma fin_nonneg_nonneg (x : float) : fin_nonneg x -> (0 <= fval x)%Q.
Proof.
  intros [E|Hp]; [rewrite (fval_zero x _ E); apply Qle_refl|].
  apply Qlt_le_weak. now apply pos_finite_pos.
Qed.

Lemma pos_finite_lt_max (x : float) : pos_finite x -> (fval x < pow2 1024)%Q.
Proof.
  intros (m & e & E). rewrite (fval_finite x m e E).
  destruct (bounded_inv m e (pos_finite_bounded x m e E)) as (He & Hd & _).
  destruct (digits2_pos_bounds m) as [_ Dhi].
  pose proof (pow2_pos e).
  apply Qlt_le_trans with (pow2 53 * pow2 e)%Q.
  - apply Qmult_lt_compat_r; [assumption|]. rewrite pow2_Z by lia. rewrite <- Zlt_Qlt.
    assert (2 ^ Z.pos (digits2_pos m) <= 2 ^ 53)%Z by (apply Z.pow_le_mono_r; lia). lia.
  - rewrite <- pow2_add. apply pow2_le. lia.
Qed.

Lemma fin_nonneg_rounds (x : float) : fin_nonneg x -> rounds (fval x) (fval x).
Proof.
  intros [E|(m & e & E)].
  - rewrite (fval_zero x _ E). apply rounds_zero.
  - rewrite (fval_finite x m e E). apply rounds_float. now apply (pos_finite_bounded x).
Qed.

Lemma fin_nonneg_grid (x : float) :
  fin_nonneg x -> exists k, (fval x == inject_Z k * pow2 (-1074))%Q.
Proof.
  intros [E|(m & e & E)].
  - exists 0%Z. rewrite (fval_zero x _ E). change (inject_Z 0) with 0%Q. ring.
  - destruct (bounded_inv m e (pos_finite_bounded x m e E)) as (He & _).
    exists (Z.pos m * 2 ^ (e + 1074))%Z. rewrite (fval_finite x m e E).
    rewrite inject_Z_mult, <- pow2_Z by lia. rewrite <- Qmult_assoc, <- pow2_add.
    now replace (e + 1074 + -1074)%Z with e by lia.
Qed.

Lemma rounds_pow2_1023 : rounds (pow2 1023) (pow2 1023).
Proof.
  assert (E : (pow2 1023 == inject_Z (Z.pos 4503599627370496) * pow2 971)%Q).
  { change 1023 with (52 + 971). rewrite pow2_add, (pow2_Z 52) by lia. reflexivity. }
  eapply rounds_comp; [symmetry; exact E | symmetry; exact E |].
  apply rounds_float. reflexivity.
Qed.

(** What [rounded] says of the double that holds the result: it is finite
    and the rounding of [x], or it is the infinity and [x] is above 2^1023. *)
Lemma rounded_inv (x : Q) (r : float) :
  (0 <= x)%Q -> rounded x (Prim2SF r) ->
  (fin_nonneg r /\ rounds x (fval r)) \/ (pos_infinite r /\ (pow2 1023 < x)%Q).
Proof.
  intros Hx (f & Hr & Hres). unfold fval, fin_nonneg, pos_finite, pos_infinite.
  destruct (Prim2SF r) as [[]|[]| |[] m e]; try contradiction.
  - left. split; [now left|]. eapply rounds_comp; [reflexivity|exact Hres|exact Hr].
  - right. split; [reflexivity|].
    destruct (Qlt_le_dec (pow2 1023) x) as [|Hle]; [assumption|]. exfalso.
    pose proof (rounds_mono x (pow2 1023) f (pow2 1023) Hx Hle Hr rounds_pow2_1023).
    assert (pow2 1023 < pow2 1024)%Q by (apply pow2_lt; lia). lra.
  - left. split; [right; now exists m, e|].
    eapply rounds_comp; [reflexivity|exact Hres|exact Hr].
Qed.

Lemma div_pos_finite (a b : float) :
  pos_finite a -> pos_finite b -> rounded (fval a / fval b) (Prim2SF (a / b)).
Proof.
  intros (ma & ea & Ea) (mb & eb & Eb).
  rewrite FloatAxioms.div_spec, Ea, Eb, (fval_finite a ma ea Ea), (fval_finite b mb eb Eb).
  apply SFdiv_rounded.
Qed.

Lemma add_pos_finite (a b : float) :
  pos_finite a -> pos_finite b -> rounded (fval a + fval b) (Prim2SF (a + b)).
Proof.
  intros (ma & ea & Ea) (mb & eb & Eb).
  rewrite FloatAxioms.add_spec, Ea, Eb, (fval_finite a ma ea Ea), (fval_finite b mb eb Eb).
  apply SFadd_rounded.
Qed.

Lemma add_rounded (a b : float) :
  fin_nonneg a -> fin_nonneg b -> rounded (fval a + fval b) (Prim2SF (a + b)).
Proof.
  intros Ha Hb.
  destruct Ha as [Ea|Pa]; destruct Hb as [Eb|Pb].
  - exists 0%Q. rewrite (fval_zero a _ Ea), (fval_zero b _ Eb).
    split; [eapply rounds_comp; [| |apply rounds_zero]; [ring|reflexivity]|].
    rewrite FloatAxioms.add_spec, Ea, Eb. reflexivity.
  - destruct Pb as (mb & eb & Eb). exists (fval b). rewrite (fval_zero a _ Ea). split.
    + eapply rounds_comp; [| |apply (fin_nonneg_rounds b)]; [ring|reflexivity|].
      right. now exists mb, eb.
    + rewrite FloatAxioms.add_spec, Ea, Eb. cbn. now rewrite (fval_finite b mb eb Eb).
  - destruct Pa as (ma & ea & Ea). exists (fval a). rewrite (fval_zero b _ Eb). split.
    + eapply rounds_comp; [| |apply (fin_nonneg_rounds a)]; [ring|reflexivity|].
      right. now exists ma, ea.
    + rewrite FloatAxioms.add_spec, Ea, Eb. cbn. now rewrite (fval_finite a ma ea Ea).
  - now apply add_pos_finite.
Qed.

(** The sum of two doubles that are +0 or positive finite: the infinity
    when the exact sum is above 2^1023, or the rounding of the exact sum,
    which is within the relative error 2^-53 of it. *)
Lemma add_fin_nonneg (a b : float) :
  fin_nonneg a -> fin_nonneg b ->
  (pos_infinite (a + b) /\ (pow2 1023 < fval a + fval b)%Q) \/
  (fin_nonneg (a + b) /\ rounds (fval a + fval b) (fval (a + b)) /\
   (fval (a + b) - (fval a + fval b) <= (fval a + fval b) * pow2 (-53))%Q /\
   ((fval a + fval b) - fval (a + b) <= (fval a + fval b) * pow2 (-53))%Q).
Proof.
  intros Ha Hb.
  pose proof (fin_nonneg_nonneg a Ha) as Na. pose proof (fin_nonneg_nonneg b Hb) as Nb.
  assert (Hsum : (0 <= fval a + fval b)%Q) by lra.
  destruct (rounded_inv _ _ Hsum (add_rounded a b Ha Hb)) as [[Hf Hr]|Hi]; [right | now left].
  split; [exact Hf|]. split; [exact Hr|].
  destruct (fin_nonneg_grid a Ha) as [ka Ka].
  destruct (fin_nonneg_grid b Hb) as [kb Kb].
  apply (rounds_err_grid _ _ (ka + kb)%Z Hsum); [|exact Hr].
  rewrite inject_Z_plus, Ka, Kb. ring.
Qed.

(** The quotient of two positive finite doubles. *)
Lemma div_fin_nonneg (a b : float) :
  pos_finite a -> pos_finite b ->
  (pos_infinite (a / b) /\ (pow2 1023 < fval a / fval b)%Q) \/
  (fin_nonneg (a / b) /\ rounds (fval a / fval b) (fval (a / b))).
Proof.
  intros Ha Hb.
  pose proof (pos_finite_pos a Ha) as Pa. pose proof (pos_finite_pos b Hb) as Pb.
  assert (Hq : (0 <= fval a / fval b)%Q).
  { apply Qle_shift_div_l; [exact Pb | lra]. }
  destruct (rounded_inv _ _ Hq (div_pos_finite a b Ha Hb)) as [H|H]; [now right | now left].
Qed.

Lemma add_infinite_l (a b : float) :
  pos_infinite a -> fin_nonneg b \/ pos_infinite b -> pos_infinite (a + b).
Proof.
  unfold pos_infinite. intros Ea Hb. rewrite FloatAxioms.add_spec, Ea.
  destruct Hb as [[Eb|(m & e & Eb)]|Eb]; rewrite Eb; reflexivity.
Qed.

Lemma add_infinite_r (a b : float) :
  fin_nonneg a -> pos_infinite b -> pos_infinite (a + b).
Proof.
  unfold pos_infinite. intros Ha Eb. rewrite FloatAxioms.add_spec, Eb.
  destruct Ha as [Ea|(m & e & Ea)]; rewrite Ea; reflexivity.
Qed.

Lemma pos_infinite_not_finite (x : float) : pos_infinite x -> float_isFinite x = false.
Proof.
  intros E. unfold float_isFinite. rewrite (is_infinity_Prim2SF x false E).
  apply andb_false_r.
Qed.

Lemma fin_nonneg_not_infinite (x : float) : fin_nonneg x -> pos_infinite x -> False.
Proof. unfold pos_infinite. intros [E|(m & e & E)] E'; congruence. Qed.

End Doubles.

Section Comparisons.
Local Open Scope Z_scope.

Lemma canonical_lt_exp (m1 m2 : positive) (e1 e2 : Z) :
  bounded 53 1024 m1 e1 = true -> bounded 53 1024 m2 e2 = true -> e1 < e2 ->
  (inject_Z (Z.pos m1) * pow2 e1 < inject_Z (Z.pos m2) * pow2 e2)%Q.
Proof.
  intros B1 B2 Hlt.
  destruct (bounded_inv m1 e1 B1) as (He1 & Hd1 & _).
  destruct (bounded_inv m2 e2 B2) as (He2 & _ & Hn2).
  destruct (digits2_pos_bounds m1) as [_ D1]. destruct (digits2_pos_bounds m2) as [D2 _].
  destruct Hn2 as [Hn2|Hn2]; [lia|]. rewrite Hn2 in D2.
  pose proof (pow2_pos e1). pose proof (pow2_pos e2).
  apply Qlt_le_trans with (pow2 53 * pow2 e1)%Q.
  - apply Qmult_lt_compat_r; [assumption|]. rewrite pow2_Z by lia. rewrite <- Zlt_Qlt.
    assert (2 ^ Z.pos (digits2_pos m1) <= 2 ^ 53) by (apply Z.pow_le_mono_r; lia). lia.
  - apply Qle_trans with (pow2 52 * pow2 e2)%Q.
    + rewrite <- !pow2_add. apply pow2_le. lia.
    + apply Qmult_le_compat_r; [|lra]. rewrite pow2_Z by lia. now rewrite <- Zle_Qle.
Qed.

Lemma SFcompare_finite (m1 m2 : positive) (e1 e2 : Z) :
  bounded 53 1024 m1 e1 = true -> bounded 53 1024 m2 e2 = true ->
  SFcompare (S754_finite false m1 e1) (S754_finite false m2 e2)
  = Some (Qcompare (inject_Z (Z.pos m1) * pow2 e1) (inject_Z (Z.pos m2) * pow2 e2)).
Proof.
  intros B1 B2. cbn [SFcompare]. f_equal. symmetry.
  destruct (Z.compare_spec e1 e2) as [->|Hlt|Hgt].
  - pose proof (pow2_pos e2) as Hp.
    change (Pos.compare_cont Eq m1 m2) with (Pos.compare m1 m2).
    destruct (Pos.compare_spec m1 m2) as [->|Hm|Hm].
    + apply Qeq_alt. reflexivity.
    + apply Qlt_alt. apply Qmult_lt_compat_r; [exact Hp|]. rewrite <- Zlt_Qlt. lia.
    + apply Qgt_alt. apply Qmult_lt_compat_r; [exact Hp|]. rewrite <- Zlt_Qlt. lia.
  - apply Qlt_alt. now apply canonical_lt_exp.
  - apply Qgt_alt. now apply canonical_lt_exp.
Qed.

Lemma ltb_lt (a b : float) :
  pos_finite a -> pos_finite b -> (a <? b)%float = true -> (fval a < fval b)%Q.
Proof.
  intros (ma & ea & Ea) (mb & eb & Eb). rewrite FloatAxioms.ltb_spec, Ea, Eb.
  unfold SFltb. rewrite SFcompare_finite by (eapply pos_finite_bounded; eauto).
  rewrite (fval_finite a ma ea Ea), (fval_finite b mb eb Eb).
  destruct (Qcompare _ _) eqn:C; try discriminate. intros _. now apply Qlt_alt.
Qed.

Lemma le_leb (a b : float) :
  fin_nonneg a -> fin_nonneg b -> (fval a <= fval b)%Q -> (a <=? b)%float = true.
Proof.
  intros Ha Hb Hle. rewrite FloatAxioms.leb_spec. unfold SFleb.
  destruct Ha as [Ea|(ma & ea & Ea)]; destruct Hb as [Eb|(mb & eb & Eb)].
  - rewrite Ea, Eb. reflexivity.
  - rewrite Ea, Eb. reflexivity.
  - exfalso. pose proof (pos_finite_pos a ltac:(now exists ma, ea)).
    rewrite (fval_zero b _ Eb) in Hle. lra.
  - rewrite Ea, Eb, SFcompare_finite by (eapply pos_finite_bounded; eauto).
    rewrite (fval_finite a ma ea Ea), (fval_finite b mb eb Eb) in Hle.
    destruct (Qcompare _ _) eqn:C; try reflexivity.
    apply Qgt_alt in C. lra.
Qed.

End Comparisons.

Section Sums.
Local Open Scope Z_scope.

Lemma fsum_infinite (rs : list float) (acc : float) :
  pos_infinite acc -> Forall (fun r => fin_nonneg r \/ pos_infinite r) rs ->
  pos_infinite (fsum rs acc).
Proof.
  intros Hacc Hrs. revert acc Hacc. induction Hrs as [|r rs Hr _ IH]; intros acc Hacc.
  - exact Hacc.
  - cbn [fsum fold_left]. apply IH. now apply add_infinite_l.
Qed.

(** A left-to-right sum of doubles that are +0, positive finite or the
    positive infinity is one of these; when it is not the infinity, no
    term is, and the sum is at least the start and at least every term. *)
Lemma fsum_mono (rs : list float) :
  forall acc : float,
    Forall (fun r => fin_nonneg r \/ pos_infinite r) rs -> fin_nonneg acc ->
    pos_infinite (fsum rs acc) \/
    (Forall fin_nonneg rs /\ fin_nonneg (fsum rs acc) /\
     (fval acc <= fval (fsum rs acc))%Q /\
     Forall (fun r => (fval r <= fval (fsum rs acc))%Q) rs).
Proof.
  induction rs as [|r rs IH]; intros acc Hrs Hacc.
  - right. split; [constructor|]. split; [exact Hacc|]. split; [apply Qle_refl | constructor].
  - inversion Hrs as [|? ? Hr Hrs']; subst.
    change (fsum (r :: rs) acc) with (fsum rs (acc + r)%float) in *.
    destruct Hr as [Hr|Hr].
    2:{ left. apply fsum_infinite; [|exact Hrs']. now apply add_infinite_r. }
    destruct (add_fin_nonneg acc r Hacc Hr) as [[Hi _]|(Hf & Hround & _)].
    { left. now apply fsum_infinite. }
    destruct (IH (acc + r)%float Hrs' Hf) as [Hi|(Hall & Hres & Hge & Heach)]; [now left|].
    right.
    pose proof (fin_nonneg_nonneg acc Hacc) as Na. pose proof (fin_nonneg_nonneg r Hr) as Nr.
    assert (G1 : (fval acc <= fval (acc + r))%Q).
    { apply (rounds_mono (fval acc) (fval acc + fval r)); try assumption; try lra.
      now apply fin_nonneg_rounds. }
    assert (G2 : (fval r <= fval (acc + r))%Q).
    { apply (rounds_mono (fval r) (fval acc + fval r)); try assumption; try lra.
      now apply fin_nonneg_rounds. }
    split; [now constructor|]. split; [exact Hres|]. split; [lra|].
    constructor; [lra | exact Heach].
Qed.

Lemma sum_step_lower (A r v f a u : Q) :
  (0 <= A)%Q -> (0 <= r)%Q -> (0 <= u)%Q -> (0 <= a)%Q -> ((a + 1) * u <= 1)%Q ->
  (A * (1 - a * u) <= v)%Q -> ((v + r) - f <= (v + r) * u)%Q ->
  ((A + r) * (1 - (a + 1) * u) <= f)%Q.
Proof.
  intros HA Hr Hu Ha Hau Hv Hf.
  assert (P0 : (0 <= a * u)%Q) by (apply Qmult_le_0_compat; lra).
  assert (P1 : (0 <= r * (a * u))%Q) by (repeat apply Qmult_le_0_compat; lra).
  assert (P2 : (0 <= (A + r) * (a * u * u))%Q) by (repeat apply Qmult_le_0_compat; lra).
  assert (P3 : (0 <= ((v + r) - (A + r) * (1 - a * u)) * (1 - u))%Q).
  { apply Qmult_le_0_compat; lra. }
  lra.
Qed.

Lemma sum_step_upper (A r v f a u : Q) :
  (0 <= v)%Q -> (0 <= r)%Q -> (0 <= u)%Q -> (0 <= a)%Q -> ((a + 1) * u <= 1)%Q ->
  (v * (1 - a * u) <= A)%Q -> (f - (v + r) <= (v + r) * u)%Q ->
  (f * (1 - (a + 1) * u) <= A + r)%Q.
Proof.
  intros Hv Hr Hu Ha Hau HA Hf.
  assert (Q0 : (0 <= a * u)%Q) by (apply Qmult_le_0_compat; lra).
  assert (Q1 : (0 <= ((v + r) * (1 + u) - f) * (1 - (a + 1) * u))%Q).
  { apply Qmult_le_0_compat; lra. }
  assert (Q2 : (0 <= (v + r) * ((a + 1) * u * u))%Q) by (repeat apply Qmult_le_0_compat; lra).
  assert (Q3 : (0 <= r * (a * u))%Q) by (repeat apply Qmult_le_0_compat; lra).
  lra.
Qed.

(** The error of a left-to-right sum of [k] doubles that are +0 or positive
    finite: within the relative error [k * 2^-53] of the exact sum, either
    way.  The sum does not overflow when the exact sum is at most 2^1022. *)
Lemma fsum_bounds (rs : list float) :
  forall (acc : float) (A a : Q),
    Forall fin_nonneg rs -> fin_nonneg acc ->
    (0 <= A)%Q -> (0 <= a)%Q ->
    ((a + inject_Z (Z.of_nat (length rs))) * pow2 (-53) <= 1 # 2)%Q ->
    (A * (1 - a * pow2 (-53)) <= fval acc)%Q ->
    (fval acc * (1 - a * pow2 (-53)) <= A)%Q ->
    ~ pos_infinite (fsum rs acc) \/ (A + Qsum (map fval rs) <= pow2 1022)%Q ->
    fin_nonneg (fsum rs acc) /\
    ((A + Qsum (map fval rs)) * (1 - (a + inject_Z (Z.of_nat (length rs))) * pow2 (-53))
     <= fval (fsum rs acc))%Q /\
    (fval (fsum rs acc) * (1 - (a + inject_Z (Z.of_nat (length rs))) * pow2 (-53))
     <= A + Qsum (map fval rs))%Q.
Proof.
  assert (Hu : (0 < pow2 (-53))%Q) by apply pow2_pos.
  set (u := pow2 (-53)) in *.
  induction rs as [|r rs IH]; intros acc A a Hrs Hacc HA Ha Hcount Hlo Hhi Hfin.
  - cbn [fsum fold_left length map Qsum fold_right Z.of_nat].
    change (inject_Z 0) with 0%Q. split; [exact Hacc|].
    assert (E : (a + 0 == a)%Q) by ring.
    assert (E' : (A + 0 == A)%Q) by ring.
    rewrite E, E'. split; assumption.
  - inversion Hrs as [|? ? Hr Hrs']; subst.
    change (fsum (r :: rs) acc) with (fsum rs (acc + r)%float) in *.
    assert (Hlen : (inject_Z (Z.of_nat (length (r :: rs)))
                    == 1 + inject_Z (Z.of_nat (length rs)))%Q).
    { cbn [length]. rewrite Nat2Z.inj_succ. unfold Z.succ. rewrite inject_Z_plus.
      change (inject_Z 1) with 1%Q. ring. }
    assert (Hn : (0 <= inject_Z (Z.of_nat (length rs)))%Q).
    { change 0%Q with (inject_Z 0). rewrite <- Zle_Qle. lia. }
    assert (Hsum : (Qsum (map fval (r :: rs)) == fval r + Qsum (map fval rs))%Q) by reflexivity.
    assert (Hsn : (0 <= Qsum (map fval rs))%Q).
    { clear -Hrs'. induction Hrs' as [|x l Hx _ IHl]; [apply Qle_refl|].
      cbn [map Qsum fold_right]. fold (Qsum (map fval l)).
      pose proof (fin_nonneg_nonneg x Hx). lra. }
    pose proof (fin_nonneg_nonneg acc Hacc) as Na. pose proof (fin_nonneg_nonneg r Hr) as Nr.
    rewrite Hlen in Hcount. rewrite Hlen, Hsum.
    assert (Hnu : (0 <= inject_Z (Z.of_nat (length rs)) * u)%Q).
    { apply Qmult_le_0_compat; lra. }
    assert (Hau : (0 <= a * u)%Q) by (apply Qmult_le_0_compat; lra).
    assert (Hc1 : ((a + 1) * u <= 1)%Q) by lra.
    destruct (add_fin_nonneg acc r Hacc Hr) as [[Hi Hbig]|(Hf & Hround & E1 & E2)].
    { exfalso. destruct Hfin as [Hfin|Hfin].
      - apply Hfin. apply fsum_infinite; [exact Hi|].
        eapply List.Forall_impl; [|exact Hrs']. intros x Hx. now left.
      - rewrite Hsum in Hfin.
        assert (P : (pow2 1023 == 2 * pow2 1022)%Q).
        { change 1023 with (1022 + 1). now rewrite pow2_succ. }
        assert (Hacc2 : ((1 # 2) * fval acc <= (1 - a * u) * fval acc)%Q).
        { apply Qmult_le_compat_r; lra. }
        lra. }
    fold u in E1, E2.
    pose proof (sum_step_lower A (fval r) (fval acc) (fval (acc + r)) a u
                  HA Nr ltac:(lra) Ha Hc1 Hlo E2) as L.
    pose proof (sum_step_upper A (fval r) (fval acc) (fval (acc + r)) a u
                  Na Nr ltac:(lra) Ha Hc1 Hhi E1) as U.
    destruct (IH (acc + r)%float (A + fval r)%Q (a + 1)%Q Hrs' Hf ltac:(lra) ltac:(lra))
      as (R1 & R2 & R3).
    + lra.
    + exact L.
    + exact U.
    + destruct Hfin as [Hfin|Hfin]; [now left | right]. rewrite Hsum in Hfin. lra.
    + split; [exact R1|].
      assert (Ea : (a + (1 + inject_Z (Z.of_nat (length rs)))
                    == a + 1 + inject_Z (Z.of_nat (length rs)))%Q) by ring.
      assert (Es : (A + (fval r + Qsum (map fval rs))
                    == A + fval r + Qsum (map fval rs))%Q) by ring.
      rewrite Ea, Es. split; assumption.
Qed.

End Sums.

(** ** C1: the normalizer *)

Section NormalizerBinary64.
Local Open Scope Z_scope.

Lemma pos_finite_one : pos_finite 1%float.
Proof. exists 4503599627370496%positive, (-52). reflexivity. Qed.

Lemma fval_one : (fval 1 == 1)%Q.
Proof. reflexivity. Qed.

Lemma fin_nonneg_zero : fin_nonneg 0%float.
Proof. left. reflexivity. Qed.

Lemma fval_float_zero : fval 0 = 0%Q.
Proof. reflexivity. Qed.

Lemma positive_finite_pos_finite (x : float) : positive_finite x = true -> pos_finite x.
Proof.
  unfold positive_finite. intros H. apply andb_true_iff in H as [Hf Hp].
  now apply positive_finite_inv.
Qed.

Lemma rounds_pow2_m1024 : rounds (pow2 (-1024)) (pow2 (-1024)).
Proof.
  assert (E : (pow2 (-1024) == inject_Z (Z.pos 1125899906842624) * pow2 (-1074))%Q).
  { change (-1024) with (50 + -1074). rewrite pow2_add, (pow2_Z 50) by lia. reflexivity. }
  eapply rounds_comp; [symmetry; exact E | symmetry; exact E |].
  apply rounds_float. reflexivity.
Qed.

(** The reciprocal of a positive finite double is positive: finite, or the
    infinity. *)
Lemma reciprocal_class (x : float) :
  pos_finite x ->
  (pos_finite (1 / x) /\ rounds (1 / fval x) (fval (1 / x))) \/ pos_infinite (1 / x).
Proof.
  intros Hx. pose proof (pos_finite_pos x Hx) as Px. pose proof (pos_finite_lt_max x Hx) as Mx.
  destruct (div_fin_nonneg 1 x pos_finite_one Hx) as [[Hi _]|[Hf Hr]]; [now right | left].
  assert (Hr' : rounds (1 / fval x) (fval (1 / x))).
  { eapply rounds_comp; [|reflexivity|exact Hr]. now rewrite fval_one. }
  split; [|exact Hr'].
  destruct Hf as [Ez|Hp]; [exfalso | exact Hp].
  assert (Hlow : (pow2 (-1024) <= 1 / fval x)%Q).
  { apply Qle_shift_div_l; [exact Px|].
    assert (E : (pow2 (-1024) * pow2 1024 == 1)%Q) by (rewrite <- pow2_add; reflexivity).
    pose proof (pow2_pos (-1024)).
    assert (pow2 (-1024) * fval x <= pow2 (-1024) * pow2 1024)%Q.
    { rewrite !(Qmult_comm (pow2 (-1024))). apply Qmult_le_compat_r; [lra|].
      apply Qlt_le_weak, pow2_pos. }
    lra. }
  assert (H0 : (0 <= pow2 (-1024))%Q) by apply Qlt_le_weak, pow2_pos.
  pose proof (rounds_mono _ _ _ _ H0 Hlow rounds_pow2_m1024 Hr') as Hge.
  rewrite (fval_zero _ _ Ez) in Hge. pose proof (pow2_pos (-1024)). lra.
Qed.

Lemma reciprocals_class (o : list float) :
  Forall pos_finite o ->
  Forall (fun r => fin_nonneg r \/ pos_infinite r) (map (fun x => (1 / x)%float) o).
Proof.
  intros Ho. induction Ho as [|x o Hx _ IH]; cbn [map]; constructor; [|exact IH].
  destruct (reciprocal_class x Hx) as [[Hp _]|Hi]; [left; now right | now right].
Qed.

(** When the sum of the reciprocals is not the infinity, every reciprocal is
    positive finite and at most the sum, which is positive finite. *)
Lemma reciprocal_sum_finite (o : list float) :
  o <> [] -> Forall pos_finite o ->
  ~ pos_infinite (fsum (map (fun x => (1 / x)%float) o) 0) ->
  Forall (fun x => pos_finite (1 / x) /\ rounds (1 / fval x) (fval (1 / x)) /\
                   (fval (1 / x) <= fval (fsum (map (fun x => (1 / x)%float) o) 0))%Q) o /\
  pos_finite (fsum (map (fun x => (1 / x)%float) o) 0).
Proof.
  intros Hne Ho Hfin. set (rs := map (fun x => (1 / x)%float) o) in *.
  destruct (fsum_mono rs 0%float (reciprocals_class o Ho) fin_nonneg_zero)
    as [Hi|(Hall & Hs & _ & Heach)]; [contradiction|].
  assert (Hfirst : Forall (fun x => pos_finite (1 / x) /\ rounds (1 / fval x) (fval (1 / x)) /\
                     (fval (1 / x) <= fval (fsum rs 0))%Q) o).
  { apply List.Forall_forall. intros x Hx.
    assert (Hin : In (1 / x)%float rs) by (apply in_map_iff; now exists x).
    pose proof (proj1 (List.Forall_forall _ _) Ho x Hx) as Px.
    pose proof (proj1 (List.Forall_forall _ _) Hall _ Hin) as Fx.
    pose proof (proj1 (List.Forall_forall _ _) Heach _ Hin) as Lx.
    destruct (reciprocal_class x Px) as [[Hp Hr]|Hi]; [now repeat split|].
    exfalso. now apply (fin_nonneg_not_infinite (1 / x)). }
  split; [exact Hfirst|].
  destruct o as [|x o]; [congruence|]. inversion Hfirst as [|? ? (Hp & _ & Hle) _]; subst.
  destruct Hs as [Ez|Hp']; [exfalso | exact Hp'].
  pose proof (pos_finite_pos _ Hp). rewrite (fval_zero _ _ Ez) in Hle. lra.
Qed.

(** A quotient of positive finite doubles that is at most 1 exactly. *)
Lemma quotient_le_one (r s : float) :
  pos_finite r -> pos_finite s -> (fval r <= fval s)%Q ->
  fin_nonneg (r / s) /\ rounds (fval r / fval s) (fval (r / s)) /\
  (0 <= fval (r / s) <= 1)%Q.
Proof.
  intros Hr Hs Hle. pose proof (pos_finite_pos r Hr) as Pr. pose proof (pos_finite_pos s Hs) as Ps.
  assert (Hq0 : (0 <= fval r / fval s)%Q) by (apply Qle_shift_div_l; lra).
  assert (Hq1 : (fval r / fval s <= 1)%Q) by (apply Qle_shift_div_r; lra).
  destruct (div_fin_nonneg r s Hr Hs) as [[_ Hbig]|[Hf Hround]].
  - exfalso. assert (pow2 0 < pow2 1023)%Q by (apply pow2_lt; lia).
    change (pow2 0) with 1%Q in *. lra.
  - split; [exact Hf|]. split; [exact Hround|]. split.
    + now apply fin_nonneg_nonneg.
    + assert (R1 : rounds 1 1).
      { eapply rounds_comp; [exact fval_one | exact fval_one |].
        apply fin_nonneg_rounds. right. exact pos_finite_one. }
      exact (rounds_mono _ _ _ _ Hq0 Hq1 Hround R1).
Qed.

Lemma Qsum_cons (x : Q) (l : list Q) : Qsum (x :: l) = (x + Qsum l)%Q.
Proof. reflexivity. Qed.

(** The exact sum of the quotients of [rs] by [s], each rounded once. *)
Lemma quotients_sum (rs : list float) (s : float) :
  pos_finite s ->
  Forall (fun r => pos_finite r /\ (fval r <= fval s)%Q) rs ->
  let ps := map (fun r => (r / s)%float) rs in
  let n := inject_Z (Z.of_nat (length rs)) in
  Forall (fun p => fin_nonneg p /\ (0 <= fval p <= 1)%Q) ps /\
  (Qsum (map fval ps)
   <= Qsum (map fval rs) / fval s * (1 + pow2 (-53)) + n * pow2 (-1075))%Q /\
  (Qsum (map fval rs) / fval s * (1 - pow2 (-53)) - n * pow2 (-1075)
   <= Qsum (map fval ps))%Q.
Proof.
  intros Hs Hrs. pose proof (pos_finite_pos s Hs) as Ps.
  induction Hrs as [|r rs [Hr Hle] _ IH]; cbn zeta.
  - cbn [map length Qsum fold_right Z.of_nat]. split; [constructor|].
    change (inject_Z 0) with 0%Q. unfold Qdiv. split; ring_simplify; apply Qle_refl.
  - cbn zeta in IH. destruct IH as (IH1 & IH2 & IH3).
    destruct (quotient_le_one r s Hr Hs Hle) as (Hf & Hround & H01).
    pose proof (pos_finite_pos r Hr) as Pr.
    assert (Hq0 : (0 <= fval r / fval s)%Q) by (apply Qle_shift_div_l; lra).
    destruct (rounds_err _ _ Hq0 Hround) as [E1 E2].
    cbn [map length]. rewrite !Qsum_cons.
    assert (Hlen : (inject_Z (Z.of_nat (S (length rs)))
                    == 1 + inject_Z (Z.of_nat (length rs)))%Q).
    { rewrite Nat2Z.inj_succ. unfold Z.succ. rewrite inject_Z_plus.
      change (inject_Z 1) with 1%Q. ring. }
    assert (Hdiv : ((fval r + Qsum (map fval rs)) / fval s
                    == fval r / fval s + Qsum (map fval rs) / fval s)%Q).
    { field. lra. }
    rewrite Hlen, Hdiv.
    split; [constructor; [now split | exact IH1]|].
    set (u := pow2 (-53)) in *. set (eta := pow2 (-1075)) in *.
    set (q := (fval r / fval s)%Q) in *.
    set (Q' := (Qsum (map fval rs) / fval s)%Q) in *.
    set (n' := inject_Z (Z.of_nat (length rs))) in *.
    split; lra.
Qed.

End NormalizerBinary64.

Section NormalizerClaim.
Local Open Scope Z_scope.

Lemma ratio_bounds (S s c : Q) :
  (0 < s)%Q -> (S * (1 - c) <= s)%Q -> (s * (1 - c) <= S)%Q ->
  (S / s * (1 - c) <= 1)%Q /\ (1 - c <= S / s)%Q.
Proof.
  intros Hs H1 H2. split.
  - apply (Qmult_le_r _ _ s Hs).
    assert (E : (S / s * (1 - c) * s == S * (1 - c))%Q) by (field; lra).
    rewrite E. lra.
  - apply Qle_shift_div_l; [exact Hs|]. lra.
Qed.

(** From the error of the sum and of the quotients to the distance from 1. *)
Lemma near_one (P R c u e : Q) :
  (0 <= c <= 12 # 100000000000)%Q -> (0 <= u <= 2 # 10000000000000000)%Q ->
  (0 <= e <= 1 # 10000000000000000)%Q ->
  (R * (1 - c) <= 1)%Q -> (1 - c <= R)%Q ->
  (P <= R * (1 + u) + e)%Q -> (R * (1 - u) - e <= P)%Q ->
  (1 - (2 # 10000000000) <= P <= 1 + (2 # 10000000000))%Q.
Proof.
  intros Hc Hu He H1 H2 H3 H4.
  assert (HR : (0 <= R)%Q) by lra.
  assert (K1 : (0 <= ((12 # 100000000000) - c) * R)%Q) by (apply Qmult_le_0_compat; lra).
  assert (K2 : (0 <= ((2 # 10000000000000000) - u) * R)%Q) by (apply Qmult_le_0_compat; lra).
  assert (K3 : (0 <= u * R)%Q) by (apply Qmult_le_0_compat; lra).
  assert (K4 : (0 <= c * R)%Q) by (apply Qmult_le_0_compat; lra).
  split; lra.
Qed.

Lemma near_one_sum (P t c : Q) :
  (0 <= c <= 12 # 100000000000)%Q ->
  (1 - (2 # 10000000000) <= P <= 1 + (2 # 10000000000))%Q ->
  (0 <= t)%Q -> (P * (1 - c) <= t)%Q -> (t * (1 - c) <= P)%Q ->
  (1 - (1 # 1000000000) <= t <= 1 + (1 # 1000000000))%Q.
Proof.
  intros Hc HP Ht H1 H2.
  assert (K1 : (0 <= ((12 # 100000000000) - c) * t)%Q) by (apply Qmult_le_0_compat; lra).
  assert (K2 : (0 <= ((12 # 100000000000) - c) * P)%Q) by (apply Qmult_le_0_compat; lra).
  assert (K3 : (0 <= c * t)%Q) by (apply Qmult_le_0_compat; lra).
  assert (K4 : (0 <= c * P)%Q) by (apply Qmult_le_0_compat; lra).
  split; lra.
Qed.

Lemma count_bounds (n : nat) :
  Z.of_nat n <= 1000000 ->
  (0 <= inject_Z (Z.of_nat n) * pow2 (-53) <= 12 # 100000000000)%Q /\
  (0 <= inject_Z (Z.of_nat n) * pow2 (-1075) <= 1 # 10000000000000000)%Q.
Proof.
  intros Hn.
  assert (H0 : (0 <= inject_Z (Z.of_nat n))%Q).
  { change 0%Q with (inject_Z 0). rewrite <- Zle_Qle. lia. }
  assert (H1 : (inject_Z (Z.of_nat n) <= 1000000)%Q).
  { change 1000000%Q with (inject_Z 1000000). now rewrite <- Zle_Qle. }
  pose proof (pow2_pos (-53)) as Pu. pose proof (pow2_pos (-1075)) as Pe.
  assert (U : (1000000 * pow2 (-53) <= 12 # 100000000000)%Q) by (vm_compute; discriminate).
  assert (E : (1000000 * pow2 (-1075) <= 1 # 10000000000000000)%Q) by (vm_compute; discriminate).
  assert (A : (inject_Z (Z.of_nat n) * pow2 (-53) <= 1000000 * pow2 (-53))%Q).
  { apply Qmult_le_compat_r; lra. }
  assert (B : (inject_Z (Z.of_nat n) * pow2 (-1075) <= 1000000 * pow2 (-1075))%Q).
  { apply Qmult_le_compat_r; lra. }
  split; (split; [apply Qmult_le_0_compat; lra | lra]).
Qed.

Lemma Qsum_nonneg (l : list Q) : Forall (fun x => (0 <= x)%Q) l -> (0 <= Qsum l)%Q.
Proof.
  intros H. induction H as [|x l Hx _ IH]; [apply Qle_refl|].
  rewrite Qsum_cons. lra.
Qed.

Lemma normalize_as_quotients (o : list float) :
  normalizeDecimalOddsToProbs o
  = map (fun r => (r / fsum (map (fun x => (1 / x)%float) o) 0)%float)
        (map (fun x => (1 / x)%float) o).
Proof. reflexivity. Qed.

Lemma normalize_nth (o : list float) (i : nat) (oi pi : float) :
  nth_error o i = Some oi -> nth_error (normalizeDecimalOddsToProbs o) i = Some pi ->
  pi = ((1 / oi) / fsum (map (fun x => (1 / x)%float) o) 0)%float.
Proof.
  intros Hi. rewrite normalize_as_quotients, !nth_error_map, Hi. now intros [= <-].
Qed.

(** The normalizer in binary64, when the sum of the reciprocals does not
    overflow: every probability is a finite double between 0 and 1, and
    lower odds do not give a lower probability. *)
Lemma normalize_finite (o : list float) :
  o <> [] -> Forall pos_finite o ->
  ~ pos_infinite (fsum (map (fun x => (1 / x)%float) o) 0) ->
  let rs := map (fun x => (1 / x)%float) o in
  let s := fsum rs 0 in
  pos_finite s /\
  Forall (fun r => pos_finite r /\ (fval r <= fval s)%Q) rs /\
  Forall (fun p => fin_nonneg p /\ (0 <= fval p <= 1)%Q) (normalizeDecimalOddsToProbs o) /\
  (forall i j oi oj pi pj,
     nth_error o i = Some oi -> nth_error o j = Some oj ->
     nth_error (normalizeDecimalOddsToProbs o) i = Some pi ->
     nth_error (normalizeDecimalOddsToProbs o) j = Some pj ->
     (oi <? oj)%float = true -> (pj <=? pi)%float = true).
Proof.
  intros Hne Ho Hfin rs s.
  destruct (reciprocal_sum_finite o Hne Ho Hfin) as [Hall Hs]. fold rs in Hall, Hs. fold s in Hall, Hs.
  assert (Hrs : Forall (fun r => pos_finite r /\ (fval r <= fval s)%Q) rs).
  { apply List.Forall_forall. intros r Hr. apply in_map_iff in Hr as (x & <- & Hx).
    destruct (proj1 (List.Forall_forall _ _) Hall x Hx) as (H1 & _ & H2). now split. }
  destruct (quotients_sum rs s Hs Hrs) as (Hps & _).
  split; [exact Hs|]. split; [exact Hrs|]. split; [exact Hps|].
  intros i j oi oj pi pj Hi Hj Hpi Hpj Hlt.
  rewrite (normalize_nth o i oi pi Hi Hpi), (normalize_nth o j oj pj Hj Hpj). fold rs. fold s.
  pose proof (proj1 (List.Forall_forall _ _) Ho oi (nth_error_In _ _ Hi)) as Poi.
  pose proof (proj1 (List.Forall_forall _ _) Ho oj (nth_error_In _ _ Hj)) as Poj.
  destruct (proj1 (List.Forall_forall _ _) Hall oi (nth_error_In _ _ Hi)) as (Pri & Rri & Lri).
  destruct (proj1 (List.Forall_forall _ _) Hall oj (nth_error_In _ _ Hj)) as (Prj & Rrj & Lrj).
  pose proof (ltb_lt oi oj Poi Poj Hlt) as Hv.
  pose proof (pos_finite_pos oi Poi) as Vi. pose proof (pos_finite_pos oj Poj) as Vj.
  pose proof (pos_finite_pos s Hs) as Vs.
  assert (Hrec : (1 / fval oj <= 1 / fval oi)%Q).
  { apply Qle_shift_div_l; [exact Vi|].
    assert (E : (1 / fval oj * fval oi == fval oi / fval oj)%Q) by (field; lra).
    rewrite E. apply Qle_shift_div_r; lra. }
  assert (Hr0 : (0 <= 1 / fval oj)%Q) by (apply Qle_shift_div_l; lra).
  pose proof (rounds_mono _ _ _ _ Hr0 Hrec Rrj Rri) as Hrle.
  destruct (quotient_le_one (1 / oi) s Pri Hs Lri) as (Fi & Qi & _).
  destruct (quotient_le_one (1 / oj) s Prj Hs Lrj) as (Fj & Qj & _).
  pose proof (pos_finite_pos _ Prj) as Vrj.
  assert (Hq0 : (0 <= fval (1 / oj) / fval s)%Q) by (apply Qle_shift_div_l; lra).
  assert (Hq : (fval (1 / oj) / fval s <= fval (1 / oi) / fval s)%Q).
  { apply Qmult_le_compat_r; [exact Hrle|]. apply Qlt_le_weak, Qinv_lt_0_compat, Vs. }
  apply le_leb; [exact Fj | exact Fi |].
  exact (rounds_mono _ _ _ _ Hq0 Hq Qj Qi).
Qed.

(** The sums of the probabilities, exact and in binary64, for at most a
    million odds. *)
Lemma normalize_sums (o : list float) :
  o <> [] -> Forall pos_finite o ->
  ~ pos_infinite (fsum (map (fun x => (1 / x)%float) o) 0) ->
  Z.of_nat (length o) <= 1000000 ->
  let p := normalizeDecimalOddsToProbs o in
  (1 - (2 # 10000000000) <= Qsum (map fval p) <= 1 + (2 # 10000000000))%Q /\
  fin_nonneg (fsum p 0) /\
  (1 - (1 # 1000000000) <= fval (fsum p 0) <= 1 + (1 # 1000000000))%Q.
Proof.
  intros Hne Ho Hfin Hlen p.
  destruct (normalize_finite o Hne Ho Hfin) as (Hs & Hrs & Hps & _).
  set (rs := map (fun x => (1 / x)%float) o) in *. set (s := fsum rs 0) in *.
  assert (Hn : length rs = length o) by apply length_map.
  assert (Hnp : length p = length o) by (unfold p; rewrite normalize_as_quotients, !length_map; reflexivity).
  destruct (count_bounds (length o) Hlen) as [Hc He].
  pose proof (pos_finite_pos s Hs) as Vs.
  assert (Hfr : Forall fin_nonneg rs).
  { eapply List.Forall_impl; [|exact Hrs]. intros r [Hr _]. now right. }
  destruct (fsum_bounds rs 0%float 0%Q 0%Q Hfr fin_nonneg_zero) as (_ & B1 & B2).
  { apply Qle_refl. }
  { apply Qle_refl. }
  { rewrite Hn. lra. }
  { rewrite fval_float_zero. lra. }
  { rewrite fval_float_zero. lra. }
  { now left. }
  fold s in B1, B2. rewrite Hn in B1, B2.
  assert (B1' : (Qsum (map fval rs) * (1 - inject_Z (Z.of_nat (length o)) * pow2 (-53))
                 <= fval s)%Q) by lra.
  assert (B2' : (fval s * (1 - inject_Z (Z.of_nat (length o)) * pow2 (-53))
                 <= Qsum (map fval rs))%Q) by lra.
  clear B1 B2.
  set (c := (inject_Z (Z.of_nat (length o)) * pow2 (-53))%Q) in *.
  set (Sr := Qsum (map fval rs)) in *.
  destruct (ratio_bounds Sr (fval s) c Vs B1' B2') as [R1 R2].
  destruct (quotients_sum rs s Hs Hrs) as (_ & Q1 & Q2). cbn zeta in Q1, Q2.
  rewrite Hn in Q1, Q2.
  change (map (fun r => (r / s)%float) rs) with p in Q1, Q2.
  set (e := (inject_Z (Z.of_nat (length o)) * pow2 (-1075))%Q) in *.
  assert (Hu : (0 <= pow2 (-53) <= 2 # 10000000000000000)%Q).
  { split; [apply Qlt_le_weak, pow2_pos | vm_compute; discriminate]. }
  pose proof (near_one (Qsum (map fval p)) (Sr / fval s) c (pow2 (-53)) e Hc Hu He R1 R2 Q1 Q2)
    as HP.
  split; [exact HP|].
  assert (Hfp : Forall fin_nonneg p).
  { eapply List.Forall_impl; [|exact Hps]. now intros x [Hx _]. }
  destruct (fsum_bounds p 0%float 0%Q 0%Q Hfp fin_nonneg_zero) as (F & C1 & C2).
  { apply Qle_refl. }
  { apply Qle_refl. }
  { rewrite Hnp. unfold c in Hc. lra. }
  { rewrite fval_float_zero. lra. }
  { rewrite fval_float_zero. lra. }
  { right. assert (pow2 1 <= pow2 1022)%Q by (apply pow2_le; lia).
    change (pow2 1) with 2%Q in *. lra. }
  rewrite Hnp in C1, C2.
  split; [exact F|].
  apply (near_one_sum (Qsum (map fval p)) (fval (fsum p 0)) c Hc HP).
  - now apply fin_nonneg_nonneg.
  - unfold c. lra.
  - unfold c. lra.
Qed.

End NormalizerClaim.

Section NormalizerAccuracy.
Local Open Scope Z_scope.

(** The exact reciprocals [1 / x] of the odds. *)
Lemma reciprocal_err (x : float) :
  pos_finite x -> pos_finite (1 / x) -> rounds (1 / fval x) (fval (1 / x)) ->
  (0 < 1 / fval x)%Q /\
  ((1 / fval x) * (1 - (1 # 1000000000000000)) <= fval (1 / x))%Q /\
  (fval (1 / x) <= (1 / fval x) * (1 + (1 # 1000000000000000)))%Q.
Proof.
  intros Hx Hr Hround.
  pose proof (pos_finite_pos x Hx) as Px. pose proof (pos_finite_lt_max x Hx) as Mx.
  set (A := (1 / fval x)%Q) in *.
  assert (HA : (0 < A)%Q) by (apply Qlt_shift_div_l; lra).
  assert (Hlow : (pow2 (-1024) <= A)%Q).
  { apply Qle_shift_div_l; [exact Px|].
    assert (E : (pow2 (-1024) * pow2 1024 == 1)%Q) by (rewrite <- pow2_add; reflexivity).
    assert (pow2 (-1024) * fval x <= pow2 (-1024) * pow2 1024)%Q.
    { rewrite !(Qmult_comm (pow2 (-1024))). apply Qmult_le_compat_r; [lra|].
      apply Qlt_le_weak, pow2_pos. }
    lra. }
  destruct (rounds_err A _ ltac:(lra) Hround) as [E1 E2].
  assert (Heta : (pow2 (-1075) == pow2 (-1024) * pow2 (-51))%Q).
  { rewrite <- pow2_add. reflexivity. }
  assert (H51 : (0 <= pow2 (-51))%Q) by apply Qlt_le_weak, pow2_pos.
  assert (Hmul : (pow2 (-1024) * pow2 (-51) <= A * pow2 (-51))%Q).
  { apply Qmult_le_compat_r; assumption. }
  assert (C : (pow2 (-53) + pow2 (-51) <= 1 # 1000000000000000)%Q) by (vm_compute; discriminate).
  assert (K : (0 <= ((1 # 1000000000000000) - (pow2 (-53) + pow2 (-51))) * A)%Q).
  { apply Qmult_le_0_compat; lra. }
  split; [exact HA|]. split; lra.
Qed.

Lemma reciprocals_sum_err (o : list float) :
  Forall (fun x => pos_finite x /\ pos_finite (1 / x) /\ rounds (1 / fval x) (fval (1 / x))) o ->
  let T := Qsum (map (fun x => (1 / fval x)%Q) o) in
  let Sr := Qsum (map fval (map (fun x => (1 / x)%float) o)) in
  (0 <= T)%Q /\
  (T * (1 - (1 # 1000000000000000)) <= Sr)%Q /\ (Sr <= T * (1 + (1 # 1000000000000000)))%Q.
Proof.
  intros Ho. induction Ho as [|x o (Hx & Hr & Hround) _ IH]; cbn zeta.
  - cbn [map Qsum fold_right]. lra.
  - cbn zeta in IH. destruct IH as (IH0 & IH1 & IH2).
    destruct (reciprocal_err x Hx Hr Hround) as (A0 & A1 & A2).
    cbn [map]. rewrite !Qsum_cons. lra.
Qed.

(** Each probability against the exact quotient [(1/x) / T]. *)
Lemma quotient_accuracy (A T a Sr s c v : Q) :
  (0 < A)%Q -> (A <= T)%Q -> (0 < s)%Q ->
  (A * (1 - (1 # 1000000000000000)) <= a)%Q -> (a <= A * (1 + (1 # 1000000000000000)))%Q ->
  (T * (1 - (1 # 1000000000000000)) <= Sr)%Q -> (Sr <= T * (1 + (1 # 1000000000000000)))%Q ->
  (0 <= c <= 12 # 100000000000)%Q ->
  (Sr * (1 - c) <= s)%Q -> (s * (1 - c) <= Sr)%Q ->
  (v - a / s <= a / s * pow2 (-53) + pow2 (-1075))%Q ->
  (a / s - v <= a / s * pow2 (-53) + pow2 (-1075))%Q ->
  (v - A / T <= A / T * (2 # 10000000000) + pow2 (-1075))%Q /\
  (A / T - v <= A / T * (2 # 10000000000) + pow2 (-1075))%Q.
Proof.
  intros HA HAT Hs A1 A2 S1 S2 Hc B1 B2 V1 V2.
  assert (HT : (0 < T)%Q) by lra.
  set (q := (A / T)%Q). set (y := (a / s)%Q) in *.
  assert (Hq : (0 < q)%Q) by (apply Qlt_shift_div_l; lra).
  assert (EqT : (q * T == A)%Q) by (unfold q; field; lra).
  assert (Eys : (y * s == a)%Q) by (unfold y; field; lra).
  assert (Hy : (0 <= y)%Q) by (apply Qle_shift_div_l; lra).
  assert (HSr : (0 <= Sr)%Q) by lra.
  (* s against T *)
  assert (K1 : (0 <= ((12 # 100000000000) - c) * Sr)%Q) by (apply Qmult_le_0_compat; lra).
  assert (K2 : (0 <= ((12 # 100000000000) - c) * s)%Q) by (apply Qmult_le_0_compat; lra).
  assert (sLo : (T * (1 - (13 # 100000000000)) <= s)%Q) by lra.
  assert (sHi : (s * (1 - (13 # 100000000000)) <= T)%Q) by lra.
  (* y against q *)
  assert (M1 : (0 <= (s - T * (1 - (13 # 100000000000))) * q)%Q) by (apply Qmult_le_0_compat; lra).
  assert (M2 : (0 <= (T - s * (1 - (13 # 100000000000))) * q)%Q) by (apply Qmult_le_0_compat; lra).
  assert (yHi : (y * s <= q * s * (1 + (15 # 100000000000)))%Q) by lra.
  assert (yLo : (q * s * (1 - (15 # 100000000000)) <= y * s)%Q) by lra.
  assert (yHi' : (y <= q * (1 + (15 # 100000000000)))%Q).
  { apply (Qmult_le_r _ _ s Hs). lra. }
  assert (yLo' : (q * (1 - (15 # 100000000000)) <= y)%Q).
  { apply (Qmult_le_r _ _ s Hs). lra. }
  assert (Hu : (0 <= pow2 (-53) <= 2 # 10000000000000000)%Q).
  { split; [apply Qlt_le_weak, pow2_pos | vm_compute; discriminate]. }
  assert (N1 : (0 <= ((2 # 10000000000000000) - pow2 (-53)) * y)%Q) by (apply Qmult_le_0_compat; lra).
  assert (N2 : (0 <= pow2 (-53) * y)%Q) by (apply Qmult_le_0_compat; lra).
  split; lra.
Qed.

End NormalizerAccuracy.

Section NormalizerTheorem.
Local Open Scope Z_scope.

Lemma reciprocal_le_sum (o : list float) (x : float) :
  Forall pos_finite o -> In x o ->
  (1 / fval x <= Qsum (map (fun y => (1 / fval y)%Q) o))%Q.
Proof.
  intros Ho Hx. induction Ho as [|y o Hy Ho' IH]; [contradiction|].
  cbn [map]. rewrite Qsum_cons.
  assert (Hrest : (0 <= Qsum (map (fun y => (1 / fval y)%Q) o))%Q).
  { apply Qsum_nonneg. apply List.Forall_forall. intros q Hq.
    apply in_map_iff in Hq as (z & <- & Hz).
    pose proof (pos_finite_pos z (proj1 (List.Forall_forall _ _) Ho' z Hz)).
    apply Qle_shift_div_l; lra. }
  pose proof (pos_finite_pos y Hy).
  assert (0 <= 1 / fval y)%Q by (apply Qle_shift_div_l; lra).
  destruct Hx as [->|Hx]; [lra|]. specialize (IH Hx). lra.
Qed.

Lemma Qabs_le (x y : Q) : (- y <= x)%Q -> (x <= y)%Q -> (Qabs x <= y)%Q.
Proof. intros H1 H2. apply Qabs_Qle_condition. now split. Qed.

Lemma float_values (p : list float) :
  Forall fin_nonneg p -> map float_value p = map Some (map fval p).
Proof.
  intros Hp. rewrite map_map. apply map_ext_in. intros x Hx.
  apply float_value_fval. exact (proj1 (List.Forall_forall _ _) Hp x Hx).
Qed.

End NormalizerTheorem.

(** C1 (as amended).  In any arithmetic the i-th entry of
    [normalizeDecimalOddsToProbs o] is the quotient of the reciprocal of o_i
    by the left-to-right sum of the reciprocals.  In binary64, for at most
    a million odds, all finite and positive, whose reciprocals sum to a finite
    double: every entry is a finite double between 0 and 1, within the
    relative error 2e-10 (and 2^-1075, for a quotient that underflows) of
    the exact (1/o_i) / sum_j (1/o_j); the entries sum to 1 within 1e-9,
    added exactly and added in binary64 from left to right; and strictly
    lower odds give a probability that is higher or equal. *)
Theorem normalize_binary64 :
  (forall (num : Type) (N : JsNumber num) (o : list num) (i : nat) (oi : num),
     nth_error o i = Some oi ->
     nth_error (normalizeDecimalOddsToProbs o) i
     = Some (num_div (num_div num_one oi)
               (fold_left num_add (map (num_div num_one) o) num_zero))) /\
  (forall o : list float,
     o <> [] ->
     Forall (fun x => positive_finite x = true) o ->
     float_isFinite (fsum (map (fun x => (1 / x)%float) o) 0) = true ->
     (Z.of_nat (length o) <= 1000000)%Z ->
     let p := normalizeDecimalOddsToProbs o in
     length p = length o /\
     Forall (fun x => exists v, float_value x = Some v /\ (0 <= v <= 1)%Q) p /\
     (forall i oi pi,
        nth_error o i = Some oi -> nth_error p i = Some pi ->
        exists x v,
          float_value oi = Some x /\ float_value pi = Some v /\
          (Qabs (v - (1 / x) / Qsum (map (fun y => 1 / fval y) o))
           <= (1 / x) / Qsum (map (fun y => 1 / fval y) o) * (2 # 10000000000)
              + pow2 (-1075))%Q) /\
     (exists vs, map float_value p = map Some vs /\
                 (Qabs (Qsum vs - 1) <= 1 # 1000000000)%Q) /\
     (exists t, float_value (fsum p 0) = Some t /\ (Qabs (t - 1) <= 1 # 1000000000)%Q) /\
     (forall i j oi oj pi pj,
        nth_error o i = Some oi -> nth_error o j = Some oj ->
        nth_error p i = Some pi -> nth_error p j = Some pj ->
        (oi <? oj)%float = true -> (pj <=? pi)%float = true)).
Proof.
  split.
  { intros num N o i oi Hi. unfold normalizeDecimalOddsToProbs.
    rewrite nth_error_map, nth_error_map, Hi. reflexivity. }
  intros o Hne Hpos Hsum Hlen p.
  assert (Ho : Forall pos_finite o).
  { eapply List.Forall_impl; [|exact Hpos]. intros x. apply positive_finite_pos_finite. }
  assert (Hfin : ~ pos_infinite (fsum (map (fun x => (1 / x)%float) o) 0)).
  { intros Hi. apply pos_infinite_not_finite in Hi. congruence. }
  destruct (normalize_finite o Hne Ho Hfin) as (Hs & Hrs & Hps & Hord).
  destruct (normalize_sums o Hne Ho Hfin Hlen) as (HP & Ft & Ht).
  destruct (reciprocal_sum_finite o Hne Ho Hfin) as [Hall _].
  fold p in Hps, Hord, HP, Ft, Ht.
  assert (Hfp : Forall fin_nonneg p).
  { eapply List.Forall_impl; [|exact Hps]. now intros x [Hx _]. }
  split; [|split; [|split; [|split; [|split]]]].
  - unfold p. rewrite normalize_as_quotients, !length_map. reflexivity.
  - eapply List.Forall_impl; [|exact Hps]. intros x [Hx H01].
    exists (fval x). split; [now apply float_value_fval | exact H01].
  - intros i oi pi Hi Hpi.
    pose proof (proj1 (List.Forall_forall _ _) Ho oi (nth_error_In _ _ Hi)) as Poi.
    destruct (proj1 (List.Forall_forall _ _) Hall oi (nth_error_In _ _ Hi)) as (Pri & Rri & Lri).
    exists (fval oi), (fval pi). split; [apply float_value_fval; now right|].
    split.
    { apply float_value_fval. exact (proj1 (List.Forall_forall _ _) Hfp pi (nth_error_In _ _ Hpi)). }
    set (rs := map (fun x => (1 / x)%float) o) in *. set (s := fsum rs 0) in *.
    destruct (reciprocal_err oi Poi Pri Rri) as (A0 & A1 & A2).
    destruct (reciprocals_sum_err o) as (T0 & S1 & S2).
    { apply List.Forall_forall. intros x Hx.
      destruct (proj1 (List.Forall_forall _ _) Hall x Hx) as (H1 & H2 & _).
      split; [exact (proj1 (List.Forall_forall _ _) Ho x Hx) | now split]. }
    cbn zeta in S1, S2. fold rs in S1, S2.
    destruct (count_bounds (length o) Hlen) as [Hc _].
    assert (Hn : length rs = length o) by apply length_map.
    assert (Hfr : Forall fin_nonneg rs).
    { eapply List.Forall_impl; [|exact Hrs]. intros r [Hr _]. now right. }
    destruct (fsum_bounds rs 0%float 0%Q 0%Q Hfr fin_nonneg_zero) as (_ & B1 & B2).
    { apply Qle_refl. }
    { apply Qle_refl. }
    { rewrite Hn. lra. }
    { rewrite fval_float_zero. lra. }
    { rewrite fval_float_zero. lra. }
    { now left. }
    fold s in B1, B2. rewrite Hn in B1, B2.
    destruct (quotient_le_one (1 / oi) s Pri Hs Lri) as (_ & Qi & _).
    pose proof (pos_finite_pos _ Pri) as Vri. pose proof (pos_finite_pos s Hs) as Vs.
    assert (Hq0 : (0 <= fval (1 / oi) / fval s)%Q) by (apply Qle_shift_div_l; lra).
    destruct (rounds_err _ _ Hq0 Qi) as [E1 E2].
    rewrite (normalize_nth o i oi pi Hi Hpi). fold rs. fold s.
    pose proof (reciprocal_le_sum o oi Ho (nth_error_In _ _ Hi)) as HAT.
    destruct (quotient_accuracy (1 / fval oi) (Qsum (map (fun y => (1 / fval y)%Q) o))
                (fval (1 / oi)) (Qsum (map fval rs)) (fval s)
                (inject_Z (Z.of_nat (length o)) * pow2 (-53))
                (fval (1 / oi / s)) A0 HAT Vs A1 A2 S1 S2 Hc
                ltac:(lra) ltac:(lra) E1 E2) as [G1 G2].
    apply Qabs_le; lra.
  - exists (map fval p). split; [now apply float_values|].
    apply Qabs_le; lra.
  - exists (fval (fsum p 0)). split; [now apply float_value_fval|].
    apply Qabs_le; lra.
  - exact Hord.
Qed.

Lemma fsum_absorbed (n : nat) : fsum (repeat 0x1p-54%float n) 1 = 1%float.
Proof.
  induction n as [|n IH]; [reflexivity|].
  cbn [repeat]. change (fsum (0x1p-54%float :: repeat 0x1p-54%float n) 1)
    with (fsum (repeat 0x1p-54%float n) (1 + 0x1p-54)). exact IH.
Qed.

Lemma normalize_long_tail (n : nat) :
  normalizeDecimalOddsToProbs (1%float :: repeat 0x1p+54%float n)
  = 1%float :: repeat 0x1p-54%float n.
Proof.
  rewrite normalize_as_quotients. cbn [map].
  assert (R : map (fun x => (1 / x)%float) (repeat 0x1p+54%float n) = repeat 0x1p-54%float n).
  { induction n as [|n IH]; [reflexivity|]. cbn [repeat map]. now rewrite IH. }
  rewrite R.
  change (fsum ((1 / 1)%float :: repeat 0x1p-54%float n) 0)
    with (fsum (repeat 0x1p-54%float n) 1).
  rewrite fsum_absorbed. f_equal.
  clear R. induction n as [|n IH]; [reflexivity|]. cbn [repeat map]. now rewrite IH.
Qed.

Lemma Qsum_repeat (x : Q) (n : nat) :
  (Qsum (repeat x n) == inject_Z (Z.of_nat n) * x)%Q.
Proof.
  induction n as [|n IH]; [cbn; ring|].
  cbn [repeat]. rewrite Qsum_cons, IH, Nat2Z.inj_succ. unfold Z.succ.
  rewrite inject_Z_plus. change (inject_Z 1) with 1%Q. ring.
Qed.

Lemma long_tail_sums (n : nat) :
  (Qsum (map fval (1%float :: repeat 0x1p-54%float n))
   == 1 + inject_Z (Z.of_nat n) * (1 # 18014398509481984))%Q /\
  fsum (1%float :: repeat 0x1p-54%float n) 0 = 1%float.
Proof.
  split.
  - cbn [map]. rewrite Qsum_cons, map_repeat, Qsum_repeat.
    assert (E1 : (fval 1 == 1)%Q) by reflexivity.
    assert (E2 : (fval 0x1p-54 == 1 # 18014398509481984)%Q) by reflexivity.
    now rewrite E1, E2.
  - change (fsum (1%float :: repeat 0x1p-54%float n) 0)
      with (fsum (repeat 0x1p-54%float n) (0 + 1)).
    apply fsum_absorbed.
Qed.

(** C1 fails as stated in binary64, the arithmetic of the scripts.  A
    positive finite odds value whose reciprocal overflows gives NaN and 0;
    two odds whose reciprocals are finite but sum to the infinity give 0 and
    0; two odds that differ in the last place can get equal probabilities
    although one is strictly lower; and for 1 followed by 2^25 odds of 2^54
    the probabilities are 1 and 2^25 times 2^-54, whose exact sum is
    1 + 2^-29, more than 1e-9 above 1 (their binary64 sum is 1). *)
Lemma normalize_binary64_counterexample :
  (forallb positive_finite [0x1p-1074; 2]%float = true /\
   normalizeDecimalOddsToProbs [0x1p-1074; 2]%float = [nan; 0]%float /\
   is_nan (fsum (normalizeDecimalOddsToProbs [0x1p-1074; 2]%float) 0) = true) /\
  (forallb positive_finite [0x1p-1023; 0x1p-1023]%float = true /\
   map (fun x => float_isFinite (1 / x)) [0x1p-1023; 0x1p-1023]%float = [true; true] /\
   normalizeDecimalOddsToProbs [0x1p-1023; 0x1p-1023]%float = [0; 0]%float) /\
  (PrimFloat.ltb 0x1.e666666666666p+0 0x1.e666666666667p+0 = true /\
   normalizeDecimalOddsToProbs [0x1.e666666666666p+0; 0x1.e666666666667p+0]%float
     = [0.5; 0.5]%float) /\
  (exists n : nat,
     Z.of_nat n = 33554432%Z /\
     positive_finite 0x1p+54 = true /\
     normalizeDecimalOddsToProbs (1%float :: repeat 0x1p+54%float n)
     = 1%float :: repeat 0x1p-54%float n /\
     (Qsum (map fval (1%float :: repeat 0x1p-54%float n)) == 1 + (1 # 536870912))%Q /\
     (1 # 1000000000 < 1 # 536870912)%Q /\
     fsum (1%float :: repeat 0x1p-54%float n) 0 = 1%float).
Proof.
  split; [vm_compute; repeat split; reflexivity|].
  split; [vm_compute; repeat split; reflexivity|].
  split; [vm_compute; repeat split; reflexivity|].
  assert (Hn : exists n : nat, Z.of_nat n = 33554432%Z).
  { exists (Z.to_nat 33554432). apply Z2Nat.id. lia. }
  destruct Hn as [n Hn]. exists n.
  destruct (long_tail_sums n) as [Hs1 Hs2].
  split; [exact Hn|]. split; [reflexivity|]. split; [apply normalize_long_tail|].
  split; [|split; [reflexivity | exact Hs2]].
  rewrite Hs1, Hn. reflexivity.
Qed.

(** The witness of C1: the odds 1.8 and 2.2 of the spec's example. *)
Lemma normalize_binary64_witness :
  let p := normalizeDecimalOddsToProbs [0x1.ccccccccccccdp+0; 0x1.199999999999ap+1]%float in
  length p = 2%nat /\
  (exists t, float_value (fsum p 0) = Some t /\ (Qabs (t - 1) <= 1 # 1000000000)%Q) /\
  (nth 1 p 0 <=? nth 0 p 0)%float = true.
Proof.
  destruct normalize_binary64 as (_ & H).
  destruct (H [0x1.ccccccccccccdp+0; 0x1.199999999999ap+1]%float)
    as (Hlen & _ & _ & _ & Hsum & Hord).
  - discriminate.
  - repeat constructor.
  - reflexivity.
  - cbn. lia.
  - split; [exact Hlen|]. split; [exact Hsum|].
    apply (Hord 0%nat 1%nat 0x1.ccccccccccccdp+0%float 0x1.199999999999ap+1%float);
      reflexivity.
Defined.

(** ** C2: the market row extractor *)

Lemma find_first {A : Type} (f : A -> bool) (pre : list A) (x : A) (post : list A) :
  Forall (fun y => f y = false) pre -> f x = true ->
  List.find f (pre ++ x :: post) = Some x.
Proof.
  intros Hpre Hx. induction Hpre as [|y pre Hy _ IH]; simpl.
  - now rewrite Hx.
  - now rewrite Hy.
Qed.

Lemma find_none_Forall {A : Type} (f : A -> bool) (l : list A) :
  List.find f l = None <-> Forall (fun y => f y = false) l.
Proof.
  induction l as [|y l IH]; simpl.
  - split; [constructor | reflexivity].
  - destruct (f y) eqn:Hy.
    + split; [discriminate | intros HF; inversion HF; congruence].
    + rewrite IH. split; [now constructor | intros HF; now inversion HF].
Qed.

Lemma find_some_split {A : Type} (f : A -> bool) (l : list A) (x : A) :
  List.find f l = Some x ->
  exists pre post, l = pre ++ x :: post /\ Forall (fun y => f y = false) pre /\ f x = true.
Proof.
  induction l as [|y l IH]; simpl; [discriminate|].
  destruct (f y) eqn:Hy.
  - intros [= ->]. exists [], l. repeat split; [constructor | exact Hy].
  - intros Hx. destruct (IH Hx) as (pre & post & -> & Hpre & Hfx).
    exists (y :: pre), post. repeat split; [now constructor | exact Hfx].
Qed.

Lemma find_map {A B : Type} (g : A -> B) (p : B -> bool) (l : list A) :
  List.find p (map g l) = option_map g (List.find (fun a => p (g a)) l).
Proof.
  induction l as [|a l IH]; simpl; [reflexivity|].
  destruct (p (g a)); [reflexivity | exact IH].
Qed.

Section ExtractorProps.
Context {num : Type} `{JsNumber num}.

Lemma offers_h2h_reprice (f : num -> num) (b : bookmaker num) :
  offers_h2h (reprice_bookmaker f b) = offers_h2h b.
Proof.
  unfold offers_h2h. destruct b as [t k [ms|]]; simpl; [|reflexivity].
  induction ms as [|m ms IH]; simpl; [reflexivity|].
  now rewrite IH.
Qed.

Lemma select_bk_reprice (f : num -> num) (ev : event num) :
  select_bk (reprice_event f ev) = option_map (reprice_bookmaker f) (select_bk ev).
Proof.
  unfold select_bk. destruct ev as [i c [bs|]]; simpl; [|reflexivity].
  rewrite find_map. f_equal.
  induction bs as [|b bs IH]; simpl; [reflexivity|].
  rewrite offers_h2h_reprice. destruct (offers_h2h b); [reflexivity | exact IH].
Qed.

(** A bookmaker that offers a head-to-head market has a first one. *)
Lemma offers_h2h_find (b : bookmaker num) :
  offers_h2h b = true ->
  exists ms h2h, b_markets b = Some ms /\ List.find is_h2h ms = Some h2h.
Proof.
  unfold offers_h2h. destruct (b_markets b) as [ms|]; simpl; [|discriminate].
  intros Hex. exists ms.
  destruct (List.find is_h2h ms) as [m|] eqn:Hfind; [now exists m|].
  apply find_none_Forall in Hfind.
  apply existsb_exists in Hex as (m & Hin & Hm).
  rewrite List.Forall_forall in Hfind. rewrite (Hfind m Hin) in Hm. discriminate.
Qed.

Lemma select_bk_offers (ev : event num) (bk : bookmaker num) :
  select_bk ev = Some bk -> offers_h2h bk = true.
Proof. unfold select_bk. intros Hf. now apply find_some in Hf. Qed.

Lemma extract_none_iff (ev : event num) :
  extract ev = None <->
  Forall (fun b => offers_h2h b = false) (default [] (ev_bookmakers ev)) \/
  exists h2h, select_h2h ev = Some h2h /\ (length (m_outcomes h2h) < 2)%nat.
Proof.
  unfold extract, select_h2h.
  destruct (select_bk ev) as [bk|] eqn:Hbk.
  - destruct (offers_h2h_find bk (select_bk_offers ev bk Hbk)) as (ms & h2h & Hms & Hfind).
    rewrite Hms, Hfind. rewrite length_map.
    destruct (Nat.ltb_spec (length (m_outcomes h2h)) 2) as [Hlt|Hge].
    + split; [|reflexivity]. intros _. right. now exists h2h.
    + split; [discriminate|]. intros [HF | (h & [= <-] & Hlt)]; [|lia].
      apply find_none_Forall in HF. unfold select_bk in Hbk. congruence.
  - split; [|reflexivity]. intros _. left.
    apply find_none_Forall. exact Hbk.
Qed.

Lemma rows_of_events_drop (env : environment) (sportKey : string)
    (raw1 raw2 : list (event num)) (ev : event num) :
  extract ev = None ->
  OddsAll.rows_of_events env sportKey (raw1 ++ ev :: raw2)
  = OddsAll.rows_of_events env sportKey (raw1 ++ raw2).
Proof.
  intros Hnone. induction raw1 as [|e raw1 IH]; simpl.
  - now rewrite Hnone.
  - now rewrite IH.
Qed.

Lemma map_events_drop (raw1 raw2 : list (event num)) (ev : event num) :
  extract ev = None ->
  Odds.map_events (raw1 ++ ev :: raw2) = Odds.map_events (raw1 ++ raw2).
Proof.
  intros Hnone. unfold Odds.map_events. rewrite !flat_map_app. simpl.
  now rewrite Hnone.
Qed.

Lemma rows_of_events_filter (env : environment) (sportKey : string) (raw : list (event num)) :
  OddsAll.rows_of_events env sportKey (List.filter extractable raw)
  = OddsAll.rows_of_events env sportKey raw.
Proof.
  induction raw as [|ev raw IH]; [reflexivity|].
  cbn [List.filter OddsAll.rows_of_events]. unfold extractable at 1.
  destruct (extract ev) as [x|] eqn:Hx; [|exact IH].
  cbn [OddsAll.rows_of_events]. now rewrite Hx, IH.
Qed.

Lemma map_events_filter (raw : list (event num)) :
  Odds.map_events (List.filter extractable raw) = Odds.map_events raw.
Proof.
  unfold Odds.map_events. induction raw as [|ev raw IH]; [reflexivity|].
  cbn [List.filter flat_map]. unfold extractable at 1.
  destruct (extract ev) as [x|] eqn:Hx.
  - cbn [flat_map]. now rewrite Hx, IH.
  - exact IH.
Qed.

Lemma bulk_fetch_without_dropped (env : environment) (net : network num) (key : string) :
  OddsAll.fetchOddsForKey env (network_without_dropped net) key
  = OddsAll.fetchOddsForKey env net key.
Proof.
  unfold OddsAll.fetchOddsForKey. cbn [get_odds network_without_dropped].
  destruct (get_odds net key (OddsAll.REGION env)) as [msg|ok st stt [raw| |msg]];
    try reflexivity.
  cbn [without_dropped]. destruct ok; [|reflexivity].
  cbn [negb res_json]. now rewrite rows_of_events_filter.
Qed.

Lemma bulk_collect_without_dropped (env : environment) (net : network num)
    (keys : list (string * option string)) (all : list (record num)) :
  OddsAll.collect env (network_without_dropped net) keys all
  = OddsAll.collect env net keys all.
Proof.
  revert all. induction keys as [|[key t] keys IH]; intros all; [reflexivity|].
  cbn [OddsAll.collect]. rewrite bulk_fetch_without_dropped.
  destruct (OddsAll.fetchOddsForKey env net key); [apply IH | reflexivity].
Qed.

Lemma bulk_main_without_dropped (env : environment) (now : utc) (net : network num)
    (w : world) :
  OddsAll.main env now (network_without_dropped net) w = OddsAll.main env now net w.
Proof.
  unfold OddsAll.main, OddsAll.main_body, run_script, bind, lift.
  change (OddsAll.getActiveTennisKeys (network_without_dropped net))
    with (OddsAll.getActiveTennisKeys net).
  destruct (OddsAll.getActiveTennisKeys net) as [keys|msg]; [|reflexivity].
  now rewrite bulk_collect_without_dropped.
Qed.

Lemma cli_fetch_without_dropped (RegExp_i : string -> result (string -> bool))
    (env : environment) (now : utc) (net : network num) (key : string)
    (f : Odds.flags) (w : world) :
  Odds.fetchOddsForKey RegExp_i env now (network_without_dropped net) key f w
  = Odds.fetchOddsForKey RegExp_i env now net key f w.
Proof.
  unfold Odds.fetchOddsForKey. cbn [get_odds network_without_dropped].
  destruct (get_odds net key _) as [msg|ok st stt [raw| |msg]]; try reflexivity.
  cbn [without_dropped]. destruct ok; [|reflexivity].
  cbn [negb res_json]. unfold bind, lift. now rewrite map_events_filter.
Qed.

Lemma cli_main_without_dropped (RegExp_i : string -> result (string -> bool))
    (env : environment) (now : utc) (net : network num) (args : list string) (w : world) :
  Odds.main RegExp_i env now (network_without_dropped net) args w
  = Odds.main RegExp_i env now net args w.
Proof.
  unfold Odds.main, run_script, Odds.cli_body.
  destruct (String.eqb (or_default (ODDS_API_KEY env) "") ""); [reflexivity|].
  destruct (nth_error args 0) as [cmd|]; [|reflexivity].
  destruct (String.eqb_spec cmd "sports") as [->|Hs]; [reflexivity|].
  destruct (String.eqb_spec cmd "fetch") as [->|Hf].
  - destruct (nth_error args 1) as [a|]; [|reflexivity].
    destruct (String.eqb a ""); [reflexivity|].
    now rewrite cli_fetch_without_dropped.
  - assert (E : forall (A : Type) (x y z : A),
        match cmd with "sports" => x | "fetch" => y | _ => z end = z).
    { intros A x y z. clear -Hs Hf.
      repeat (let c := fresh "c" in
              destruct cmd as [|c cmd]; [reflexivity|];
              destruct c as [[] [] [] [] [] [] [] []]; try reflexivity);
        destruct cmd; try reflexivity; congruence. }
    now rewrite !E.
Qed.

(** C2 (as amended): extraction takes the first bookmaker, in payload
    order, that offers a market with key h2h, and that bookmaker's first
    such market; prices play no part in the choice (changing every price
    changes neither).  It returns none exactly when no bookmaker offers such
    a market or the chosen market has fewer than two outcomes.  An event for
    which it returns none leaves no trace in the rows of the bulk snapshot
    or in the events of the command line, and a run of either against the
    same upstream with all such events removed from the payloads ends in the
    same state: the same files, the same console output, the same exit
    status.  The history scan extracts nothing: the count it logs for a
    pair is the number of events of the payload, those for which extraction
    returns none included. *)
Theorem extract_first_h2h_bookmaker (ev : event num) :
  (forall pre bk post,
     default [] (ev_bookmakers ev) = pre ++ bk :: post ->
     Forall (fun b => offers_h2h b = false) pre ->
     offers_h2h bk = true ->
     select_bk ev = Some bk /\
     exists ms h2h,
       b_markets bk = Some ms /\ List.find is_h2h ms = Some h2h /\
       select_h2h ev = Some h2h /\
       extract ev =
         if (length (m_outcomes h2h) <? 2)%nat then None
         else Some {| x_bk := bk;
                      x_names := map o_name (m_outcomes h2h);
                      x_odds := map o_price (m_outcomes h2h) |}) /\
  (forall f : num -> num,
     select_bk (reprice_event f ev) = option_map (reprice_bookmaker f) (select_bk ev)) /\
  (extract ev = None <->
     Forall (fun b => offers_h2h b = false) (default [] (ev_bookmakers ev)) \/
     exists h2h, select_h2h ev = Some h2h /\ (length (m_outcomes h2h) < 2)%nat) /\
  (extract ev = None ->
     forall env sportKey raw1 raw2,
       OddsAll.rows_of_events env sportKey (raw1 ++ ev :: raw2)
       = OddsAll.rows_of_events env sportKey (raw1 ++ raw2) /\
       Odds.map_events (raw1 ++ ev :: raw2) = Odds.map_events (raw1 ++ raw2)) /\
  (forall RegExp_i env now (net : network num) args w,
     OddsAll.main env now (network_without_dropped net) w = OddsAll.main env now net w /\
     Odds.main RegExp_i env now (network_without_dropped net) args w
     = Odds.main RegExp_i env now net args w) /\
  (forall env (net : network num) key region status statusText raw,
     get_odds net key region = Response true status statusText (JsonArray raw) ->
     ScanLog.countEvents env net key region = Z.of_nat (length raw)).
Proof.
  split; [|split; [|split; [|split; [|split]]]].
  - intros pre bk post Hsplit Hpre Hbk.
    assert (Hsel : select_bk ev = Some bk).
    { unfold select_bk. rewrite Hsplit. now apply find_first. }
    split; [exact Hsel|].
    destruct (offers_h2h_find bk Hbk) as (ms & h2h & Hms & Hfind).
    exists ms, h2h. unfold extract, select_h2h.
    rewrite Hsel, Hms, Hfind, length_map. repeat split; reflexivity.
  - intros f. apply select_bk_reprice.
  - apply extract_none_iff.
  - intros Hnone env sportKey raw1 raw2. split.
    + now apply rows_of_events_drop.
    + now apply map_events_drop.
  - intros RegExp_i env now net args w. split.
    + apply bulk_main_without_dropped.
    + apply cli_main_without_dropped.
  - intros env net key region status statusText raw Hres.
    unfold ScanLog.countEvents, ScanLog.fetchJSON. now rewrite Hres.
Qed.

End ExtractorProps.

(** The witness of C2: the example match, whose first bookmaker offers no
    head-to-head market, and the walkover with a single outcome. *)
Lemma extract_first_h2h_bookmaker_witness :
  option_map b_title (select_bk example_match) = Some "First" /\
  extract example_walkover = None.
Proof.
  split.
  - destruct (extract_first_h2h_bookmaker example_match) as (Hfirst & _).
    destruct (Hfirst
                [ example_bookmaker "Spreads" [ {| m_key := "spreads"; m_outcomes := [] |} ] ]
                (example_bookmaker "First"
                   [ example_market "Alice" 0x1.ccccccccccccdp+0 "Bob" 0x1.199999999999ap+1 ])
                [ example_bookmaker "Second" [ example_market "Alice" 0x1.8p+0 "Bob" 3 ] ])
      as (Hsel & _).
    + reflexivity.
    + repeat constructor.
    + reflexivity.
    + now rewrite Hsel.
  - destruct (extract_first_h2h_bookmaker example_walkover) as (_ & _ & Hnone & _).
    apply Hnone. right.
    exists {| m_key := "h2h"; m_outcomes := [ {| o_name := "Alice"; o_price := 2%float |} ] |}.
    split; [reflexivity | simpl; lia].
Defined.

(** C2 fails for the history scan: extraction returns none for the walkover,
    yet the history file of a scan of an upstream that lists it differs from
    that of the same upstream without it, by the count 1 against 0. *)
Lemma scan_counts_unextractable_events :
  extract example_walkover = None /\
  files (snd (ScanLog.main example_env example_now
                (example_net [example_walkover] (Response true 200 "OK" (JsonArray [])))
                empty_world)) !! "scan_history.csv"
  = Some ("timestamp,key,title,region,count" +:+ char_str LF
          +:+ "2024-01-05T10:03:45.007Z," +:+ JSON_quote "atp" +:+ "," +:+ JSON_quote "Open atp"
          +:+ ",eu,1" +:+ char_str LF
          +:+ "2024-01-05T10:03:45.007Z," +:+ JSON_quote "wta" +:+ "," +:+ JSON_quote "Open wta"
          +:+ ",eu,0" +:+ char_str LF) /\
  files (snd (ScanLog.main example_env example_now
                (network_without_dropped
                   (example_net [example_walkover] (Response true 200 "OK" (JsonArray []))))
                empty_world)) !! "scan_history.csv"
  = Some ("timestamp,key,title,region,count" +:+ char_str LF
          +:+ "2024-01-05T10:03:45.007Z," +:+ JSON_quote "atp" +:+ "," +:+ JSON_quote "Open atp"
          +:+ ",eu,0" +:+ char_str LF
          +:+ "2024-01-05T10:03:45.007Z," +:+ JSON_quote "wta" +:+ "," +:+ JSON_quote "Open wta"
          +:+ ",eu,0" +:+ char_str LF).
Proof. vm_compute. repeat split; reflexivity. Qed.

(** ** C4 and C10: the probability fields of the persisted rows *)

Section RowProps.
Context {num : Type} `{JsNumber num}.

Lemma extract_some (ev : event num) (x : extracted num) :
  extract ev = Some x ->
  exists bk h2h,
    select_bk ev = Some bk /\ select_h2h ev = Some h2h /\
    x_bk x = bk /\
    x_names x = map o_name (m_outcomes h2h) /\
    x_odds x = map o_price (m_outcomes h2h) /\
    (2 <= length (m_outcomes h2h))%nat.
Proof.
  unfold extract. destruct (select_bk ev) as [bk|]; [|discriminate].
  destruct (select_h2h ev) as [h2h|]; [|discriminate].
  rewrite length_map.
  destruct (Nat.ltb_spec (length (m_outcomes h2h)) 2) as [Hlt|Hge]; [discriminate|].
  intros [= <-]. exists bk, h2h. simpl. repeat split; try reflexivity. exact Hge.
Qed.

(** Every extracted market has at least two names, odds and probabilities. *)
Lemma extract_two (ev : event num) (x : extracted num) :
  extract ev = Some x ->
  exists n1 n2 names o1 o2 odds p1 p2 probs,
    x_names x = n1 :: n2 :: names /\
    x_odds x = o1 :: o2 :: odds /\
    normalizeDecimalOddsToProbs (x_odds x) = p1 :: p2 :: probs /\
    length names = length odds /\ length probs = length odds.
Proof.
  intros Hx. destruct (extract_some ev x Hx) as (bk & h2h & _ & _ & _ & Hn & Ho & Hlen).
  destruct (m_outcomes h2h) as [|a [|b outs]]; simpl in Hlen; try lia.
  simpl in Hn, Ho.
  exists (o_name a), (o_name b), (map o_name outs), (o_price a), (o_price b), (map o_price outs).
  rewrite Ho. unfold normalizeDecimalOddsToProbs. simpl.
  do 3 eexists. repeat split; try eassumption; try reflexivity.
  - now rewrite !length_map.
  - now rewrite !length_map.
Qed.

(** The bulk snapshot blanks a probability that is not finite, and prints
    a finite one with four decimals. *)
Lemma bulk_row_probs (env : environment) (sportKey : string) (ev : event num)
    (x : extracted num) (p1 p2 : num) (probs : list num) :
  normalizeDecimalOddsToProbs (x_odds x) = p1 :: p2 :: probs ->
  get (OddsAll.row_of env sportKey ev x) "prob1"
  = VStr (if num_isFinite p1 then num_toFixed4 p1 else "") /\
  get (OddsAll.row_of env sportKey ev x) "prob2"
  = VStr (if num_isFinite p2 then num_toFixed4 p2 else "").
Proof.
  intros Hp. unfold OddsAll.row_of. rewrite Hp. split; reflexivity.
Qed.

End RowProps.

(** C4 holds in the bulk snapshot and fails on the command line: for a
    market priced at zero on both sides the probabilities are NaN; the bulk
    snapshot writes blank fields, the CSV of the command line writes NaN
    (its JSON writes null, as [JSON.stringify] does). *)
Lemma cli_csv_writes_NaN :
  normalizeDecimalOddsToProbs [0; 0]%float = [nan; nan]%float /\
  files (snd (OddsAll.main example_env example_now
                (example_net [example_zero_priced] (Response true 200 "OK" (JsonArray [])))
                empty_world)) !! "data/odds_latest.csv"
  = Some ("event_id,start,player1,player2,odds1,odds2,prob1,prob2,bookmaker,sport_key,region"
          +:+ char_str LF +:+ "m3,2024-06-01T12:00:00Z,Carol,Dana,0,0,,,First,atp,eu") /\
  files (snd (Odds.main no_regexp example_env example_now
                (example_net [example_zero_priced] (Response true 200 "OK" (JsonArray [])))
                ["fetch"; "atp"; "--csv"] empty_world)) !! "odds_atp.csv"
  = Some ("id,start,player1,player2,odds1,odds2,prob1,prob2,bookmaker,region"
          +:+ char_str LF +:+ "m3,2024-06-01T12:00:00Z,Carol,Dana,0,0,NaN,NaN,First,eu") /\
  option_map (includes "NaN")
    (files (snd (Odds.main no_regexp example_env example_now
                   (example_net [example_zero_priced] (Response true 200 "OK" (JsonArray [])))
                   ["fetch"; "atp"; "--csv"] empty_world)) !! "odds_atp.json")
  = Some false.
Proof. vm_compute. repeat split; reflexivity. Qed.

(** For non-negative [p] the integer [round4 p] printed by [toFixed(4)]
    is within one half of [10^4 * p]. *)
Lemma round4_le (p : Q) :
  (0 <= p)%Q -> (inject_Z (round4 p) <= p * 10000 + (1 # 2))%Q.
Proof.
  intros Hp. unfold round4. rewrite (Qabs_pos p Hp). apply Qfloor_le.
Qed.

Section ProbabilityFields.
Local Open Scope Z_scope.

Lemma div_finite_by_infinite (r s : float) :
  pos_finite r -> pos_infinite s -> Prim2SF (r / s) = S754_zero false.
Proof.
  intros (m & e & Er) Es. unfold pos_infinite in Es.
  rewrite FloatAxioms.div_spec, Er, Es. reflexivity.
Qed.

Lemma div_infinite_by_infinite (r s : float) :
  pos_infinite r -> pos_infinite s -> is_nan (r / s) = true.
Proof.
  unfold pos_infinite. intros Er Es. apply is_nan_Prim2SF.
  rewrite FloatAxioms.div_spec, Er, Es. reflexivity.
Qed.

Lemma nan_not_isFinite (x : float) : is_nan x = true -> float_isFinite x = false.
Proof. intros H. unfold float_isFinite. now rewrite H. Qed.

Lemma fin_nonneg_isFinite (x : float) : fin_nonneg x -> float_isFinite x = true.
Proof.
  intros [E|(m & e & E)].
  - apply (Prim2SF_isFinite x false 1 0). now right.
  - apply (Prim2SF_isFinite x false m e). now left.
Qed.

(** Every probability of positive finite odds, in binary64: a finite double
    between 0 and 1 when the reciprocal of its odds is finite, NaN when that
    overflows. *)
Lemma normalize_entry_class (o : list float) (i : nat) (oi pi : float) :
  Forall pos_finite o ->
  nth_error o i = Some oi -> nth_error (normalizeDecimalOddsToProbs o) i = Some pi ->
  (pos_finite (1 / oi) /\ fin_nonneg pi /\ (0 <= fval pi <= 1)%Q) \/
  (pos_infinite (1 / oi) /\ is_nan pi = true).
Proof.
  intros Ho Hi Hpi.
  pose proof (proj1 (List.Forall_forall _ _) Ho oi (nth_error_In _ _ Hi)) as Poi.
  assert (Hne : o <> []) by (intros ->; destruct i; discriminate).
  destruct (fsum_mono (map (fun x => (1 / x)%float) o) 0%float
              (reciprocals_class o Ho) fin_nonneg_zero) as [Hinf|(_ & Hs & _)].
  - rewrite (normalize_nth o i oi pi Hi Hpi).
    destruct (reciprocal_class oi Poi) as [[Hr _]|Hr].
    + left. split; [exact Hr|].
      pose proof (div_finite_by_infinite _ _ Hr Hinf) as Ez.
      split; [now left|]. rewrite (fval_zero _ _ Ez). lra.
    + right. split; [exact Hr|]. now apply div_infinite_by_infinite.
  - left.
    assert (Hfin : ~ pos_infinite (fsum (map (fun x => (1 / x)%float) o) 0)).
    { exact (fin_nonneg_not_infinite _ Hs). }
    destruct (normalize_finite o Hne Ho Hfin) as (_ & Hrs & Hps & _).
    split.
    + assert (Hin : In (1 / oi)%float (map (fun x => (1 / x)%float) o)).
      { apply in_map_iff. exists oi. split; [reflexivity | eapply nth_error_In; eauto]. }
      exact (proj1 (proj1 (List.Forall_forall _ _) Hrs _ Hin)).
    + exact (proj1 (List.Forall_forall _ _) Hps pi (nth_error_In _ _ Hpi)).
Qed.

(** [toFixed(4)] of a double between 0 and 1. *)
Lemma toFixed4_unit (p : float) :
  fin_nonneg p -> (0 <= fval p <= 1)%Q ->
  float_toFixed4 p = fixed4_digits (round4 (fval p)).
Proof.
  intros Hp [H0 H1]. unfold float_toFixed4. rewrite (float_value_fval p Hp).
  assert (Hs : Qle_bool (10 ^ 21) (Qabs (fval p)) = false).
  { destruct (Qle_bool (10 ^ 21) (Qabs (fval p))) eqn:E; [|reflexivity].
    apply Qle_bool_iff in E. rewrite (Qabs_pos _ H0) in E.
    assert (1 < 10 ^ 21)%Q by reflexivity. lra. }
  rewrite Hs. unfold toFixed4_exact.
  destruct (Qlt_le_dec (fval p) 0) as [Hneg|_]; [lra | reflexivity].
Qed.

Lemma round4_sum_le1 (p1 p2 : Q) :
  (0 <= p1)%Q -> (0 <= p2)%Q -> (p1 + p2 <= 1 + (1 # 100000))%Q ->
  (round4 p1 + round4 p2 <= 10001)%Z.
Proof.
  intros H1 H2 Hle.
  pose proof (round4_le p1 H1) as Hr1. pose proof (round4_le p2 H2) as Hr2.
  assert (Hq : (inject_Z (round4 p1 + round4 p2) < inject_Z 10002)%Q).
  { rewrite inject_Z_plus.
    assert (E : (inject_Z 10002 == 10002)%Q) by reflexivity.
    lra. }
  rewrite <- Zlt_Qlt in Hq. lia.
Qed.

(** The four-decimal texts of 0.0000 to 1.0000 read back, checked one by one. *)
Lemma fixed4_table :
  forallb fixed4_reads_back (map Z.of_nat (seq 0 (Z.to_nat 10001))) = true.
Proof. vm_compute. reflexivity. Qed.

Lemma fixed4_digits_value (n : Z) :
  (0 <= n <= 10000)%Z ->
  exists v, decimal_value (fixed4_digits n) = Some v /\ (v == n # 10000)%Q.
Proof.
  intros Hn. pose proof fixed4_table as Ht. rewrite forallb_forall in Ht.
  specialize (Ht n). unfold fixed4_reads_back in Ht.
  destruct (decimal_value (fixed4_digits n)) as [v|].
  - exists v. split; [reflexivity|]. apply Qeq_bool_iff, Ht.
    apply in_map_iff. exists (Z.to_nat n). split; [lia|]. apply in_seq. lia.
  - discriminate Ht.
    apply in_map_iff. exists (Z.to_nat n). split; [lia|]. apply in_seq. lia.
Qed.

Lemma round4_near (p : Q) :
  (0 <= p)%Q ->
  (Qabs ((round4 p # 10000) - p) <= 1 # 20000)%Q /\ (0 <= round4 p)%Z.
Proof.
  intros Hp. unfold round4. rewrite (Qabs_pos p Hp).
  set (x := (p * 10000 + (1 # 2))%Q).
  pose proof (Qfloor_le x) as Hlo. pose proof (Qlt_floor x) as Hhi.
  assert (E : (Qfloor x # 10000 == inject_Z (Qfloor x) / 10000)%Q).
  { rewrite (Qmake_Qdiv (Qfloor x) 10000). reflexivity. }
  split.
  - rewrite E. apply Qabs_Qle_condition. subst x.
    rewrite inject_Z_plus in Hhi. change (inject_Z 1) with 1%Q in Hhi.
    split.
    + apply Qle_minus_iff. 
      assert (H : (inject_Z (Qfloor (p * 10000 + (1 # 2))) / 10000 - p + - - (1 # 20000)
                   == (inject_Z (Qfloor (p * 10000 + (1 # 2))) + 1 - (p * 10000 + (1 # 2))) / 10000)%Q)
        by field.
      rewrite H. apply Qle_shift_div_l; lra.
    + apply Qle_minus_iff.
      assert (H : ((1 # 20000) + - (inject_Z (Qfloor (p * 10000 + (1 # 2))) / 10000 - p)
                   == (p * 10000 + (1 # 2) - inject_Z (Qfloor (p * 10000 + (1 # 2)))) / 10000)%Q)
        by field.
      rewrite H. apply Qle_shift_div_l; lra.
  - change 0%Z with (Qfloor 0). apply Qfloor_resp_le. subst x. lra.
Qed.

(** The four-decimal text of a double between 0 and 1 reads back as the
    decimal [round4 / 10^4], which is between 0 and 1 and within 0.00005 of
    the double. *)
Lemma persisted_field_value (p : float) :
  fin_nonneg p -> (0 <= fval p <= 1)%Q ->
  exists d,
    decimal_value (float_toFixed4 p) = Some d /\
    (d == round4 (fval p) # 10000)%Q /\
    (0 <= d <= 1)%Q /\ (Qabs (d - fval p) <= 1 # 20000)%Q.
Proof.
  intros Hp [H0 H1].
  destruct (round4_near (fval p) H0) as [Hnear Hn0].
  assert (Hn1 : (round4 (fval p) <= 10000)%Z).
  { unfold round4. rewrite (Qabs_pos _ H0).
    apply (Qfloor_resp_le (fval p * 10000 + (1 # 2)) (10000 + (1 # 2))). lra. }
  destruct (fixed4_digits_value (round4 (fval p)) (conj Hn0 Hn1)) as (d & Hd & Ed).
  exists d. rewrite (toFixed4_unit p Hp (conj H0 H1)).
  split; [exact Hd|]. split; [exact Ed|]. rewrite Ed. split; [|exact Hnear].
  rewrite (Qmake_Qdiv (round4 (fval p)) 10000). split.
  - apply Qle_shift_div_l; [reflexivity|]. rewrite Qmult_0_l.
    change 0%Q with (inject_Z 0). rewrite <- Zle_Qle. exact Hn0.
  - apply Qle_shift_div_r; [reflexivity|]. rewrite Qmult_1_l.
    change (inject_Z (Z.pos 10000)) with (inject_Z 10000). rewrite <- Zle_Qle. exact Hn1.
Qed.

(** The first two probabilities of positive finite odds, when both are
    finite, sum to 1 up to the rounding of one sum and two quotients. *)
Lemma first_two_sum (o1 o2 : float) (rest : list float) (p1 p2 : float) (probs : list float) :
  Forall pos_finite (o1 :: o2 :: rest) ->
  normalizeDecimalOddsToProbs (o1 :: o2 :: rest) = p1 :: p2 :: probs ->
  float_isFinite p1 = true -> float_isFinite p2 = true ->
  fin_nonneg p1 /\ fin_nonneg p2 /\
  (0 <= fval p1 <= 1)%Q /\ (0 <= fval p2 <= 1)%Q /\
  (fval p1 + fval p2 <= 1 + (1 # 1000000000000000))%Q.
Proof.
  intros Ho Hp F1 F2.
  set (o := o1 :: o2 :: rest) in *.
  assert (Hi1 : nth_error o 0 = Some o1) by reflexivity.
  assert (Hi2 : nth_error o 1 = Some o2) by reflexivity.
  assert (Hp1 : nth_error (normalizeDecimalOddsToProbs o) 0 = Some p1) by now rewrite Hp.
  assert (Hp2 : nth_error (normalizeDecimalOddsToProbs o) 1 = Some p2) by now rewrite Hp.
  destruct (normalize_entry_class o 0 o1 p1 Ho Hi1 Hp1) as [(R1 & N1 & B1)|[_ N1]].
  2:{ apply nan_not_isFinite in N1. congruence. }
  destruct (normalize_entry_class o 1 o2 p2 Ho Hi2 Hp2) as [(R2 & N2 & B2)|[_ N2]].
  2:{ apply nan_not_isFinite in N2. congruence. }
  split; [exact N1|]. split; [exact N2|]. split; [exact B1|]. split; [exact B2|].
  set (rs := map (fun x => (1 / x)%float) o). set (s := fsum rs 0).
  pose proof (normalize_nth o 0 o1 p1 Hi1 Hp1) as E1. fold rs in E1. fold s in E1.
  pose proof (normalize_nth o 1 o2 p2 Hi2 Hp2) as E2. fold rs in E2. fold s in E2.
  destruct (fsum_mono rs 0%float (reciprocals_class o Ho) fin_nonneg_zero)
    as [Hinf|(Hall & Hs & _ & Heach)]; fold s in Hinf || fold s in Hs, Heach.
  - rewrite E1, E2.
    rewrite (fval_zero _ _ (div_finite_by_infinite _ _ R1 Hinf)).
    rewrite (fval_zero _ _ (div_finite_by_infinite _ _ R2 Hinf)). lra.
  - (* the sum of the first two reciprocals is at most the whole sum *)
    assert (Hs12 : fsum rs 0 = fsum (map (fun x => (1 / x)%float) rest) (0 + 1 / o1 + 1 / o2))
      by reflexivity.
    fold s in Hs12.
    assert (Frest : Forall (fun r => fin_nonneg r \/ pos_infinite r)
                      (map (fun x => (1 / x)%float) rest)).
    { apply reciprocals_class. inversion Ho as [|? ? _ Ho']; subst. now inversion Ho'. }
    assert (Fr1 : fin_nonneg (1 / o1)) by now right.
    assert (Fr2 : fin_nonneg (1 / o2)) by now right.
    assert (Hnotinf : ~ pos_infinite s) by exact (fin_nonneg_not_infinite _ Hs).
    destruct (add_fin_nonneg 0 (1 / o1) fin_nonneg_zero Fr1) as [[Hi _]|(Fa & _ & _ & A2)].
    { exfalso. apply Hnotinf. rewrite Hs12. apply fsum_infinite; [|exact Frest].
      apply add_infinite_l; [exact Hi | now left]. }
    destruct (add_fin_nonneg (0 + 1 / o1) (1 / o2) Fa Fr2) as [[Hi _]|(Fb & _ & _ & B2')].
    { exfalso. apply Hnotinf. rewrite Hs12. now apply fsum_infinite. }
    destruct (fsum_mono (map (fun x => (1 / x)%float) rest) (0 + 1 / o1 + 1 / o2)%float Frest Fb)
      as [Hi|(_ & _ & Hge & _)].
    { exfalso. apply Hnotinf. now rewrite Hs12. }
    rewrite <- Hs12 in Hge.
    rewrite fval_float_zero in A2.
    pose proof (pos_finite_pos _ R1) as V1. pose proof (pos_finite_pos _ R2) as V2.
    assert (Ps : pos_finite s).
    { destruct Hs as [Ez|Ps]; [|exact Ps]. exfalso.
      pose proof (proj1 (List.Forall_forall _ _) Heach (1 / o1)%float
                    ltac:(apply in_map_iff; exists o1; split; [reflexivity | now left])) as L.
      rewrite (fval_zero _ _ Ez) in L. lra. }
    pose proof (pos_finite_pos s Ps) as Vs.
    assert (L1 : (fval (1 / o1) <= fval s)%Q).
    { exact (proj1 (List.Forall_forall _ _) Heach (1 / o1)%float
               ltac:(apply in_map_iff; exists o1; split; [reflexivity | now left])). }
    assert (L2 : (fval (1 / o2) <= fval s)%Q).
    { exact (proj1 (List.Forall_forall _ _) Heach (1 / o2)%float
               ltac:(apply in_map_iff; exists o2; split; [reflexivity | right; now left])). }
    destruct (quotient_le_one (1 / o1) s R1 Ps L1) as (_ & Q1 & _).
    destruct (quotient_le_one (1 / o2) s R2 Ps L2) as (_ & Q2 & _).
    assert (Hq1 : (0 <= fval (1 / o1) / fval s)%Q) by (apply Qle_shift_div_l; lra).
    assert (Hq2 : (0 <= fval (1 / o2) / fval s)%Q) by (apply Qle_shift_div_l; lra).
    destruct (rounds_err _ _ Hq1 Q1) as [D1 _]. destruct (rounds_err _ _ Hq2 Q2) as [D2 _].
    rewrite <- E1 in D1. rewrite <- E2 in D2.
    set (u := pow2 (-53)) in *. set (eta := pow2 (-1075)) in *.
    assert (Hu : (0 <= u <= 2 # 10000000000000000)%Q).
    { split; [apply Qlt_le_weak, pow2_pos | vm_compute; discriminate]. }
    assert (He : (0 <= eta <= 1 # 10000000000000000)%Q).
    { split; [apply Qlt_le_weak, pow2_pos | vm_compute; discriminate]. }
    set (a := fval (1 / o1)) in *. set (b := fval (1 / o2)) in *.
    set (a' := fval (0 + 1 / o1)) in *. set (c := fval (0 + 1 / o1 + 1 / o2)) in *.
    set (y1 := (a / fval s)%Q) in *. set (y2 := (b / fval s)%Q) in *.
    assert (Ey : ((y1 + y2) * fval s == a + b)%Q) by (unfold y1, y2; field; lra).
    (* a + b <= c / (1 - u)^2 <= s / (1 - u)^2 *)
    assert (Ka : (0 <= u * a)%Q) by (apply Qmult_le_0_compat; lra).
    assert (Kab : (0 <= u * (a' + b))%Q).
    { apply Qmult_le_0_compat; [lra|]. pose proof (fin_nonneg_nonneg _ Fa). fold a' in H. lra. }
    assert (K1 : (0 <= ((2 # 10000000000000000) - u) * a)%Q) by (apply Qmult_le_0_compat; lra).
    assert (K2 : (0 <= ((2 # 10000000000000000) - u) * (a' + b))%Q).
    { apply Qmult_le_0_compat; [lra|]. pose proof (fin_nonneg_nonneg _ Fa). fold a' in H. lra. }
    assert (Hab : ((a + b) * (1 - (5 # 10000000000000000)) <= fval s)%Q) by lra.
    assert (Hy : ((y1 + y2) * (1 - (5 # 10000000000000000)) <= 1)%Q).
    { apply (Qmult_le_r _ _ (fval s) Vs).
      assert (E : ((y1 + y2) * (1 - (5 # 10000000000000000)) * fval s
                   == (a + b) * (1 - (5 # 10000000000000000)))%Q).
      { rewrite <- Ey. ring. }
      rewrite E. lra. }
    assert (K3 : (0 <= ((2 # 10000000000000000) - u) * (y1 + y2))%Q).
    { apply Qmult_le_0_compat; lra. }
    assert (K4 : (0 <= u * (y1 + y2))%Q) by (apply Qmult_le_0_compat; lra).
    lra.
Qed.

End ProbabilityFields.

(** C10 (as amended): the flat rows of the bulk snapshot and of the command
    line keep the first two names, odds and probabilities of an extracted
    market, whatever the number of outcomes, and the probabilities are
    those of the normalization over all the outcomes.  In binary64, for
    positive finite odds, when the first two probabilities are finite they
    lie between 0 and 1 and sum to at most 1 + 1e-15, so the integers that
    [toFixed(4)] prints sum to at most 10001: the persisted fields, read
    back as decimals, sum to at most 1.0001, not always to less than 1. *)
Theorem first_two_outcomes_persisted :
  (forall (num : Type) (N : JsNumber num) (env : environment)
          (sportKey regionToUse : string) (ev : event num) (x : extracted num),
     extract ev = Some x ->
     exists n1 n2 names o1 o2 odds p1 p2 probs,
       x_names x = n1 :: n2 :: names /\
       x_odds x = o1 :: o2 :: odds /\
       normalizeDecimalOddsToProbs (x_odds x) = p1 :: p2 :: probs /\
       length names = length odds /\ length probs = length odds /\
       OddsAll.row_of env sportKey ev x =
         [ ("event_id", VStr (ev_id ev));
           ("start", VStr (ev_commence_time ev));
           ("player1", VStr (or_str n1 ""));
           ("player2", VStr (or_str n2 ""));
           ("odds1", VNum o1);
           ("odds2", VNum o2);
           ("prob1", VStr (if num_isFinite p1 then num_toFixed4 p1 else ""));
           ("prob2", VStr (if num_isFinite p2 then num_toFixed4 p2 else ""));
           ("bookmaker", VStr (or_str (b_title (x_bk x)) (or_default (b_key (x_bk x)) "")));
           ("sport_key", VStr sportKey);
           ("region", VStr (OddsAll.REGION env)) ] /\
       Odds.csv_row regionToUse (Odds.mapped_of ev x) =
         [ ("id", VStr (ev_id ev));
           ("start", VStr (ev_commence_time ev));
           ("player1", VStr (or_str n1 ""));
           ("player2", VStr (or_str n2 ""));
           ("odds1", VNum o1);
           ("odds2", VNum o2);
           ("prob1", VStr (num_toFixed4 p1));
           ("prob2", VStr (num_toFixed4 p2));
           ("bookmaker", VStr (or_default (if String.eqb (b_title (x_bk x)) ""
                                           then b_key (x_bk x)
                                           else Some (b_title (x_bk x))) ""));
           ("region", VStr regionToUse) ]) /\
  (forall (o1 o2 : float) (rest : list float) (p1 p2 : float) (probs : list float),
     Forall (fun o => positive_finite o = true) (o1 :: o2 :: rest) ->
     normalizeDecimalOddsToProbs (o1 :: o2 :: rest) = p1 :: p2 :: probs ->
     p1 = (1 / o1 / fsum (map (fun o => (1 / o)%float) (o1 :: o2 :: rest)) 0)%float /\
     p2 = (1 / o2 / fsum (map (fun o => (1 / o)%float) (o1 :: o2 :: rest)) 0)%float /\
     (num_isFinite p1 = true -> num_isFinite p2 = true ->
      exists v1 v2,
        float_value p1 = Some v1 /\ float_value p2 = Some v2 /\
        (0 <= v1 <= 1)%Q /\ (0 <= v2 <= 1)%Q /\
        (v1 + v2 <= 1 + (1 # 1000000000000000))%Q /\
        num_toFixed4 p1 = fixed4_digits (round4 v1) /\
        num_toFixed4 p2 = fixed4_digits (round4 v2) /\
        (round4 v1 + round4 v2 <= 10001)%Z /\
        exists d1 d2,
          decimal_value (num_toFixed4 p1) = Some d1 /\
          decimal_value (num_toFixed4 p2) = Some d2 /\
          (d1 + d2 <= 10001 # 10000)%Q)).
Proof.
  split.
  - intros num N env sportKey regionToUse ev x Hx.
    destruct (extract_two ev x Hx)
      as (n1 & n2 & names & o1 & o2 & odds & p1 & p2 & probs & Hn & Ho & Hp & Hl1 & Hl2).
    exists n1, n2, names, o1, o2, odds, p1, p2, probs.
    repeat (split; [assumption|]).
    unfold OddsAll.row_of, Odds.csv_row, Odds.mapped_of.
    cbn [Odds.e_id Odds.e_start Odds.e_players Odds.e_odds_decimal
         Odds.e_probs_normalized Odds.e_bookmaker].
    rewrite Hp, Hn, Ho. split; reflexivity.
  - intros o1 o2 rest p1 p2 probs Hpos Hp.
    assert (Ho : Forall pos_finite (o1 :: o2 :: rest)).
    { eapply List.Forall_impl; [|exact Hpos]. intros x. apply positive_finite_pos_finite. }
    split; [apply (normalize_nth (o1 :: o2 :: rest) 0 o1 p1); [reflexivity | now rewrite Hp]|].
    split; [apply (normalize_nth (o1 :: o2 :: rest) 1 o2 p2); [reflexivity | now rewrite Hp]|].
    intros F1 F2.
    destruct (first_two_sum o1 o2 rest p1 p2 probs Ho Hp F1 F2) as (N1 & N2 & B1 & B2 & Hsum).
    exists (fval p1), (fval p2).
    split; [now apply float_value_fval|]. split; [now apply float_value_fval|].
    split; [exact B1|]. split; [exact B2|]. split; [exact Hsum|].
    split; [now apply toFixed4_unit|]. split; [now apply toFixed4_unit|].
    assert (Hr : (round4 (fval p1) + round4 (fval p2) <= 10001)%Z)
      by (apply round4_sum_le1; lra).
    split; [exact Hr|].
    destruct (persisted_field_value p1 N1 B1) as (d1 & Hd1 & E1 & _).
    destruct (persisted_field_value p2 N2 B2) as (d2 & Hd2 & E2 & _).
    exists d1, d2. split; [exact Hd1|]. split; [exact Hd2|].
    rewrite E1, E2, !Qmake_Qdiv.
    assert (Hq : (inject_Z (round4 (fval p1)) + inject_Z (round4 (fval p2)) <= inject_Z 10001)%Q).
    { rewrite <- inject_Z_plus, <- Zle_Qle. exact Hr. }
    change (inject_Z (Z.pos 10000)) with 10000%Q. change (inject_Z 10001) with 10001%Q in Hq.
    set (b := inject_Z (round4 (fval p1))) in *.
    set (a := inject_Z (round4 (fval p2))) in *.
    clearbody a b.
    assert (E : (b / 10000 + a / 10000 == (b + a) / 10000)%Q) by field.
    rewrite E. apply Qle_shift_div_r; [reflexivity|].
    assert (E' : ((10001 # 10000) * 10000 == 10001)%Q) by reflexivity.
    rewrite E'. exact Hq.
Qed.

(** C10 fails as stated: for the three-way market priced 2, 2 and 100000
    both scripts persist 0.5000 and 0.5000, which sum to 1; for the one
    priced 1.03, 198.97 and 1e20 both persist 0.9949 and 0.0052, which sum
    to 1.0001. *)
Lemma three_way_rows_sum_to_one :
  extract example_three_way <> None /\
  files (snd (OddsAll.main example_env example_now
                (example_net [example_three_way] (Response true 200 "OK" (JsonArray [])))
                empty_world)) !! "data/odds_latest.csv"
  = Some ("event_id,start,player1,player2,odds1,odds2,prob1,prob2,bookmaker,sport_key,region"
          +:+ char_str LF +:+ "m4,2024-06-01T12:00:00Z,Alice,Bob,2,2,0.5000,0.5000,First,atp,eu") /\
  files (snd (Odds.main no_regexp example_env example_now
                (example_net [example_three_way] (Response true 200 "OK" (JsonArray [])))
                ["fetch"; "atp"; "--csv"] empty_world)) !! "odds_atp.csv"
  = Some ("id,start,player1,player2,odds1,odds2,prob1,prob2,bookmaker,region"
          +:+ char_str LF +:+ "m4,2024-06-01T12:00:00Z,Alice,Bob,2,2,0.5000,0.5000,First,eu") /\
  decimal_value "0.5000" = Some (5000 # 10000)%Q /\
  extract example_three_way_rounding <> None /\
  files (snd (OddsAll.main example_env example_now
                (example_net [example_three_way_rounding] (Response true 200 "OK" (JsonArray [])))
                empty_world)) !! "data/odds_latest.csv"
  = Some ("event_id,start,player1,player2,odds1,odds2,prob1,prob2,bookmaker,sport_key,region"
          +:+ char_str LF
          +:+ "m5,2024-06-01T12:00:00Z,Alice,Bob,1.03,198.97,0.9949,0.0052,First,atp,eu") /\
  files (snd (Odds.main no_regexp example_env example_now
                (example_net [example_three_way_rounding] (Response true 200 "OK" (JsonArray [])))
                ["fetch"; "atp"; "--csv"] empty_world)) !! "odds_atp.csv"
  = Some ("id,start,player1,player2,odds1,odds2,prob1,prob2,bookmaker,region"
          +:+ char_str LF
          +:+ "m5,2024-06-01T12:00:00Z,Alice,Bob,1.03,198.97,0.9949,0.0052,First,eu") /\
  decimal_value "0.9949" = Some (9949 # 10000)%Q /\
  decimal_value "0.0052" = Some (52 # 10000)%Q.
Proof. vm_compute. repeat split; try reflexivity; discriminate. Qed.

(** The witness of C10 as amended: the odds 1.03, 198.97 and 1e20. *)
Lemma first_two_outcomes_persisted_witness :
  exists p1 p2 probs v1 v2,
    normalizeDecimalOddsToProbs
      [0x1.07ae147ae147bp+0; 0x1.8df0a3d70a3d7p+7; 0x1.5af1d78b58c4p+66]%float
    = p1 :: p2 :: probs /\
    float_value p1 = Some v1 /\ float_value p2 = Some v2 /\
    (round4 v1 + round4 v2 <= 10001)%Z.
Proof.
  destruct first_two_outcomes_persisted as (_ & Hrows).
  destruct (Hrows 0x1.07ae147ae147bp+0%float 0x1.8df0a3d70a3d7p+7%float
              [0x1.5af1d78b58c4p+66%float]
              (nth 0 (normalizeDecimalOddsToProbs
                        [0x1.07ae147ae147bp+0; 0x1.8df0a3d70a3d7p+7; 0x1.5af1d78b58c4p+66]%float) 0%float)
              (nth 1 (normalizeDecimalOddsToProbs
                        [0x1.07ae147ae147bp+0; 0x1.8df0a3d70a3d7p+7; 0x1.5af1d78b58c4p+66]%float) 0%float)
              [nth 2 (normalizeDecimalOddsToProbs
                        [0x1.07ae147ae147bp+0; 0x1.8df0a3d70a3d7p+7; 0x1.5af1d78b58c4p+66]%float) 0%float])
    as (_ & _ & Hsum).
  - repeat constructor.
  - reflexivity.
  - destruct Hsum as (v1 & v2 & Hv1 & Hv2 & _ & _ & _ & _ & _ & Hle & _);
      [reflexivity | reflexivity |].
    do 3 eexists. exists v1, v2. split; [reflexivity|]. split; [exact Hv1|]. split; [exact Hv2 | exact Hle].
Defined.

(** ** C8: the archive stamp *)

(** Case analysis on a decimal digit [k], known to lie between 0 and 9. *)
Ltac digit_cases k :=
  let Hk := fresh "Hk" in
  assert (Hk : (k = 0 \/ k = 1 \/ k = 2 \/ k = 3 \/ k = 4 \/ k = 5 \/ k = 6 \/ k = 7
                \/ k = 8 \/ k = 9)%Z) by lia;
  destruct Hk as [-> | [-> | [-> | [-> | [-> | [-> | [-> | [-> | [-> | ->]]]]]]]]].

Lemma digit_char_kept (n : Z) :
  is_dash_or_colon (digit_char (n mod 10)) = false.
Proof.
  assert (Hb : (0 <= n mod 10 < 10)%Z) by (apply Z.mod_pos_bound; lia).
  set (k := (n mod 10)%Z) in *.
  digit_cases k; reflexivity.
Qed.

Lemma remove_chars_digit (n : Z) (s : string) :
  remove_chars is_dash_or_colon (String (digit_char (n mod 10)) s)
  = String (digit_char (n mod 10)) (remove_chars is_dash_or_colon s).
Proof. cbn [remove_chars]. now rewrite digit_char_kept. Qed.

Lemma remove_chars_sep (c : ascii) (s : string) :
  is_dash_or_colon c = true ->
  remove_chars is_dash_or_colon (String c s) = remove_chars is_dash_or_colon s.
Proof. intros Hc. cbn [remove_chars]. now rewrite Hc. Qed.

Lemma remove_chars_other (c : ascii) (s : string) :
  is_dash_or_colon c = false ->
  remove_chars is_dash_or_colon (String c s) = String c (remove_chars is_dash_or_colon s).
Proof. intros Hc. cbn [remove_chars]. now rewrite Hc. Qed.

Lemma stamp_of_toISOString (d : utc) :
  stamp_of (toISOString d) = stamp_shape d.
Proof.
  unfold stamp_of, toISOString, stamp_shape.
  cbv [pad_digits char_str String.append].
  repeat first [ rewrite remove_chars_digit
               | rewrite remove_chars_sep by reflexivity
               | rewrite remove_chars_other by reflexivity ].
  reflexivity.
Qed.

Lemma str_length_app (s1 s2 : string) :
  String.length (s1 +:+ s2) = (String.length s1 + String.length s2)%nat.
Proof.
  induction s1 as [|c s1 IH]; [reflexivity|].
  change (S (String.length (s1 +:+ s2)) = S (String.length s1 + String.length s2)).
  now rewrite IH.
Qed.

Lemma pad_digits_length (w : nat) (n : Z) : String.length (pad_digits w n) = w.
Proof.
  revert n. induction w as [|w IH]; intros n; cbn [pad_digits]; [reflexivity|].
  rewrite str_length_app, IH. simpl. lia.
Qed.

Lemma ascii_compare_refl (c : ascii) : Ascii.compare c c = Eq.
Proof. unfold Ascii.compare. apply N.compare_refl. Qed.

Lemma compare_app_same (p s1 s2 : string) :
  String.compare (p +:+ s1) (p +:+ s2) = String.compare s1 s2.
Proof.
  induction p as [|c p IH]; [reflexivity|].
  change (String.compare (String c (p +:+ s1)) (String c (p +:+ s2)) = String.compare s1 s2).
  cbn [String.compare]. now rewrite ascii_compare_refl.
Qed.

Lemma compare_app_lt (p1 p2 s1 s2 : string) :
  String.length p1 = String.length p2 ->
  String.compare p1 p2 = Lt ->
  String.compare (p1 +:+ s1) (p2 +:+ s2) = Lt.
Proof.
  revert p2. induction p1 as [|c1 p1 IH]; intros [|c2 p2] Hlen Hcmp;
    try discriminate.
  change (String.compare (String c1 (p1 +:+ s1)) (String c2 (p2 +:+ s2)) = Lt).
  cbn [String.compare] in *.
  destruct (Ascii.compare c1 c2); try discriminate; [|reflexivity].
  apply IH; [simpl in Hlen; lia | exact Hcmp].
Qed.

Lemma digit_char_lt (a b : Z) :
  (0 <= a < b)%Z -> (b < 10)%Z ->
  Ascii.compare (digit_char a) (digit_char b) = Lt.
Proof.
  intros Ha Hb. unfold Ascii.compare, digit_char, ascii_of_nat.
  rewrite !N_ascii_embedding.
  - apply N.compare_lt_iff. lia.
  - lia.
  - lia.
Qed.

Lemma pad_digits_lt (w : nat) (x y : Z) :
  (0 <= x < y)%Z -> (y < 10 ^ Z.of_nat w)%Z ->
  String.compare (pad_digits w x) (pad_digits w y) = Lt.
Proof.
  revert x y. induction w as [|w IH]; intros x y Hxy Hy.
  - simpl in Hy. lia.
  - cbn [pad_digits].
    assert (Hpow : (10 ^ Z.of_nat (S w) = 10 * 10 ^ Z.of_nat w)%Z).
    { rewrite Nat2Z.inj_succ, Z.pow_succ_r by lia. reflexivity. }
    assert (Hx10 : (0 <= x / 10)%Z) by (apply Z.div_pos; lia).
    assert (Hle : (x / 10 <= y / 10)%Z) by (apply Z.div_le_mono; lia).
    assert (Hy10 : (y / 10 < 10 ^ Z.of_nat w)%Z).
    { apply Z.div_lt_upper_bound; lia. }
    destruct (Z.eq_dec (x / 10)%Z (y / 10)%Z) as [Heq|Hne].
    + rewrite Heq, compare_app_same. cbn [String.compare char_str].
      rewrite digit_char_lt; [reflexivity | | ].
      * Z.div_mod_to_equations. lia.
      * Z.div_mod_to_equations. lia.
    + apply compare_app_lt.
      * now rewrite !pad_digits_length.
      * apply IH; lia.
Qed.

Lemma day_from_year_next (y : Z) :
  day_from_year (y + 1) = (day_from_year y + year_length y)%Z.
Proof.
  unfold day_from_year, year_length, is_leap.
  destruct (Z.eqb_spec (y mod 4) 0); destruct (Z.eqb_spec (y mod 100) 0);
    destruct (Z.eqb_spec (y mod 400) 0); cbn [andb orb negb];
    Z.div_mod_to_equations; lia.
Qed.

Lemma day_from_year_mono (y1 y2 : Z) :
  (y1 <= y2)%Z -> (day_from_year y1 <= day_from_year y2)%Z.
Proof.
  intros Hle. unfold day_from_year. Z.div_mod_to_equations. lia.
Qed.

Lemma day_from_year_lt (y1 y2 : Z) :
  (y1 < y2)%Z -> (day_from_year y1 + year_length y1 <= day_from_year y2)%Z.
Proof.
  intros Hlt. rewrite <- day_from_year_next. apply day_from_year_mono. lia.
Qed.

(** Case analysis on a month [m], known to lie between 1 and 12. *)
Ltac month_cases m :=
  let Hm := fresh "Hm" in
  assert (Hm : (m = 1 \/ m = 2 \/ m = 3 \/ m = 4 \/ m = 5 \/ m = 6 \/ m = 7 \/ m = 8
                \/ m = 9 \/ m = 10 \/ m = 11 \/ m = 12)%Z) by lia;
  destruct Hm as [-> | [-> | [-> | [-> | [-> | [-> | [-> | [-> | [-> | [-> | [-> | ->]]]]]]]]]]].

Lemma day_of_year_bound (y m d : Z) :
  (1 <= m <= 12)%Z -> (1 <= d <= days_in_month y m)%Z ->
  (0 <= days_before_month y m /\ days_before_month y m + d <= year_length y)%Z.
Proof.
  intros Hm Hd. unfold year_length.
  month_cases m; unfold days_before_month, days_in_month in *; destruct (is_leap y); lia.
Qed.

Lemma days_before_month_lt (y m1 m2 : Z) :
  (1 <= m1)%Z -> (m1 < m2)%Z -> (m2 <= 12)%Z ->
  (days_before_month y m1 + days_in_month y m1 <= days_before_month y m2)%Z.
Proof.
  intros H1 H12 H2.
  month_cases m1; month_cases m2; try lia;
    unfold days_before_month, days_in_month; destruct (is_leap y); lia.
Qed.

(** A date whose time value is at least a second later differs, and is
    later, in the first of the six fields of the stamp in which it differs. *)
Lemma later_fields (a b : utc) :
  valid_utc a -> valid_utc b ->
  (time_value a + 1000 <= time_value b)%Z ->
  (year a < year b \/ year a = year b /\
   (month a < month b \/ month a = month b /\
    (day a < day b \/ day a = day b /\
     (hours a < hours b \/ hours a = hours b /\
      (minutes a < minutes b \/ minutes a = minutes b /\ seconds a < seconds b)))))%Z.
Proof.
  intros (Hya & Hma & Hda & Hha & Hmia & Hsa & Hmsa) (Hyb & Hmb & Hdb & Hhb & Hmib & Hsb & Hmsb).
  unfold time_value. intros Hlater.
  pose proof (day_of_year_bound _ _ _ Hma Hda) as [Ha0 Ha1].
  pose proof (day_of_year_bound _ _ _ Hmb Hdb) as [Hb0 Hb1].
  destruct (Z.lt_trichotomy (year a) (year b)) as [Hy | [Hy | Hy]]; [now left | | ].
  2:{ exfalso. pose proof (day_from_year_lt _ _ Hy). lia. }
  right. split; [exact Hy|]. rewrite Hy in *.
  destruct (Z.lt_trichotomy (month a) (month b)) as [Hm | [Hm | Hm]]; [now left | | ].
  2:{ exfalso. pose proof (days_before_month_lt (year b) _ _ (proj1 Hmb) Hm (proj2 Hma)). lia. }
  right. split; [exact Hm|]. rewrite Hm in *.
  destruct (Z.lt_trichotomy (day a) (day b)) as [Hd | [Hd | Hd]]; [now left | | lia].
  right. split; [exact Hd|]. rewrite Hd in *.
  destruct (Z.lt_trichotomy (hours a) (hours b)) as [Hh | [Hh | Hh]]; [now left | | lia].
  right. split; [exact Hh|]. rewrite Hh in *.
  destruct (Z.lt_trichotomy (minutes a) (minutes b)) as [Hmi | [Hmi | Hmi]]; [now left | | lia].
  right. split; [exact Hmi|]. lia.
Qed.

Lemma days_in_month_le (y m : Z) : (days_in_month y m <= 31)%Z.
Proof.
  unfold days_in_month. destruct (is_leap y);
    repeat match goal with |- context [match ?x with _ => _ end] => destruct x end; lia.
Qed.

Lemma stamp_shape_length (d : utc) : String.length (stamp_shape d) = 15%nat.
Proof.
  unfold stamp_shape. rewrite !str_length_app, !pad_digits_length. reflexivity.
Qed.

Lemma stamp_shape_lt (a b : utc) :
  valid_utc a -> valid_utc b ->
  (time_value a + 1000 <= time_value b)%Z ->
  String.compare (stamp_shape a) (stamp_shape b) = Lt.
Proof.
  intros Va Vb Hlater.
  pose proof (later_fields a b Va Vb Hlater) as Hf.
  destruct Va as (Hya & Hma & Hda & Hha & Hmia & Hsa & _).
  destruct Vb as (Hyb & Hmb & Hdb & Hhb & Hmib & Hsb & _).
  pose proof (days_in_month_le (year a) (month a)).
  pose proof (days_in_month_le (year b) (month b)).
  unfold stamp_shape.
  destruct Hf as [Hy | [Hy Hf]].
  { apply compare_app_lt; [now rewrite !pad_digits_length|].
    apply pad_digits_lt; simpl; lia. }
  rewrite Hy, compare_app_same.
  destruct Hf as [Hm | [Hm Hf]].
  { apply compare_app_lt; [now rewrite !pad_digits_length|].
    apply pad_digits_lt; simpl; lia. }
  rewrite Hm, compare_app_same.
  destruct Hf as [Hd | [Hd Hf]].
  { apply compare_app_lt; [now rewrite !pad_digits_length|].
    apply pad_digits_lt; simpl; lia. }
  rewrite Hd, compare_app_same, (compare_app_same "T").
  destruct Hf as [Hh | [Hh Hf]].
  { apply compare_app_lt; [now rewrite !pad_digits_length|].
    apply pad_digits_lt; simpl; lia. }
  rewrite Hh, compare_app_same.
  destruct Hf as [Hmi | [Hmi Hs]].
  { apply compare_app_lt; [now rewrite !pad_digits_length|].
    apply pad_digits_lt; simpl; lia. }
  rewrite Hmi, compare_app_same.
  apply pad_digits_lt; simpl; lia.
Qed.

(** C8 (as amended): the archive stamp of the bulk snapshot is the first 15
    characters of the ISO timestamp without dashes and colons: year, month,
    day, the letter T, hour, minute and second (YYYYMMDDTHHmmss).  For
    four-digit years the stamps of two timestamps at least one second
    apart, in particular one hour apart, compare as strings in
    chronological order. *)
Theorem archive_stamp_sorts (a b : utc) :
  valid_utc a -> valid_utc b ->
  stamp_of (toISOString a) = stamp_shape a /\
  String.length (stamp_of (toISOString a)) = 15%nat /\
  ((time_value a + 1000 <= time_value b)%Z ->
   String.compare (stamp_of (toISOString a)) (stamp_of (toISOString b)) = Lt) /\
  (time_value b = (time_value a + 3600000)%Z ->
   String.compare (stamp_of (toISOString a)) (stamp_of (toISOString b)) = Lt).
Proof.
  intros Va Vb. rewrite !stamp_of_toISOString.
  split; [reflexivity|]. split; [apply stamp_shape_length|]. split.
  - intros Hlater. now apply stamp_shape_lt.
  - intros Hhour. apply stamp_shape_lt; [exact Va | exact Vb | lia].
Qed.

(** C8 fails as stated: the stamp keeps the letter T between date and time
    and goes down to the second; it is not the twelve digits
    year-month-day-hour-minute. *)
Lemma archive_stamp_counterexample :
  stamp_of (toISOString example_now) = "20240105T100345" /\
  stamp_of (toISOString example_now) <> "202401051003" /\
  str_has "T" (stamp_of (toISOString example_now)) = true.
Proof. vm_compute. repeat split; try reflexivity. discriminate. Qed.

(** The witness of C8 as amended: 23:30 on 31 December 2023 and 00:30 on
    1 January 2024, one hour apart. *)
Lemma archive_stamp_sorts_witness :
  String.compare
    (stamp_of (toISOString {| year := 2023; month := 12; day := 31; hours := 23;
                              minutes := 30; seconds := 0; milliseconds := 0 |}))
    (stamp_of (toISOString {| year := 2024; month := 1; day := 1; hours := 0;
                              minutes := 30; seconds := 0; milliseconds := 0 |})) = Lt.
Proof.
  apply (archive_stamp_sorts
           {| year := 2023; month := 12; day := 31; hours := 23;
              minutes := 30; seconds := 0; milliseconds := 0 |}
           {| year := 2024; month := 1; day := 1; hours := 0;
              minutes := 30; seconds := 0; milliseconds := 0 |}).
  - unfold valid_utc. simpl. lia.
  - unfold valid_utc. simpl. lia.
  - reflexivity.
Defined.

(** ** C7: the history logger *)

Lemma str_has_app (c : ascii) (s1 s2 : string) :
  str_has c (s1 +:+ s2) = str_has c s1 || str_has c s2.
Proof.
  induction s1 as [|d s1 IH]; [reflexivity|].
  change (str_has c (String d (s1 +:+ s2)) = str_has c (String d s1) || str_has c s2).
  cbn [str_has]. rewrite IH. now rewrite orb_assoc.
Qed.

Lemma count_char_app (c : ascii) (s1 s2 : string) :
  count_char c (s1 +:+ s2) = (count_char c s1 + count_char c s2)%nat.
Proof.
  induction s1 as [|d s1 IH]; [reflexivity|].
  change (count_char c (String d (s1 +:+ s2))
          = (count_char c (String d s1) + count_char c s2)%nat).
  cbn [count_char]. rewrite IH. lia.
Qed.

Lemma count_char_none (c : ascii) (s : string) :
  str_has c s = false -> count_char c s = 0%nat.
Proof.
  induction s as [|d s IH]; [reflexivity|]. cbn [str_has count_char].
  destruct (Ascii.eqb c d); [discriminate|]. intros Hs. now rewrite IH.
Qed.

Lemma split_char_line (c : ascii) (s rest : string) :
  str_has c s = false ->
  split_char c (s +:+ String c rest) = s :: split_char c rest.
Proof.
  induction s as [|d s IH]; intros Hs.
  - change (split_char c (String c rest) = "" :: split_char c rest).
    cbn [split_char]. now rewrite Ascii.eqb_refl.
  - cbn [str_has] in Hs. apply orb_false_elim in Hs as [Hd Hs].
    change (split_char c (String d (s +:+ String c rest)) = String d s :: split_char c rest).
    cbn [split_char]. rewrite Hd, (IH Hs). reflexivity.
Qed.

(** The decimal digits of a number hold no line feed. *)
Lemma digit_char_not_LF (d : Z) : (0 <= d < 10)%Z -> Ascii.eqb LF (digit_char d) = false.
Proof.
  intros Hd. digit_cases d; reflexivity.
Qed.

Lemma digits_go_no_LF (fuel : nat) (n : Z) (acc : string) :
  str_has LF acc = false -> str_has LF (digits_go fuel n acc) = false.
Proof.
  revert n acc. induction fuel as [|fuel IH]; intros n acc Hacc; cbn [digits_go]; [exact Hacc|].
  assert (Hd : str_has LF (String (digit_char (n mod 10)) acc) = false).
  { cbn [str_has]. rewrite digit_char_not_LF, Hacc; [reflexivity|].
    apply Z.mod_pos_bound. lia. }
  destruct (n / 10 =? 0)%Z; [exact Hd | now apply IH].
Qed.

Lemma int_to_string_no_LF (n : Z) : str_has LF (int_to_string n) = false.
Proof.
  unfold int_to_string, nat_digits.
  destruct (n <? 0)%Z.
  - rewrite str_has_app, digits_go_no_LF; reflexivity.
  - now apply digits_go_no_LF.
Qed.

Lemma json_escape_char_no_LF (c : ascii) : str_has LF (json_escape_char c) = false.
Proof.
  destruct c as [[] [] [] [] [] [] [] []]; reflexivity.
Qed.

Lemma json_escape_no_LF (s : string) : str_has LF (json_escape s) = false.
Proof.
  induction s as [|c s IH]; [reflexivity|]. cbn [json_escape].
  now rewrite str_has_app, json_escape_char_no_LF, IH.
Qed.

Lemma JSON_quote_no_LF (s : string) : str_has LF (JSON_quote s) = false.
Proof.
  unfold JSON_quote. cbn [str_has]. rewrite str_has_app, json_escape_no_LF. reflexivity.
Qed.

Lemma template_json_no_LF (x : option string) : str_has LF (template_json x) = false.
Proof. destruct x; [apply JSON_quote_no_LF | reflexivity]. Qed.

Lemma str_app_assoc (s1 s2 s3 : string) :
  (s1 +:+ s2) +:+ s3 = s1 +:+ (s2 +:+ s3).
Proof.
  induction s1 as [|c s1 IH]; [reflexivity|].
  change (String c ((s1 +:+ s2) +:+ s3) = String c (s1 +:+ (s2 +:+ s3))).
  now rewrite IH.
Qed.

Lemma str_app_nil_r (s : string) : s +:+ "" = s.
Proof.
  induction s as [|c s IH]; [reflexivity|].
  change (String c (s +:+ "") = String c s). now rewrite IH.
Qed.

Lemma line_is_body (o : ScanLog.scan_row) :
  ScanLog.line o = line_body o +:+ char_str LF.
Proof.
  unfold ScanLog.line, line_body. now rewrite !str_app_assoc.
Qed.

Lemma line_body_no_LF (o : ScanLog.scan_row) :
  row_ok o -> str_has LF (line_body o) = false.
Proof.
  intros [Hts Hr]. unfold line_body.
  rewrite !str_has_app, Hts, Hr, JSON_quote_no_LF, template_json_no_LF, int_to_string_no_LF.
  reflexivity.
Qed.

(** Every line holds a double quote (around the key); the header does not. *)
Lemma line_body_not_header (o : ScanLog.scan_row) : line_body o <> header_text.
Proof.
  intros Heq. apply (f_equal (str_has DQUOTE)) in Heq.
  unfold line_body, JSON_quote in Heq.
  rewrite !str_has_app in Heq. cbn [str_has] in Heq.
  rewrite Ascii.eqb_refl in Heq. cbn [orb] in Heq.
  rewrite !orb_true_r in Heq. vm_compute in Heq. discriminate.
Qed.

Lemma join_empty_cons (x : string) (l : list string) :
  join "" (x :: l) = x +:+ join "" l.
Proof.
  unfold join. cbn [String.concat]. destruct l; [|reflexivity].
  cbn [String.concat]. now rewrite str_app_nil_r.
Qed.

Lemma join_empty_app (l1 l2 : list string) :
  join "" (l1 ++ l2) = join "" l1 +:+ join "" l2.
Proof.
  induction l1 as [|x l1 IH]; [reflexivity|].
  rewrite <- app_comm_cons, !join_empty_cons, IH. now rewrite str_app_assoc.
Qed.

Lemma lines_text_count (rows : list ScanLog.scan_row) :
  Forall row_ok rows ->
  count_char LF (join "" (map ScanLog.line rows)) = length rows.
Proof.
  intros Hok. induction Hok as [|o rows Ho _ IH]; [reflexivity|].
  cbn [map length]. rewrite join_empty_cons, count_char_app, IH, line_is_body, count_char_app.
  rewrite (count_char_none _ _ (line_body_no_LF o Ho)). reflexivity.
Qed.

Lemma lines_text_split (rows : list ScanLog.scan_row) :
  Forall row_ok rows ->
  file_lines (join "" (map ScanLog.line rows)) = map line_body rows ++ [""].
Proof.
  intros Hok. unfold file_lines. induction Hok as [|o rows Ho _ IH]; [reflexivity|].
  cbn [map]. rewrite join_empty_cons, line_is_body, str_app_assoc.
  change (char_str LF +:+ join "" (map ScanLog.line rows))
    with (String LF (join "" (map ScanLog.line rows))).
  rewrite (split_char_line _ _ _ (line_body_no_LF o Ho)), IH. reflexivity.
Qed.

Lemma header_lines_split (rows : list ScanLog.scan_row) :
  Forall row_ok rows ->
  file_lines (ScanLog.header +:+ join "" (map ScanLog.line rows))
  = header_text :: map line_body rows ++ [""].
Proof.
  intros Hok. unfold file_lines, ScanLog.header. rewrite str_app_assoc.
  change (char_str LF +:+ join "" (map ScanLog.line rows))
    with (String LF (join "" (map ScanLog.line rows))).
  fold header_text.
  rewrite split_char_line by reflexivity.
  now rewrite <- (lines_text_split rows Hok).
Qed.

(** The logger on a machine without the file, and with it. *)
Lemma appendHistory_new (rows : list ScanLog.scan_row) (w : world) :
  files w !! ScanLog.outPath = None -> ScanLog.outPath ∉ dirs w ->
  files (snd (ScanLog.appendHistory rows w)) !! ScanLog.outPath
  = Some (ScanLog.header +:+ join "" (map ScanLog.line rows)) /\
  dirs (snd (ScanLog.appendHistory rows w)) = dirs w.
Proof.
  intros Hnone Hdir. unfold ScanLog.appendHistory, bind, existsSync.
  rewrite Hnone. rewrite (bool_decide_eq_false_2 _ Hdir).
  rewrite bool_decide_eq_false_2 by (intros [x Hx]; discriminate).
  cbn. rewrite lookup_insert_eq. cbn. rewrite lookup_insert_eq. split; reflexivity.
Qed.

Lemma appendHistory_old (rows : list ScanLog.scan_row) (w : world) (c : string) :
  files w !! ScanLog.outPath = Some c ->
  files (snd (ScanLog.appendHistory rows w)) !! ScanLog.outPath
  = Some (c +:+ join "" (map ScanLog.line rows)) /\
  dirs (snd (ScanLog.appendHistory rows w)) = dirs w.
Proof.
  intros Hsome. unfold ScanLog.appendHistory, bind, existsSync.
  rewrite Hsome. rewrite bool_decide_eq_true_2 by eauto.
  cbn. rewrite Hsome. cbn. rewrite lookup_insert_eq. split; reflexivity.
Qed.

Section ScanRuns.
Context {num : Type}.

(** One invocation either stops before the logger, leaving the files as
    they are, or hands its batch to the logger. *)
Lemma scan_main_files (env : environment) (now : utc) (net : network num) (w : world) :
  (files (snd (ScanLog.main env now net w)) !! ScanLog.outPath,
   dirs (snd (ScanLog.main env now net w)))
  = match scan_batch (env, now, net) with
    | Some rows =>
        (files (snd (ScanLog.appendHistory rows w)) !! ScanLog.outPath,
         dirs (snd (ScanLog.appendHistory rows w)))
    | None => (files w !! ScanLog.outPath, dirs w)
    end.
Proof.
  unfold ScanLog.main, scan_batch.
  destruct (String.eqb (ScanLog.API_KEY env) ""); [reflexivity|].
  unfold run_script, ScanLog.main_body, bind, lift.
  destruct (ScanLog.getTennisSports env net) as [all|msg]; [|reflexivity].
  destruct (ScanLog.appendHistory _ w) as [[[]|msg] w']; reflexivity.
Qed.
End ScanRuns.

Section ScanSequences.
Context {num : Type}.

Lemma run_scans_files (runs : list (environment * utc * network num)) (w : world) :
  ScanLog.outPath ∉ dirs w ->
  files (run_scans runs w) !! ScanLog.outPath
  = match logged_batches runs with
    | [] => files w !! ScanLog.outPath
    | bs => Some (default ScanLog.header (files w !! ScanLog.outPath)
                  +:+ join "" (map ScanLog.line (concat bs)))
    end.
Proof.
  revert w. induction runs as [|[[env now] net] runs IH]; intros w Hdir; [reflexivity|].
  cbn [run_scans logged_batches].
  pose proof (scan_main_files env now net w) as Hmain.
  destruct (scan_batch (env, now, net)) as [rows|].
  - destruct (files w !! ScanLog.outPath) as [c|] eqn:Hc.
    + destruct (appendHistory_old rows w c Hc) as [Hf Hd].
      rewrite Hf, Hd in Hmain. injection Hmain as Hf' Hd'.
      rewrite IH by (rewrite Hd'; exact Hdir). rewrite Hf'. cbn [default concat].
      rewrite map_app, join_empty_app.
      destruct (logged_batches runs).
      * change (join "" (map ScanLog.line (concat []))) with "".
        now rewrite str_app_nil_r.
      * unfold id. cbn [concat]. now rewrite str_app_assoc.
    + destruct (appendHistory_new rows w Hc Hdir) as [Hf Hd].
      rewrite Hf, Hd in Hmain. injection Hmain as Hf' Hd'.
      rewrite IH by (rewrite Hd'; exact Hdir). rewrite Hf'. cbn [default concat].
      rewrite map_app, join_empty_app.
      destruct (logged_batches runs).
      * change (join "" (map ScanLog.line (concat []))) with "".
        now rewrite str_app_nil_r.
      * unfold id. cbn [concat]. now rewrite str_app_assoc.
  - injection Hmain as Hf' Hd'.
    rewrite IH by (rewrite Hd'; exact Hdir). now rewrite Hf'.
Qed.

(** The rows of an invocation are well formed when its regions are: the
    timestamp is an ISO timestamp. *)
Lemma toISOString_no_LF (d : utc) : str_has LF (toISOString d) = false.
Proof.
  unfold toISOString. cbv [pad_digits char_str String.append].
  cbn [str_has].
  repeat rewrite digit_char_not_LF by (apply Z.mod_pos_bound; lia).
  reflexivity.
Qed.

Lemma scan_rows_ok (env : environment) (net : network num) (now : utc)
    (sports : list sport) :
  Forall (fun r => str_has LF r = false) (ScanLog.REGIONS env) ->
  Forall row_ok (ScanLog.scan_rows env net (toISOString now) sports).
Proof.
  intros Hreg. unfold ScanLog.scan_rows. apply List.Forall_forall. intros o Ho.
  apply in_flat_map in Ho as (s & _ & Ho). apply in_map_iff in Ho as (r & <- & Hr).
  split; cbn; [apply toISOString_no_LF|].
  rewrite List.Forall_forall in Hreg. now apply Hreg.
Qed.

Lemma logged_batches_ok (runs : list (environment * utc * network num)) :
  Forall regions_ok runs -> Forall row_ok (concat (logged_batches runs)).
Proof.
  intros Hok. induction Hok as [|[[env now] net] runs Hr _ IH]; [constructor|].
  cbn [logged_batches]. destruct (scan_batch (env, now, net)) as [rows|] eqn:Hb; [|exact IH].
  cbn [concat]. apply Forall_app. split; [|exact IH].
  unfold scan_batch in Hb. destruct (String.eqb (ScanLog.API_KEY env) ""); [discriminate|].
  destruct (ScanLog.getTennisSports env net); [|discriminate].
  injection Hb as <-. now apply scan_rows_ok.
Qed.
End ScanSequences.

Lemma header_counted_once (rows : list ScanLog.scan_row) :
  count_occ string_dec (header_text :: map line_body rows ++ [""]) header_text = 1%nat.
Proof.
  cbn [count_occ]. destruct (string_dec header_text header_text) as [_|Hne]; [|congruence].
  f_equal. rewrite count_occ_app. cbn.
  induction rows as [|o rows IH]; [reflexivity|].
  cbn [map count_occ]. destruct (string_dec (line_body o) header_text) as [Heq|_].
  - now apply line_body_not_header in Heq.
  - exact IH.
Qed.

(** C7 (as amended): the history logger writes the header line
    timestamp,key,title,region,count only when scan_history.csv does not
    exist, and otherwise appends the row lines after what is there, so an
    invocation with n rows whose region codes hold no line feed adds exactly
    n lines to an existing file.  After any sequence of invocations of
    scan_log.js whose configured region codes hold no line feed, from a
    machine without the file, the file (once an invocation has reached the
    logger) is the header followed by the lines of all logged rows in
    order: its first line is the header, no other line is, and it has one
    line per row besides. *)
Theorem history_header_once {num : Type}
    (runs : list (environment * utc * network num)) (w : world) :
  files w !! ScanLog.outPath = None ->
  ScanLog.outPath ∉ dirs w ->
  Forall regions_ok runs ->
  (forall rows w',
     files w' !! ScanLog.outPath = None -> ScanLog.outPath ∉ dirs w' ->
     files (snd (ScanLog.appendHistory rows w')) !! ScanLog.outPath
     = Some (ScanLog.header +:+ join "" (map ScanLog.line rows))) /\
  (forall rows w' c,
     files w' !! ScanLog.outPath = Some c ->
     files (snd (ScanLog.appendHistory rows w')) !! ScanLog.outPath
     = Some (c +:+ join "" (map ScanLog.line rows)) /\
     (Forall row_ok rows ->
      count_char LF (c +:+ join "" (map ScanLog.line rows))
      = (count_char LF c + length rows)%nat)) /\
  match logged_batches runs with
  | [] => files (run_scans runs w) !! ScanLog.outPath = None
  | bs =>
      exists content,
        files (run_scans runs w) !! ScanLog.outPath = Some content /\
        content = ScanLog.header +:+ join "" (map ScanLog.line (concat bs)) /\
        file_lines content = header_text :: map line_body (concat bs) ++ [""] /\
        count_occ string_dec (file_lines content) header_text = 1%nat /\
        count_char LF content = S (length (concat bs))
  end.
Proof.
  intros Hnone Hdir Hreg. split; [|split].
  - intros rows w' Hn Hd. now apply appendHistory_new.
  - intros rows w' c Hc. split; [now apply appendHistory_old|].
    intros Hok. now rewrite count_char_app, lines_text_count.
  - pose proof (run_scans_files runs w Hdir) as Hfiles.
    pose proof (logged_batches_ok runs Hreg) as Hok.
    destruct (logged_batches runs) as [|b bs]; [now rewrite Hfiles|].
    rewrite Hnone in Hfiles. cbn [default] in Hfiles.
    eexists. split; [exact Hfiles|]. split; [reflexivity|].
    rewrite (header_lines_split _ Hok). split; [reflexivity|]. split.
    + apply header_counted_once.
    + rewrite count_char_app, (lines_text_count _ Hok). reflexivity.
Qed.

(** The witness of C7: three invocations, the second without a credential. *)
Lemma history_header_once_witness :
  files (run_scans
           [ (example_env, example_now, example_net [example_match] (Rejected "fetch failed"));
             ({| ODDS_API_KEY := None; env_REGION := None; env_REGIONS := None |},
              example_now, example_net [] (Rejected "fetch failed"));
             (example_env, example_now, example_net [] (Response true 200 "OK" (JsonArray []))) ]
           empty_world) !! ScanLog.outPath
  = Some (header_text +:+ char_str LF
          +:+ "2024-01-05T10:03:45.007Z," +:+ JSON_quote "atp" +:+ "," +:+ JSON_quote "Open atp"
          +:+ ",eu,1" +:+ char_str LF
          +:+ "2024-01-05T10:03:45.007Z," +:+ JSON_quote "wta" +:+ "," +:+ JSON_quote "Open wta"
          +:+ ",eu,-1" +:+ char_str LF
          +:+ "2024-01-05T10:03:45.007Z," +:+ JSON_quote "atp" +:+ "," +:+ JSON_quote "Open atp"
          +:+ ",eu,0" +:+ char_str LF
          +:+ "2024-01-05T10:03:45.007Z," +:+ JSON_quote "wta" +:+ "," +:+ JSON_quote "Open wta"
          +:+ ",eu,0" +:+ char_str LF).
Proof.
  assert (Hnone : files empty_world !! ScanLog.outPath = None) by reflexivity.
  assert (Hdir : ScanLog.outPath ∉ dirs empty_world) by apply not_elem_of_empty.
  assert (Hreg : Forall (@regions_ok float)
            [ (example_env, example_now, example_net [example_match] (Rejected "fetch failed"));
              ({| ODDS_API_KEY := None; env_REGION := None; env_REGIONS := None |},
               example_now, example_net [] (Rejected "fetch failed"));
              (example_env, example_now, example_net [] (Response true 200 "OK" (JsonArray []))) ]).
  { repeat constructor. }
  destruct (history_header_once _ empty_world Hnone Hdir Hreg) as (_ & _ & Hseq).
  destruct Hseq as (content & Hfile & Hcontent & _).
  rewrite Hfile, Hcontent. reflexivity.
Defined.

(** C7 fails as stated when a region code of the configuration holds a line
    feed: with REGIONS set to e, a line feed, u, an invocation logs 2 rows
    and the new file has 5 line feeds; a second invocation logs 2 rows again
    and adds 4 line feeds. *)
Lemma history_lines_counterexample :
  let env := {| ODDS_API_KEY := Some "k"; env_REGION := None;
                env_REGIONS := Some ("e" +:+ char_str LF +:+ "u") |} in
  let net := example_net [example_match] (Rejected "fetch failed") in
  let w1 := snd (ScanLog.main env example_now net empty_world) in
  let w2 := snd (ScanLog.main env example_now net w1) in
  ScanLog.REGIONS env = ["e" +:+ char_str LF +:+ "u"] /\
  length (ScanLog.scan_rows env net (toISOString example_now)
            [example_sport "atp"; example_sport "wta"]) = 2%nat /\
  stdout w1 = [[CText "Appended 2 rows to scan_history.csv"]] /\
  option_map (count_char LF) (files w1 !! "scan_history.csv") = Some 5%nat /\
  stdout w2 = [[CText "Appended 2 rows to scan_history.csv"];
               [CText "Appended 2 rows to scan_history.csv"]] /\
  option_map (count_char LF) (files w2 !! "scan_history.csv") = Some 9%nat.
Proof. vm_compute. repeat split; reflexivity. Qed.

(** ** C3 and C9: what a failed market fetch does in each script *)

Section FailurePolicy.
Context {num : Type} `{JsNumber num}.

Lemma has_api_key_eqb (env : environment) :
  has_api_key env -> String.eqb (or_default (ODDS_API_KEY env) "") "" = false.
Proof. intros Hk. apply String.eqb_neq. exact Hk. Qed.


Lemma collect_throws (env : environment) (net : network num)
    (keys1 keys2 : list (string * option string)) (key : string) (t : option string)
    (all : list (record num)) (msg : string) :
  Forall (fetch_returns env net) keys1 ->
  OddsAll.fetchOddsForKey env net key = Throw msg ->
  OddsAll.collect env net (keys1 ++ (key, t) :: keys2) all = Throw msg.
Proof.
  intros Hok Hthrow. revert all.
  induction Hok as [|[k1 t1] keys1 [rows Hrows] _ IH]; intros all; simpl.
  - now rewrite Hthrow.
  - simpl in Hrows. rewrite Hrows. apply IH.
Qed.

Lemma collect_skips (env : environment) (net : network num)
    (keys1 keys2 : list (string * option string)) (key : string) (t : option string)
    (all : list (record num)) :
  OddsAll.fetchOddsForKey env net key = Ok [] ->
  OddsAll.collect env net (keys1 ++ (key, t) :: keys2) all
  = OddsAll.collect env net (keys1 ++ keys2) all.
Proof.
  intros Hnil. revert all. induction keys1 as [|[k1 t1] keys1 IH]; intros all; simpl.
  - rewrite Hnil. now rewrite app_nil_r.
  - destruct (OddsAll.fetchOddsForKey env net k1); [apply IH | reflexivity].
Qed.

Lemma bulk_main_throws (env : environment) (now : utc) (net : network num)
    (w : world) (keys : list (string * option string)) (msg : string) :
  has_api_key env ->
  OddsAll.getActiveTennisKeys net = Ok keys ->
  OddsAll.collect env net keys [] = Throw msg ->
  OddsAll.main env now net w = (1%Z, with_error msg w).
Proof.
  intros Hk Hkeys Hcol. unfold OddsAll.main. rewrite (has_api_key_eqb env Hk).
  unfold run_script, OddsAll.main_body, bind, lift. rewrite Hkeys, Hcol. reflexivity.
Qed.

End FailurePolicy.

Section FailurePolicyClaims.
Context {num : Type} `{JsNumber num}.

Lemma scan_rows_In (env : environment) (net : network num) (ts : string)
    (sports : list sport) (s : sport) (r : string) :
  In s sports -> In r (ScanLog.REGIONS env) ->
  In {| ScanLog.r_ts := ts; ScanLog.r_key := s_key s; ScanLog.r_title := s_title s;
        ScanLog.r_region := r;
        ScanLog.r_count := ScanLog.countEvents env net (s_key s) r |}
     (ScanLog.scan_rows env net ts sports).
Proof.
  intros Hs Hr. unfold ScanLog.scan_rows. apply in_flat_map. exists s. split; [exact Hs|].
  apply in_map_iff. exists r. split; [reflexivity | exact Hr].
Qed.

(** An invocation of the history scan that gets its catalog completes, and
    the file then ends with the lines of its rows. *)
Lemma scan_main_completes (env : environment) (now : utc) (net : network num) (w : world)
    (all : list sport) :
  has_api_key env ->
  ScanLog.getTennisSports env net = Ok all ->
  ScanLog.outPath ∉ dirs w ->
  fst (ScanLog.main env now net w) = 0%Z /\
  files (snd (ScanLog.main env now net w)) !! ScanLog.outPath
  = Some (default ScanLog.header (files w !! ScanLog.outPath)
          +:+ join "" (map ScanLog.line
                         (ScanLog.scan_rows env net (toISOString now)
                            (List.filter s_active all)))) /\
  stdout (snd (ScanLog.main env now net w))
  = stdout w ++
    [[CText ("Appended "
             +:+ int_to_string
                   (Z.of_nat (length (ScanLog.scan_rows env net (toISOString now)
                                        (List.filter s_active all))))
             +:+ " rows to scan_history.csv")]].
Proof.
  intros Hk Hall Hdir.
  set (rows := ScanLog.scan_rows env net (toISOString now) (List.filter s_active all)).
  assert (Hmain : ScanLog.main env now net w = (0%Z, snd (ScanLog.appendHistory rows w))).
  { unfold ScanLog.main. unfold has_api_key in Hk. fold (ScanLog.API_KEY env) in Hk.
    apply String.eqb_neq in Hk. rewrite Hk.
    unfold run_script, ScanLog.main_body, bind, lift. rewrite Hall. fold rows.
    destruct (ScanLog.appendHistory rows w) as [[[]|msg] w'] eqn:Ea; [reflexivity|].
    unfold ScanLog.appendHistory, bind, existsSync in Ea.
    destruct (bool_decide _ || bool_decide _) in Ea; discriminate Ea. }
  rewrite Hmain. cbn [fst snd]. split; [reflexivity|]. split.
  - destruct (files w !! ScanLog.outPath) as [c|] eqn:Hc.
    + exact (proj1 (appendHistory_old rows w c Hc)).
    + exact (proj1 (appendHistory_new rows w Hc Hdir)).
  - unfold ScanLog.appendHistory, bind, existsSync.
    destruct (bool_decide _ || bool_decide _); reflexivity.
Qed.

Lemma lines_hold (rows : list ScanLog.scan_row) (o : ScanLog.scan_row) (start : string) :
  In o rows -> holds_text (ScanLog.line o) (start +:+ join "" (map ScanLog.line rows)).
Proof.
  intros Ho. apply in_split in Ho as (l1 & l2 & ->).
  exists (start +:+ join "" (map ScanLog.line l1)), (join "" (map ScanLog.line l2)).
  rewrite map_app, join_empty_app. cbn [map]. rewrite join_empty_cons.
  now rewrite !str_app_assoc.
Qed.

(** The row of every pair of an active competition and a region is written
    to the history file, with the count that [countEvents] gave. *)
Lemma scan_main_records (env : environment) (now : utc) (net : network num) (w : world)
    (all : list sport) (s : sport) (region : string) :
  has_api_key env ->
  ScanLog.getTennisSports env net = Ok all ->
  ScanLog.outPath ∉ dirs w ->
  In s all -> s_active s = true -> In region (ScanLog.REGIONS env) ->
  fst (ScanLog.main env now net w) = 0%Z /\
  exists content,
    files (snd (ScanLog.main env now net w)) !! ScanLog.outPath = Some content /\
    holds_text (ScanLog.line (logged_row env now net s region)) content.
Proof.
  intros Hk Hall Hdir Hs Ha Hr.
  destruct (scan_main_completes env now net w all Hk Hall Hdir) as (H0 & Hf & _).
  split; [exact H0|]. eexists. split; [exact Hf|].
  apply lines_hold. apply scan_rows_In; [|exact Hr].
  apply filter_In. now split.
Qed.



Lemma cli_fetch_throws (RegExp_i : string -> result (string -> bool))
    (env : environment) (now : utc) (net : network num)
    (key : string) (rest : list string) (w : world) (msg : string) :
  has_api_key env -> key <> "" ->
  Odds.fetchOddsForKey RegExp_i env now net key (cli_flags rest) w = (Throw msg, w) ->
  Odds.main RegExp_i env now net ("fetch" :: key :: rest) w = (1%Z, with_error msg w).
Proof.
  intros Hk Hkey Hthrow. unfold Odds.main. rewrite (has_api_key_eqb env Hk).
  unfold run_script, Odds.cli_body. cbn [nth_error skipn].
  apply String.eqb_neq in Hkey. rewrite Hkey.
  change (skipn 0 rest) with rest.
  change (Odds.parse_flags (length rest) rest _) with (cli_flags rest).
  rewrite Hthrow. reflexivity.
Qed.


End FailurePolicyClaims.


(** C9 fails in the bulk snapshot.  With the market fetch of the second
    competition rejected, the run ends with exit status 1, the message on
    the error console and no file, although the first competition had a row;
    answered by a 500 response instead, the same run completes and writes
    that row.  The history scan of the upstream with the rejected fetch
    completes and logs the count -1 for the pair. *)
Lemma bulk_transport_failure_aborts :
  OddsAll.main example_env example_now
    (example_net [example_match] (Rejected "fetch failed")) empty_world
  = (1%Z, with_error "fetch failed" empty_world) /\
  fst (OddsAll.main example_env example_now
         (example_net [example_match] (Response false 500 "Internal Server Error" JsonOther))
         empty_world) = 0%Z /\
  files (snd (OddsAll.main example_env example_now
                (example_net [example_match]
                   (Response false 500 "Internal Server Error" JsonOther))
                empty_world)) !! "data/odds_latest.csv"
  = Some ("event_id,start,player1,player2,odds1,odds2,prob1,prob2,bookmaker,sport_key,region"
          +:+ char_str LF
          +:+ "m1,2024-06-01T12:00:00Z,Alice,Bob,1.8,2.2,0.5500,0.4500,First,atp,eu") /\
  fst (ScanLog.main example_env example_now
         (example_net [example_match] (Rejected "fetch failed")) empty_world) = 0%Z /\
  files (snd (ScanLog.main example_env example_now
                (example_net [example_match] (Rejected "fetch failed")) empty_world))
    !! "scan_history.csv"
  = Some ("timestamp,key,title,region,count" +:+ char_str LF
          +:+ "2024-01-05T10:03:45.007Z," +:+ JSON_quote "atp" +:+ "," +:+ JSON_quote "Open atp"
          +:+ ",eu,1" +:+ char_str LF
          +:+ "2024-01-05T10:03:45.007Z," +:+ JSON_quote "wta" +:+ "," +:+ JSON_quote "Open wta"
          +:+ ",eu,-1" +:+ char_str LF).
Proof. vm_compute. repeat split; reflexivity. Qed.

Section TransportFailure.
Context {num : Type} `{JsNumber num}.

(** X27: a transport failure of a market fetch (a rejected [fetch]).  The
    history scan catches it: [countEvents] is -1, the invocation ends with
    exit status 0 and scan_history.csv holds the line of the pair with the
    count -1.  The bulk snapshot does not: [fetchOddsForKey] throws, and
    when the fetches of the competitions before it return, the run ends with
    exit status 1, the message on the error console and no file written. *)
Theorem transport_failure_outcomes
    (env : environment) (now : utc) (net : network num) (key msg : string) :
  (forall region w all s,
     get_odds net key region = Rejected msg ->
     has_api_key env ->
     ScanLog.getTennisSports env net = Ok all ->
     ScanLog.outPath ∉ dirs w ->
     In s all -> s_active s = true -> s_key s = key -> In region (ScanLog.REGIONS env) ->
     ScanLog.countEvents env net key region = (-1)%Z /\
     fst (ScanLog.main env now net w) = 0%Z /\
     exists content,
       files (snd (ScanLog.main env now net w)) !! ScanLog.outPath = Some content /\
       holds_text
         (ScanLog.line {| ScanLog.r_ts := toISOString now; ScanLog.r_key := key;
                          ScanLog.r_title := s_title s; ScanLog.r_region := region;
                          ScanLog.r_count := (-1)%Z |})
         content) /\
  (get_odds net key (OddsAll.REGION env) = Rejected msg ->
   OddsAll.fetchOddsForKey env net key = Throw msg /\
   forall keys1 t keys2 w,
     has_api_key env ->
     OddsAll.getActiveTennisKeys net = Ok (keys1 ++ (key, t) :: keys2) ->
     Forall (fetch_returns env net) keys1 ->
     OddsAll.main env now net w = (1%Z, with_error msg w)).
Proof.
  split.
  - intros region w all s Hres Hk Hall Hdir Hs Ha Hkey Hr.
    assert (Hcount : ScanLog.countEvents env net key region = (-1)%Z).
    { unfold ScanLog.countEvents, ScanLog.fetchJSON. now rewrite Hres. }
    split; [exact Hcount|].
    destruct (scan_main_records env now net w all s region Hk Hall Hdir Hs Ha Hr)
      as (H0 & content & Hf & Hline).
    split; [exact H0|]. exists content. split; [exact Hf|].
    unfold logged_row in Hline. now rewrite Hkey, Hcount in Hline.
  - intros Hres.
    assert (Hthrow : OddsAll.fetchOddsForKey env net key = Throw msg).
    { unfold OddsAll.fetchOddsForKey. now rewrite Hres. }
    split; [exact Hthrow|]. intros keys1 t keys2 w Hk Hkeys Hok.
    eapply bulk_main_throws; [exact Hk | exact Hkeys |].
    now apply collect_throws.
Qed.

End TransportFailure.

(** ** C5 and C6: the CSV serializer *)

Lemma str_app_cons (c : ascii) (s t : string) :
  String c s +:+ t = String c (s +:+ t).
Proof. reflexivity. Qed.

Lemma str_app_nil_l (s : string) : "" +:+ s = s.
Proof. reflexivity. Qed.

Lemma plain_cons (c : ascii) (s : string) :
  plain (String c s) ->
  Ascii.eqb c DQUOTE = false /\ Ascii.eqb c COMMA = false /\ Ascii.eqb c LF = false
  /\ Ascii.eqb c CR = false /\ plain s.
Proof.
  unfold plain. cbn [str_has]. rewrite !(Ascii.eqb_sym _ c).
  intros (H1 & H2 & H3 & H4).
  apply orb_false_elim in H1 as [? ?]. apply orb_false_elim in H2 as [? ?].
  apply orb_false_elim in H3 as [? ?]. apply orb_false_elim in H4 as [? ?].
  repeat split; assumption.
Qed.

(** Reading the rest of an unquoted field. *)
Lemma read_unquoted (s rest f : string) (rec : list string) (done : list (list string)) :
  plain s ->
  read_csv InUnquoted f rec done (s +:+ rest) = read_csv InUnquoted (f +:+ s) rec done rest.
Proof.
  revert f. induction s as [|c s IH]; intros f Hs.
  - now rewrite str_app_nil_r.
  - apply plain_cons in Hs as (Hq & Hc & Hl & Hr & Hs).
    rewrite str_app_cons. cbn [read_csv]. rewrite Hq, Hc, Hl, Hr.
    rewrite (IH _ Hs). now rewrite str_app_assoc.
Qed.

(** A plain field followed by a comma, by a line feed, or by the end. *)
Lemma read_plain_comma (s rest : string) (rec : list string) (done : list (list string)) :
  plain s ->
  read_csv AtFieldStart "" rec done (s +:+ String COMMA rest)
  = read_csv AtFieldStart "" (rec ++ [s]) done rest.
Proof.
  intros Hs. destruct s as [|c s]; [reflexivity|].
  pose proof (plain_cons _ _ Hs) as (Hq & Hc & Hl & Hr & Hs').
  rewrite str_app_cons. cbn [read_csv]. rewrite Hq, Hc, Hl, Hr.
  rewrite (read_unquoted _ _ _ _ _ Hs'). reflexivity.
Qed.

Lemma read_plain_LF (s rest : string) (rec : list string) (done : list (list string)) :
  plain s ->
  read_csv AtFieldStart "" rec done (s +:+ String LF rest)
  = read_csv AtFieldStart "" [] (done ++ [rec ++ [s]]) rest.
Proof.
  intros Hs. destruct s as [|c s]; [reflexivity|].
  pose proof (plain_cons _ _ Hs) as (Hq & Hc & Hl & Hr & Hs').
  rewrite str_app_cons. cbn [read_csv]. rewrite Hq, Hc, Hl, Hr.
  rewrite (read_unquoted _ _ _ _ _ Hs'). reflexivity.
Qed.

Lemma read_plain_end (s : string) (rec : list string) (done : list (list string)) :
  plain s -> s <> "" \/ rec <> [] ->
  read_csv AtFieldStart "" rec done s = Some (done ++ [rec ++ [s]]).
Proof.
  intros Hs Hne. destruct s as [|c s].
  - destruct Hne as [Hne|Hne]; [congruence|]. cbn [read_csv].
    destruct rec; [congruence | reflexivity].
  - pose proof (plain_cons _ _ Hs) as (Hq & Hc & Hl & Hr & Hs').
    cbn [read_csv]. rewrite Hq, Hc, Hl, Hr.
    rewrite <- (str_app_nil_r s) at 1.
    rewrite (read_unquoted _ _ _ _ _ Hs'). reflexivity.
Qed.

(** Reading the body of a quoted field up to its closing quote. *)
Lemma read_quoted_body (s rest f : string) (rec : list string) (done : list (list string)) :
  read_csv InQuoted f rec done
    (replace_char DQUOTE (String DQUOTE (char_str DQUOTE)) s +:+ String DQUOTE rest)
  = read_csv AfterQuote (f +:+ s) rec done rest.
Proof.
  revert f. induction s as [|c s IH]; intros f.
  - rewrite str_app_nil_r. cbn [replace_char]. rewrite str_app_nil_l.
    cbn [read_csv]. now rewrite Ascii.eqb_refl.
  - cbn [replace_char]. rewrite str_app_assoc.
    destruct (Ascii.eqb DQUOTE c) eqn:Hc.
    + apply Ascii.eqb_eq in Hc. subst c.
      unfold char_str at 1. rewrite !str_app_cons, str_app_nil_l.
      cbn [read_csv]. rewrite !Ascii.eqb_refl.
      rewrite IH. now rewrite str_app_assoc.
    + unfold char_str at 1. rewrite str_app_cons, str_app_nil_l. cbn [read_csv].
      rewrite Ascii.eqb_sym, Hc.
      rewrite IH. now rewrite str_app_assoc.
Qed.

Lemma quoted_app (s t : string) :
  quoted s +:+ t
  = String DQUOTE (replace_char DQUOTE (String DQUOTE (char_str DQUOTE)) s +:+ String DQUOTE t).
Proof. unfold quoted. rewrite !str_app_assoc. reflexivity. Qed.

Lemma read_quoted_comma (s rest : string) (rec : list string) (done : list (list string)) :
  read_csv AtFieldStart "" rec done (quoted s +:+ String COMMA rest)
  = read_csv AtFieldStart "" (rec ++ [s]) done rest.
Proof.
  rewrite quoted_app. cbn [read_csv]. rewrite Ascii.eqb_refl.
  rewrite read_quoted_body. reflexivity.
Qed.

Lemma read_quoted_LF (s rest : string) (rec : list string) (done : list (list string)) :
  read_csv AtFieldStart "" rec done (quoted s +:+ String LF rest)
  = read_csv AtFieldStart "" [] (done ++ [rec ++ [s]]) rest.
Proof.
  rewrite quoted_app. cbn [read_csv]. rewrite Ascii.eqb_refl.
  rewrite read_quoted_body. reflexivity.
Qed.

Lemma read_quoted_end (s : string) (rec : list string) (done : list (list string)) :
  read_csv AtFieldStart "" rec done (quoted s) = Some (done ++ [rec ++ [s]]).
Proof.
  rewrite <- (str_app_nil_r (quoted s)), quoted_app. cbn [read_csv].
  rewrite Ascii.eqb_refl. rewrite read_quoted_body. reflexivity.
Qed.

Lemma needs_quoting_false (s : string) :
  needs_quoting s = false ->
  str_has DQUOTE s = false /\ str_has COMMA s = false /\ str_has LF s = false.
Proof.
  unfold needs_quoting. intros Hq.
  apply orb_false_elim in Hq as [Hq Hl]. apply orb_false_elim in Hq as [Hq Hc].
  now repeat split.
Qed.

Lemma rendered_cases (s : string) :
  readable s ->
  (needs_quoting s = true /\ rendered s = quoted s) \/
  (needs_quoting s = false /\ rendered s = s /\ plain s).
Proof.
  intros Hr. unfold rendered. destruct (needs_quoting s) eqn:Hq; [left; now split|].
  right. destruct (needs_quoting_false s Hq) as (H1 & H2 & H3).
  repeat split; try assumption. now apply Hr.
Qed.

Lemma read_rendered_comma (s rest : string) (rec : list string) (done : list (list string)) :
  readable s ->
  read_csv AtFieldStart "" rec done (rendered s +:+ String COMMA rest)
  = read_csv AtFieldStart "" (rec ++ [s]) done rest.
Proof.
  intros Hr. destruct (rendered_cases s Hr) as [[_ ->] | (_ & -> & Hp)].
  - apply read_quoted_comma.
  - now apply read_plain_comma.
Qed.

Lemma read_rendered_LF (s rest : string) (rec : list string) (done : list (list string)) :
  readable s ->
  read_csv AtFieldStart "" rec done (rendered s +:+ String LF rest)
  = read_csv AtFieldStart "" [] (done ++ [rec ++ [s]]) rest.
Proof.
  intros Hr. destruct (rendered_cases s Hr) as [[_ ->] | (_ & -> & Hp)].
  - apply read_quoted_LF.
  - now apply read_plain_LF.
Qed.

Lemma read_rendered_end (s : string) (rec : list string) (done : list (list string)) :
  readable s -> rendered s <> "" \/ rec <> [] ->
  read_csv AtFieldStart "" rec done (rendered s) = Some (done ++ [rec ++ [s]]).
Proof.
  intros Hr Hne. destruct (rendered_cases s Hr) as [[_ E] | (_ & E & Hp)]; rewrite E in *.
  - apply read_quoted_end.
  - now apply read_plain_end.
Qed.

Lemma join_cons2 (sep x y : string) (l : list string) :
  join sep (x :: y :: l) = x +:+ sep +:+ join sep (y :: l).
Proof. reflexivity. Qed.

(** A line of rendered fields, followed by a line feed or by the end. *)
Lemma read_line_LF (texts : list string) (rest : string) (rec : list string)
    (done : list (list string)) :
  texts <> [] -> Forall readable texts ->
  read_csv AtFieldStart "" rec done (join "," (map rendered texts) +:+ String LF rest)
  = read_csv AtFieldStart "" [] (done ++ [rec ++ texts]) rest.
Proof.
  intros Hne Hok. revert rec. induction Hok as [|x l Hx Hl IH]; intros rec; [congruence|].
  destruct l as [|y l].
  - cbn [map]. unfold join. cbn [String.concat]. now apply read_rendered_LF.
  - cbn [map]. rewrite join_cons2, !str_app_assoc.
    change ("," +:+ (join "," (rendered y :: map rendered l) +:+ String LF rest))
      with (String COMMA (join "," (map rendered (y :: l)) +:+ String LF rest)).
    rewrite (read_rendered_comma _ _ _ _ Hx), IH by discriminate.
    now rewrite <- app_assoc.
Qed.

Lemma read_line_end (texts : list string) (rec : list string) (done : list (list string)) :
  texts <> [] -> Forall readable texts ->
  join "," (map rendered texts) <> "" \/ rec <> [] ->
  read_csv AtFieldStart "" rec done (join "," (map rendered texts))
  = Some (done ++ [rec ++ texts]).
Proof.
  intros Hne Hok. revert rec. induction Hok as [|x l Hx Hl IH]; intros rec Hline; [congruence|].
  destruct l as [|y l].
  - cbn [map] in *. unfold join in *. cbn [String.concat] in *. now apply read_rendered_end.
  - cbn [map]. rewrite join_cons2.
    change ("," +:+ join "," (rendered y :: map rendered l))
      with (String COMMA (join "," (map rendered (y :: l)))).
    rewrite (read_rendered_comma _ _ _ _ Hx), IH.
    + now rewrite <- app_assoc.
    + discriminate.
    + right. now destruct rec.
Qed.

(** A whole table: lines joined by line feeds, the last one not empty. *)
Lemma read_table (table : list (list string)) (done : list (list string)) :
  table <> [] ->
  Forall (fun texts => texts <> [] /\ Forall readable texts) table ->
  join "," (map rendered (List.last table [])) <> "" ->
  read_csv AtFieldStart "" [] done
    (join (char_str LF) (map (fun texts => join "," (map rendered texts)) table))
  = Some (done ++ table).
Proof.
  intros Hne Hok. revert done. induction Hok as [|t l [Ht Hr] Hl IH]; intros done Hlast;
    [congruence|].
  destruct l as [|u l].
  - cbn [map List.last] in *. unfold join at 1. cbn [String.concat].
    rewrite read_line_end; [reflexivity | exact Ht | exact Hr | now left].
  - cbn [map]. rewrite join_cons2.
    change (char_str LF +:+ join (char_str LF)
              (join "," (map rendered u) :: map (fun texts => join "," (map rendered texts)) l))
      with (String LF (join (char_str LF)
              (map (fun texts => join "," (map rendered texts)) (u :: l)))).
    rewrite (read_line_LF _ _ _ _ Ht Hr), IH.
    + now rewrite <- app_assoc.
    + discriminate.
    + exact Hlast.
Qed.

Lemma prefix_app (p s : string) : String.prefix p (p +:+ s) = true.
Proof.
  induction p as [|c p IH]; [now destruct s|].
  rewrite str_app_cons. cbn [String.prefix].
  destruct (ascii_dec c c) as [_|Hne]; [exact IH | congruence].
Qed.



Lemma replace_char_absent (c : ascii) (by_ s : string) :
  str_has c s = false -> replace_char c by_ s = s.
Proof.
  induction s as [|d s IH]; [reflexivity|]. cbn [str_has replace_char].
  intros Hs. apply orb_false_elim in Hs as [Hd Hs]. now rewrite Hd, (IH Hs).
Qed.

Lemma plain_rendered (k : string) : plain k -> rendered k = k /\ readable k.
Proof.
  intros (H1 & H2 & H3 & H4). unfold rendered, readable, needs_quoting.
  rewrite H1, H2, H3. now split.
Qed.

Lemma map_rendered_plain (keys : list string) :
  Forall plain keys -> map rendered keys = keys.
Proof.
  intros Hk. induction Hk as [|k keys Hk _ IH]; [reflexivity|].
  cbn [map]. now rewrite (proj1 (plain_rendered k Hk)), IH.
Qed.

Lemma last_map {A B : Type} (f : A -> B) (l : list A) (d : A) (d' : B) :
  l <> [] -> List.last (map f l) d' = f (List.last l d).
Proof.
  induction l as [|a l IH]; [congruence|]. intros _.
  destruct l as [|b l]; [reflexivity|].
  change (List.last (map f (b :: l)) d' = f (List.last (b :: l) d)).
  apply IH. discriminate.
Qed.

Lemma last_In {A : Type} (l : list A) (d : A) : l <> [] -> In (List.last l d) l.
Proof.
  induction l as [|a l IH]; [congruence|]. intros _.
  destruct l as [|b l]; [now left|].
  right. change (In (List.last (b :: l) d) (b :: l)). apply IH. discriminate.
Qed.

Section CsvProps.
Context {num : Type} `{JsNumber num}.

Lemma esc_rendered (v : value num) : esc v = rendered (field_text v).
Proof. destruct v; reflexivity. Qed.

Lemma get_keys (r : record num) :
  List.NoDup (map fst r) -> map (fun h => get r h) (map fst r) = map snd r.
Proof.
  induction r as [|[k v] r IH]; intros Hnd; [reflexivity|].
  cbn [map fst snd] in *. apply List.NoDup_cons_iff in Hnd as [Hk Hnd].
  cbn [get]. rewrite String.eqb_refl. f_equal.
  rewrite <- (IH Hnd). apply map_ext_in. intros h Hh.
  destruct (String.eqb_spec k h) as [->|_]; [contradiction | reflexivity].
Qed.

Lemma fields_uniform (keys : list string) (r : record num) :
  List.NoDup keys -> map fst r = keys ->
  map (fun h => esc (get r h)) keys = map (fun kv => esc (snd kv)) r.
Proof.
  intros Hnd <-. rewrite <- (map_map (fun h => get r h) esc), (get_keys r Hnd).
  now rewrite map_map.
Qed.

Lemma csv_line_uniform (keys : list string) (r : record num) :
  List.NoDup keys -> map fst r = keys ->
  csv_line keys r = join "," (map rendered (map (fun kv => field_text (snd kv)) r)).
Proof.
  intros Hnd Hk. unfold csv_line. rewrite (fields_uniform keys r Hnd Hk), map_map.
  f_equal. apply map_ext. intros kv. apply esc_rendered.
Qed.

Lemma combine_texts (r : record num) :
  combine (map fst r) (map (fun kv => field_text (snd kv)) r) = record_texts r.
Proof.
  unfold record_texts. induction r as [|kv r IH]; [reflexivity|].
  cbn [map combine]. now rewrite IH.
Qed.


(** C6 (as amended): for records of one shape whose keys hold no comma,
    double quote, line feed or carriage return, whose values that are
    written unquoted hold no carriage return, and whose last line is not
    empty, an RFC 4180 reader gives back from [toCsv] every record, field
    by field, each value as its text; the values may hold commas, double
    quotes and line feeds. *)
Theorem toCsv_round_trip (r0 : record num) (rs : list (record num)) :
  uniform (r0 :: rs) ->
  Forall plain (Object_keys r0) ->
  Forall (fun r => Forall (fun kv => readable (field_text (snd kv))) r) (r0 :: rs) ->
  csv_line (Object_keys r0) (List.last (r0 :: rs) r0) <> "" ->
  read_records (toCsv (r0 :: rs)) = Some (map record_texts (r0 :: rs)).
Proof.
  intros [Hnd Hall] Hkeys Hvals Hlast.
  set (rows := r0 :: rs) in *. set (keys := Object_keys r0) in *.
  set (texts := fun r : record num => map (fun kv => field_text (snd kv)) r).
  assert (Hline : forall r, In r rows -> csv_line keys r = join "," (map rendered (texts r))).
  { intros r Hr. rewrite List.Forall_forall in Hall.
    apply csv_line_uniform; [exact Hnd | now apply Hall]. }
  assert (Hcsv : toCsv rows
                 = join (char_str LF)
                     (map (fun ts => join "," (map rendered ts)) (keys :: map texts rows))).
  { unfold toCsv, rows. fold rows. fold keys. cbn [map].
    rewrite (map_rendered_plain keys Hkeys). f_equal. f_equal.
    rewrite map_map. apply map_ext_in. intros r Hr.
    change (join "," (map (fun h => esc (get r h)) keys)) with (csv_line keys r).
    now apply Hline. }
  assert (Hkne : keys <> []).
  { intros Hk. apply Hlast. unfold csv_line. now rewrite Hk. }
  assert (Hlen : forall r, In r rows -> texts r <> []).
  { intros r Hr Ht. rewrite List.Forall_forall in Hall. apply Hkne.
    unfold keys, Object_keys. rewrite <- (Hall r Hr).
    unfold texts in Ht. apply map_eq_nil in Ht. now rewrite Ht. }
  unfold read_records, parse_csv. rewrite Hcsv, read_table.
  - cbn [option_map app csv_records]. f_equal. rewrite map_map.
    apply map_ext_in. intros r Hr. rewrite List.Forall_forall in Hall.
    unfold keys, Object_keys. rewrite <- (Hall r Hr). apply combine_texts.
  - discriminate.
  - constructor.
    + split; [exact Hkne|]. apply List.Forall_forall. intros k Hk.
      rewrite List.Forall_forall in Hkeys. now apply plain_rendered, Hkeys.
    + apply List.Forall_forall. intros ts Hts. apply in_map_iff in Hts as (r & <- & Hr).
      split; [now apply Hlen|]. apply List.Forall_forall. intros t Ht.
      apply in_map_iff in Ht as (kv & <- & Hkv).
      rewrite List.Forall_forall in Hvals. specialize (Hvals r Hr).
      rewrite List.Forall_forall in Hvals. now apply Hvals.
  - assert (Elast : List.last (keys :: map texts rows) [] = texts (List.last rows r0)).
    { change (List.last (keys :: map texts rows) []) with (List.last (map texts rows) []).
      apply last_map. discriminate. }
    rewrite Elast, <- Hline; [exact Hlast|]. apply last_In. discriminate.
Qed.
End CsvProps.


(** C6 fails as stated.  A single column whose last value is empty ends the
    text with a line feed, which a reader takes for the end of the last
    record: one record comes back of two.  A key with a comma is written
    unquoted and comes back as two columns. *)
Lemma toCsv_round_trip_counterexample :
  (uniform example_single_column /\
   toCsv example_single_column = "a" +:+ char_str LF +:+ "x" +:+ char_str LF /\
   read_records (toCsv example_single_column) = Some [[("a", "x")]] /\
   map record_texts example_single_column = [[("a", "x")]; [("a", "")]]) /\
  (uniform example_comma_key /\
   toCsv example_comma_key = "a,b" +:+ char_str LF +:+ "x" /\
   read_records (toCsv example_comma_key) = Some [[("a", "x")]] /\
   map record_texts example_comma_key = [[("a,b", "x")]]).
Proof.
  split; (split; [split; [repeat constructor; cbn; intuition discriminate
                         | repeat constructor]
                 | vm_compute; repeat split; reflexivity]).
Qed.

(** The witness of C6 as amended: the two example records come back. *)
Lemma toCsv_round_trip_witness :
  read_records (toCsv example_records)
  = Some [ [ ("name", "Doe, Jane");
             ("note", "she said " +:+ char_str DQUOTE +:+ "hi" +:+ char_str DQUOTE);
             ("odds", "1.5") ];
           [ ("name", "line one" +:+ char_str LF +:+ "line two");
             ("note", "");
             ("odds", "3") ] ].
Proof.
  assert (Hu : uniform (hd [] example_records :: tl example_records)).
  { split; [repeat constructor; cbn; intuition discriminate | repeat constructor]. }
  assert (Hk : Forall plain (Object_keys (hd [] example_records))).
  { repeat constructor. }
  assert (Hv : Forall (fun r => Forall (fun kv => readable (field_text (snd kv))) r)
                 (hd [] example_records :: tl example_records)).
  { repeat constructor; intros Hq; solve [reflexivity | discriminate Hq]. }
  assert (Hl : csv_line (Object_keys (hd [] example_records))
                 (List.last (hd [] example_records :: tl example_records)
                    (hd [] example_records)) <> "").
  { vm_compute. discriminate. }
  pose proof (toCsv_round_trip (hd [] example_records) (tl example_records) Hu Hk Hv Hl) as E.
  vm_compute in E. vm_compute. exact E.
Defined.

(** ** Further properties of the scripts *)

(** The examples of the specification, in binary64: odds 1.8 and 2.2 are
    persisted as 0.5500 and 0.4500, odds 2 and 2 give one half each. *)
Lemma spec_examples_binary64 :
  map num_toFixed4 (normalizeDecimalOddsToProbs [0x1.ccccccccccccdp+0; 0x1.199999999999ap+1]%float)
  = ["0.5500"; "0.4500"] /\
  map num_toString [0x1.ccccccccccccdp+0; 0x1.199999999999ap+1]%float = ["1.8"; "2.2"] /\
  normalizeDecimalOddsToProbs [2; 2]%float = [0.5; 0.5]%float /\
  map num_toFixed4 (normalizeDecimalOddsToProbs [2; 2]%float) = ["0.5000"; "0.5000"].
Proof. vm_compute. repeat split; reflexivity. Qed.



(** X4: without the credential each script reports the error and ends with
    exit status 1 before any request; no file is written. *)
Lemma missing_credential_is_fatal {num : Type} `{JsNumber num}
    (RegExp_i : string -> result (string -> bool)) (env : environment) (now : utc)
    (net : network num) (args : list string) (w : world) :
  or_default (ODDS_API_KEY env) "" = "" ->
  OddsAll.main env now net w
  = (1%Z, {| files := files w; dirs := dirs w; stdout := stdout w;
             stderr := stderr w ++ [[CText "ERROR: Missing ODDS_API_KEY"]] |}) /\
  Odds.main RegExp_i env now net args w
  = (1%Z, {| files := files w; dirs := dirs w; stdout := stdout w;
             stderr := stderr w ++ [[CText "ERROR: Missing ODDS_API_KEY in .env"]] |}) /\
  ScanLog.main env now net w
  = (1%Z, {| files := files w; dirs := dirs w; stdout := stdout w;
             stderr := stderr w ++ [[CText "ERROR: Missing ODDS_API_KEY in .env"]] |}).
Proof.
  intros Hk. unfold OddsAll.main, Odds.main, ScanLog.main, ScanLog.API_KEY.
  rewrite Hk. repeat split; reflexivity.
Qed.

Lemma missing_credential_is_fatal_witness :
  fst (ScanLog.main {| ODDS_API_KEY := None; env_REGION := None; env_REGIONS := None |}
         example_now (example_net [example_match] (Rejected "fetch failed")) empty_world)
  = 1%Z.
Proof.
  destruct (missing_credential_is_fatal no_regexp
              {| ODDS_API_KEY := None; env_REGION := None; env_REGIONS := None |}
              example_now (example_net [example_match] (Rejected "fetch failed")) []
              empty_world eq_refl) as (_ & _ & Hscan).
  now rewrite Hscan.
Defined.

(** X5: a failure of the catalog fetch, by status or by transport, is fatal
    in the three scripts: the error is reported, the exit status is 1 and no
    file is written. *)
Lemma catalog_failure_is_fatal {num : Type} `{JsNumber num}
    (RegExp_i : string -> result (string -> bool)) (env : environment) (now : utc)
    (net : network num) (rest : list string) (w : world) :
  has_api_key env ->
  (forall status statusText b,
     get_sports net = Response false status statusText b ->
     OddsAll.main env now net w
     = (1%Z, with_error ("sports failed: " +:+ int_to_string status +:+ " " +:+ statusText) w) /\
     Odds.main RegExp_i env now net ("sports" :: rest) w
     = (1%Z, with_error ("Sports fetch failed: " +:+ int_to_string status +:+ " "
                           +:+ statusText) w) /\
     ScanLog.main env now net w
     = (1%Z, with_error (sports_url (ScanLog.API_KEY env) +:+ " → "
                           +:+ int_to_string status +:+ " " +:+ statusText) w)) /\
  (forall msg,
     get_sports net = Rejected msg ->
     OddsAll.main env now net w = (1%Z, with_error msg w) /\
     Odds.main RegExp_i env now net ("sports" :: rest) w = (1%Z, with_error msg w) /\
     ScanLog.main env now net w = (1%Z, with_error msg w)).
Proof.
  intros Hk. pose proof (has_api_key_eqb env Hk) as Hkb.
  split.
  - intros status statusText b Hres.
    unfold OddsAll.main, Odds.main, ScanLog.main, ScanLog.API_KEY. rewrite Hkb.
    unfold run_script, OddsAll.main_body, ScanLog.main_body, Odds.cli_body, bind, lift.
    unfold OddsAll.getActiveTennisKeys, ScanLog.getTennisSports, ScanLog.fetchJSON,
      Odds.listSports, throw.
    cbn [nth_error]. rewrite Hres. repeat split; reflexivity.
  - intros msg Hres.
    unfold OddsAll.main, Odds.main, ScanLog.main, ScanLog.API_KEY. rewrite Hkb.
    unfold run_script, OddsAll.main_body, ScanLog.main_body, Odds.cli_body, bind, lift.
    unfold OddsAll.getActiveTennisKeys, ScanLog.getTennisSports, ScanLog.fetchJSON,
      Odds.listSports, throw.
    cbn [nth_error]. rewrite Hres. repeat split; reflexivity.
Qed.

Lemma catalog_failure_is_fatal_witness :
  fst (OddsAll.main example_env example_now
         {| get_sports := Rejected "fetch failed";
            get_odds := fun _ _ => Rejected "fetch failed" |} empty_world) = 1%Z.
Proof.
  destruct (catalog_failure_is_fatal (num := float) no_regexp example_env example_now
              {| get_sports := Rejected "fetch failed";
                 get_odds := fun _ _ => Rejected "fetch failed" |} [] empty_world)
    as (_ & Hrej).
  - discriminate.
  - destruct (Hrej "fetch failed" eq_refl) as (Hbulk & _). now rewrite Hbulk.
Defined.

(** ** The normalizer in binary64: the range and the persisted text of a
    probability *)

(** X6: in binary64 every probability of a market of positive finite odds
    is a finite double between 0 and 1 when the reciprocal of its odds is
    finite, and NaN when that reciprocal overflows; so no probability is an
    infinity, negative or above 1, whatever the number of outcomes. *)
Lemma normalize_probabilities_unit (o : list float) (i : nat) (oi pi : float) :
  Forall (fun x => positive_finite x = true) o ->
  nth_error o i = Some oi -> nth_error (normalizeDecimalOddsToProbs o) i = Some pi ->
  (float_isFinite (1 / oi) = true /\
   exists v, float_value pi = Some v /\ (0 <= v <= 1)%Q) \/
  (float_isFinite (1 / oi) = false /\ is_nan pi = true).
Proof.
  intros Hpos Hi Hpi.
  assert (Ho : Forall pos_finite o).
  { eapply List.Forall_impl; [|exact Hpos]. intros x. apply positive_finite_pos_finite. }
  destruct (normalize_entry_class o i oi pi Ho Hi Hpi) as [(Hr & Hp & H01)|[Hr Hn]].
  - left. split; [apply fin_nonneg_isFinite; now right|].
    exists (fval pi). split; [now apply float_value_fval | exact H01].
  - right. split; [now apply pos_infinite_not_finite | exact Hn].
Qed.

(** The witness of X6: the odds 1.8 and 2.2. *)
Lemma normalize_probabilities_unit_witness :
  exists v, float_value (nth 0 (normalizeDecimalOddsToProbs
                                  [0x1.ccccccccccccdp+0; 0x1.199999999999ap+1]%float) 0%float)
            = Some v /\ (0 <= v <= 1)%Q.
Proof.
  destruct (normalize_probabilities_unit
              [0x1.ccccccccccccdp+0; 0x1.199999999999ap+1]%float 0
              0x1.ccccccccccccdp+0%float
              (nth 0 (normalizeDecimalOddsToProbs
                        [0x1.ccccccccccccdp+0; 0x1.199999999999ap+1]%float) 0%float))
    as [[_ H]|[H _]].
  - repeat constructor.
  - reflexivity.
  - reflexivity.
  - exact H.
  - discriminate H.
Defined.

(** X8: in binary64 the four-decimal text persisted for a finite
    probability of a market of positive finite odds reads back as a decimal
    between 0 and 1 that is within half a unit of the fourth decimal
    (0.00005) of the exact value of the double. *)
Lemma persisted_probability_accuracy (o : list float) (i : nat) (pi : float) :
  Forall (fun x => positive_finite x = true) o ->
  nth_error (normalizeDecimalOddsToProbs o) i = Some pi ->
  num_isFinite pi = true ->
  exists x v,
    float_value pi = Some x /\ decimal_value (num_toFixed4 pi) = Some v /\
    (0 <= v <= 1)%Q /\ (Qabs (v - x) <= 1 # 20000)%Q.
Proof.
  intros Hpos Hp Hfin.
  assert (Ho : Forall pos_finite o).
  { eapply List.Forall_impl; [|exact Hpos]. intros x. apply positive_finite_pos_finite. }
  assert (Hi : exists oi, nth_error o i = Some oi).
  { rewrite normalize_as_quotients, !nth_error_map in Hp.
    destruct (nth_error o i) as [oi|]; [now exists oi | discriminate]. }
  destruct Hi as [oi Hi].
  destruct (normalize_entry_class o i oi pi Ho Hi Hp) as [(_ & Hfn & H01)|[_ Hn]].
  2:{ apply nan_not_isFinite in Hn. cbn in Hfin. congruence. }
  destruct (persisted_field_value pi Hfn H01) as (d & Hd & _ & Hd01 & Hnear).
  exists (fval pi), d. split; [now apply float_value_fval|].
  split; [exact Hd|]. split; [exact Hd01 | exact Hnear].
Qed.

(** The witness of X8: the odds 1.8 and 2.2, persisted as 0.5500. *)
Lemma persisted_probability_accuracy_witness :
  exists x v,
    float_value (nth 0 (normalizeDecimalOddsToProbs
                          [0x1.ccccccccccccdp+0; 0x1.199999999999ap+1]%float) 0%float) = Some x /\
    decimal_value (num_toFixed4 (nth 0 (normalizeDecimalOddsToProbs
                          [0x1.ccccccccccccdp+0; 0x1.199999999999ap+1]%float) 0%float)) = Some v /\
    (Qabs (v - x) <= 1 # 20000)%Q.
Proof.
  destruct (persisted_probability_accuracy
              [0x1.ccccccccccccdp+0; 0x1.199999999999ap+1]%float 0
              (nth 0 (normalizeDecimalOddsToProbs
                        [0x1.ccccccccccccdp+0; 0x1.199999999999ap+1]%float) 0%float))
    as (x & v & Hx & Hv & _ & Hnear).
  - repeat constructor.
  - reflexivity.
  - reflexivity.
  - exists x, v. split; [exact Hx|]. split; [exact Hv | exact Hnear].
Defined.

(** ** The normalizer in binary64: prices that are zero or not a number *)

Lemma is_zero_Prim2SF (x : float) :
  is_zero x = true -> exists s, Prim2SF x = S754_zero s.
Proof.
  unfold is_zero. rewrite FloatAxioms.eqb_spec.
  change (Prim2SF PrimFloat.zero) with (S754_zero false).
  destruct (Prim2SF x) as [s|s| |s m e];
    try discriminate; try (destruct s; discriminate).
  intros _. now exists s.
Qed.

Lemma reciprocal_unusable (x : float) : unusable_price x -> inf_or_nan (1 / x).
Proof.
  unfold inf_or_nan. rewrite FloatAxioms.div_spec. intros [Hx|Hx].
  - apply is_nan_Prim2SF in Hx. rewrite Hx. exact I.
  - apply is_zero_Prim2SF in Hx as [s Hx]. rewrite Hx. exact I.
Qed.

Lemma add_inf_or_nan_l (a b : float) : inf_or_nan a -> inf_or_nan (a + b).
Proof.
  unfold inf_or_nan. rewrite FloatAxioms.add_spec.
  destruct (Prim2SF a) as [sa|sa| |sa ma ea]; try contradiction; intros _;
    destruct (Prim2SF b) as [sb|sb| |sb mb eb]; try exact I;
    destruct sa, sb; exact I.
Qed.

Lemma add_inf_or_nan_r (a b : float) : inf_or_nan b -> inf_or_nan (a + b).
Proof.
  unfold inf_or_nan. rewrite FloatAxioms.add_spec.
  destruct (Prim2SF b) as [sb|sb| |sb mb eb]; try contradiction; intros _;
    destruct (Prim2SF a) as [sa|sa| |sa ma ea]; try exact I;
    destruct sa, sb; exact I.
Qed.

Lemma fold_add_inf_or_nan_acc (l : list float) (acc : float) :
  inf_or_nan acc -> inf_or_nan (fold_left PrimFloat.add l acc).
Proof.
  revert acc. induction l as [|x l IH]; intros acc Hacc; [exact Hacc|].
  cbn [fold_left]. apply IH. now apply add_inf_or_nan_l.
Qed.

Lemma fold_add_inf_or_nan (l : list float) (acc : float) :
  Exists inf_or_nan l -> inf_or_nan (fold_left PrimFloat.add l acc).
Proof.
  intros Hl. revert acc. induction Hl as [x l Hx|x l _ IH]; intros acc; cbn [fold_left].
  - apply fold_add_inf_or_nan_acc. now apply add_inf_or_nan_r.
  - apply IH.
Qed.

Lemma div_inf_or_nan (a b : float) : inf_or_nan a -> inf_or_nan b -> is_nan (a / b) = true.
Proof.
  unfold inf_or_nan. intros Ha Hb. apply is_nan_Prim2SF. rewrite FloatAxioms.div_spec.
  destruct (Prim2SF a); try contradiction; destruct (Prim2SF b); try contradiction; reflexivity.
Qed.

Lemma nan_not_finite (p : float) :
  is_nan p = true ->
  num_isFinite p = false /\ num_toFixed4 p = "NaN" /\ num_toString p = "NaN".
Proof.
  intros Hp. cbn [num_isFinite num_toFixed4 num_toString float_JsNumber].
  unfold float_isFinite, float_toFixed4, float_value, float_toString.
  rewrite Hp. apply is_nan_Prim2SF in Hp. rewrite Hp. repeat split; reflexivity.
Qed.

Lemma normalize_unusable_nth (o : list float) (i : nat) (oi pi : float) :
  nth_error o i = Some oi -> unusable_price oi ->
  nth_error (normalizeDecimalOddsToProbs o) i = Some pi ->
  is_nan pi = true.
Proof.
  intros Hi Hoi. unfold normalizeDecimalOddsToProbs.
  rewrite nth_error_map, nth_error_map, Hi. intros [= <-].
  cbn [num_div num_one num_add num_zero float_JsNumber].
  apply div_inf_or_nan; [now apply reciprocal_unusable|].
  apply fold_add_inf_or_nan. apply List.Exists_exists. exists (1 / oi)%float.
  split; [|now apply reciprocal_unusable].
  apply in_map_iff. exists oi. split; [reflexivity|]. eapply nth_error_In; eauto.
Qed.

Lemma add_nan_l (a b : float) : is_nan a = true -> is_nan (a + b) = true.
Proof.
  intros Ha. apply is_nan_Prim2SF. apply is_nan_Prim2SF in Ha.
  rewrite FloatAxioms.add_spec, Ha. reflexivity.
Qed.

Lemma add_nan_r (a b : float) : is_nan b = true -> is_nan (a + b) = true.
Proof.
  intros Hb. apply is_nan_Prim2SF. apply is_nan_Prim2SF in Hb.
  rewrite FloatAxioms.add_spec, Hb. now destruct (Prim2SF a).
Qed.

Lemma div_nan_l (a b : float) : is_nan a = true -> is_nan (a / b) = true.
Proof.
  intros Ha. apply is_nan_Prim2SF. apply is_nan_Prim2SF in Ha.
  rewrite FloatAxioms.div_spec, Ha. reflexivity.
Qed.

Lemma div_nan_r (a b : float) : is_nan b = true -> is_nan (a / b) = true.
Proof.
  intros Hb. apply is_nan_Prim2SF. apply is_nan_Prim2SF in Hb.
  rewrite FloatAxioms.div_spec, Hb. now destruct (Prim2SF a).
Qed.

Lemma fold_add_nan_acc (l : list float) (acc : float) :
  is_nan acc = true -> is_nan (fold_left PrimFloat.add l acc) = true.
Proof.
  revert acc. induction l as [|x l IH]; intros acc Hacc; [exact Hacc|].
  cbn [fold_left]. apply IH. now apply add_nan_l.
Qed.

Lemma fold_add_nan (l : list float) (acc : float) :
  Exists (fun x => is_nan x = true) l -> is_nan (fold_left PrimFloat.add l acc) = true.
Proof.
  intros Hl. revert acc. induction Hl as [x l Hx|x l _ IH]; intros acc; cbn [fold_left].
  - apply fold_add_nan_acc. now apply add_nan_r.
  - apply IH.
Qed.

(** X9: in binary64, a price that is zero or not a number gives its own
    outcome the probability NaN, which is not finite and which [toFixed(4)]
    and [String] print as NaN; and a price that is not a number makes
    every probability of the market NaN. *)
Lemma unusable_price_gives_NaN (o : list float) :
  (forall i oi pi,
     nth_error o i = Some oi -> unusable_price oi ->
     nth_error (normalizeDecimalOddsToProbs o) i = Some pi ->
     is_nan pi = true /\ num_isFinite pi = false /\
     num_toFixed4 pi = "NaN" /\ num_toString pi = "NaN") /\
  (Exists (fun x => is_nan x = true) o ->
   Forall (fun p => is_nan p = true) (normalizeDecimalOddsToProbs o)).
Proof.
  split.
  - intros i oi pi Hi Hoi Hp.
    pose proof (normalize_unusable_nth o i oi pi Hi Hoi Hp) as Hnan.
    split; [exact Hnan | now apply nan_not_finite].
  - intros Hex. unfold normalizeDecimalOddsToProbs.
    cbn [num_div num_one num_add num_zero float_JsNumber].
    apply List.Forall_forall. intros p Hp. apply in_map_iff in Hp as (q & <- & _).
    apply div_nan_r. apply fold_add_nan.
    apply List.Exists_exists. apply List.Exists_exists in Hex as (x & Hx & Hnan).
    exists (1 / x)%float. split.
    + apply in_map_iff. now exists x.
    + now apply div_nan_r.
Qed.

(** The witness of X9. *)
Lemma unusable_price_gives_NaN_witness :
  exists pi, nth_error (normalizeDecimalOddsToProbs [0; 2]%float) 0 = Some pi /\
    num_toFixed4 pi = "NaN".
Proof.
  eexists. split; [reflexivity|].
  refine (proj1 (proj2 (proj2
    (proj1 (unusable_price_gives_NaN [0; 2]%float) 0%nat 0%float _ eq_refl _ eq_refl)))).
  right. reflexivity.
Defined.

(** X10: in binary64, when the first (or the second) price of an extracted
    market is zero or not a number, the bulk snapshot leaves prob1 (prob2)
    of the row empty, and the command line writes the text NaN there. *)
Lemma unusable_price_rows (env : environment) (sportKey regionToUse : string)
    (ev : event float) (x : extracted float) (o : float) :
  extract ev = Some x -> unusable_price o ->
  (nth_error (x_odds x) 0 = Some o ->
   get (OddsAll.row_of env sportKey ev x) "prob1" = VStr "" /\
   get (Odds.csv_row regionToUse (Odds.mapped_of ev x)) "prob1" = VStr "NaN") /\
  (nth_error (x_odds x) 1 = Some o ->
   get (OddsAll.row_of env sportKey ev x) "prob2" = VStr "" /\
   get (Odds.csv_row regionToUse (Odds.mapped_of ev x)) "prob2" = VStr "NaN").
Proof.
  intros Hx Ho.
  destruct (extract_two ev x Hx) as (n1 & n2 & names & o1 & o2 & odds & p1 & p2 & probs
                                     & _ & _ & Hp & _).
  destruct (bulk_row_probs env sportKey ev x p1 p2 probs Hp) as [Hb1 Hb2].
  assert (Hc : get (Odds.csv_row regionToUse (Odds.mapped_of ev x)) "prob1"
               = VStr (num_toFixed4 p1) /\
               get (Odds.csv_row regionToUse (Odds.mapped_of ev x)) "prob2"
               = VStr (num_toFixed4 p2)).
  { unfold Odds.csv_row, Odds.mapped_of. cbn [Odds.e_probs_normalized]. rewrite Hp.
    split; reflexivity. }
  destruct Hc as [Hc1 Hc2].
  split; intros Hi.
  - assert (Hnan : is_nan p1 = true).
    { apply (normalize_unusable_nth (x_odds x) 0 o p1 Hi Ho). now rewrite Hp. }
    destruct (nan_not_finite p1 Hnan) as (Hfin & Hfix & _).
    rewrite Hb1, Hc1, Hfin, Hfix. split; reflexivity.
  - assert (Hnan : is_nan p2 = true).
    { apply (normalize_unusable_nth (x_odds x) 1 o p2 Hi Ho). now rewrite Hp. }
    destruct (nan_not_finite p2 Hnan) as (Hfin & Hfix & _).
    rewrite Hb2, Hc2, Hfin, Hfix. split; reflexivity.
Qed.

(** The witness of X10. *)
Lemma unusable_price_rows_witness :
  exists x, extract example_zero_priced = Some x /\
    get (OddsAll.row_of example_env "atp" example_zero_priced x) "prob1" = VStr "" /\
    get (Odds.csv_row "eu" (Odds.mapped_of example_zero_priced x)) "prob1" = VStr "NaN".
Proof.
  eexists. split; [reflexivity|].
  refine (proj1 (unusable_price_rows example_env "atp" "eu" example_zero_priced _ 0%float
                   eq_refl _) eq_refl).
  right. reflexivity.
Defined.

(** ** The serializer: further properties *)

Lemma str_app_inv_head (p s t : string) : p +:+ s = p +:+ t -> s = t.
Proof.
  induction p as [|c p IH]; [now rewrite !str_app_nil_l|].
  rewrite !str_app_cons. intros [= E]. now apply IH.
Qed.

Lemma str_app_inv_tail (s t : string) (c : ascii) :
  s +:+ char_str c = t +:+ char_str c -> s = t.
Proof.
  revert t. induction s as [|a s IH]; intros [|b t]; rewrite ?str_app_nil_l, ?str_app_cons.
  - reflexivity.
  - intros [= _ E]. destruct t; discriminate E.
  - intros [= _ E]. destruct s; discriminate E.
  - intros [= -> E]. f_equal. now apply IH.
Qed.

(** Doubling the double quotes loses nothing. *)
Lemma double_quotes_injective (s t : string) :
  replace_char DQUOTE (String DQUOTE (char_str DQUOTE)) s
  = replace_char DQUOTE (String DQUOTE (char_str DQUOTE)) t -> s = t.
Proof.
  revert t. induction s as [|a s IH]; intros [|b t]; cbn [replace_char].
  - reflexivity.
  - destruct (Ascii.eqb DQUOTE b); discriminate.
  - destruct (Ascii.eqb DQUOTE a); discriminate.
  - destruct (Ascii.eqb_spec DQUOTE a) as [<-|Ha], (Ascii.eqb_spec DQUOTE b) as [<-|Hb].
    + intros E. f_equal. apply IH. now apply (str_app_inv_head (String DQUOTE (char_str DQUOTE))).
    + cbn. intros [= E _]. congruence.
    + cbn. intros [= E _]. congruence.
    + cbn. intros [= -> E]. f_equal. now apply IH.
Qed.

Lemma quoted_needs_quoting (s : string) : needs_quoting (quoted s) = true.
Proof.
  unfold needs_quoting, quoted. rewrite str_has_app. cbn [char_str str_has].
  now rewrite Ascii.eqb_refl.
Qed.

Lemma quoted_injective (s t : string) : quoted s = quoted t -> s = t.
Proof.
  unfold quoted. intros E. apply str_app_inv_head in E.
  apply str_app_inv_tail in E. now apply double_quotes_injective.
Qed.

Lemma rendered_injective (s t : string) : rendered s = rendered t -> s = t.
Proof.
  unfold rendered.
  destruct (needs_quoting s) eqn:Hs, (needs_quoting t) eqn:Ht.
  - apply quoted_injective.
  - intros <-. now rewrite quoted_needs_quoting in Ht.
  - intros ->. now rewrite quoted_needs_quoting in Hs.
  - trivial.
Qed.

Section CsvFurther.
Context {num : Type} `{JsNumber num}.

(** X11: [esc] never writes two different texts the same way: fields that
    are written alike have the same text (null, undefined and the empty
    string all have the empty text). *)
Lemma esc_injective (v v' : value num) :
  esc v = esc v' -> field_text v = field_text v'.
Proof. rewrite !esc_rendered. apply rendered_injective. Qed.

Lemma combine_under (f : string -> string) (keys : list string) :
  combine keys (map f keys) = map (fun h => (h, f h)) keys.
Proof. induction keys as [|k keys IH]; [reflexivity|]. cbn [map combine]. now rewrite IH. Qed.

(** X12: [toCsv] takes its columns from the first record alone, also for
    records of different shapes: read back by an RFC 4180 reader, every
    record has exactly the keys of the first one, in order, each with the
    text of [r[h]]; a field whose key the first record lacks is not
    written, and a key that a record lacks reads back as the property that
    the record inherits from [Object.prototype] under that name, and empty
    when there is none.  (The keys are plain, unquoted values hold no
    carriage return, and the last line is not empty.) *)
Lemma toCsv_columns_of_first (r0 : record num) (rs : list (record num)) :
  Forall plain (Object_keys r0) ->
  Forall (fun r => Forall (fun h => readable (field_text (get r h))) (Object_keys r0))
         (r0 :: rs) ->
  csv_line (Object_keys r0) (List.last (r0 :: rs) r0) <> "" ->
  read_records (toCsv (r0 :: rs)) = Some (map (record_under (Object_keys r0)) (r0 :: rs)).
Proof.
  intros Hkeys Hvals Hlast.
  set (rows := r0 :: rs) in *. set (keys := Object_keys r0) in *.
  set (texts := fun r : record num => map (fun h => field_text (get r h)) keys).
  assert (Hline : forall r, csv_line keys r = join "," (map rendered (texts r))).
  { intros r. unfold csv_line, texts. rewrite map_map. f_equal.
    apply map_ext. intros h. apply esc_rendered. }
  assert (Hcsv : toCsv rows
                 = join (char_str LF)
                     (map (fun ts => join "," (map rendered ts)) (keys :: map texts rows))).
  { unfold toCsv, rows. fold rows. fold keys. cbn [map].
    rewrite (map_rendered_plain keys Hkeys). f_equal. f_equal.
    rewrite map_map. apply map_ext. intros r. apply Hline. }
  assert (Hkne : keys <> []).
  { intros Hk. apply Hlast. unfold csv_line. now rewrite Hk. }
  unfold read_records, parse_csv. rewrite Hcsv, read_table.
  - cbn [option_map app csv_records]. f_equal. rewrite map_map.
    apply map_ext. intros r. apply combine_under.
  - discriminate.
  - constructor.
    + split; [exact Hkne|]. apply List.Forall_forall. intros k Hk.
      rewrite List.Forall_forall in Hkeys. now apply plain_rendered, Hkeys.
    + apply List.Forall_forall. intros ts Hts. apply in_map_iff in Hts as (r & <- & Hr).
      split.
      * unfold texts. intros Ht. apply map_eq_nil in Ht. contradiction.
      * unfold texts. apply List.Forall_forall. intros t Ht.
        apply in_map_iff in Ht as (h & <- & Hh).
        rewrite List.Forall_forall in Hvals. specialize (Hvals r Hr).
        rewrite List.Forall_forall in Hvals. now apply Hvals.
  - assert (Elast : List.last (keys :: map texts rows) [] = texts (List.last rows r0)).
    { change (List.last (keys :: map texts rows) []) with (List.last (map texts rows) []).
      apply last_map. discriminate. }
    rewrite Elast, <- Hline. exact Hlast.
Qed.

End CsvFurther.

(** The witness of X11. *)
Lemma esc_injective_witness :
  field_text (VNull : value float) = field_text (VStr "" : value float).
Proof. apply (esc_injective (VNull : value float) (VStr "")). reflexivity. Defined.

(** A column that only the first record has, named like a property of
    [Object.prototype]: the second record's field is the inherited one. *)
Lemma toCsv_inherited_property :
  toCsv [ [("constructor", VStr "x"); ("b", VStr "1")]; [("b", (VStr "y" : value float))] ]
  = "constructor,b" +:+ char_str LF +:+ "x,1" +:+ char_str LF
    +:+ "function Object() { [native code] },y".
Proof. vm_compute. reflexivity. Qed.

(** The witness of X12. *)
Lemma toCsv_columns_of_first_witness :
  read_records (toCsv [ [("a", VStr "x"); ("b", VNum 2%float)];
                        [("b", VStr "y, z"); ("c", VStr "dropped")] ])
  = Some [ [("a", "x"); ("b", "2")]; [("a", ""); ("b", "y, z")] ].
Proof.
  assert (Hk : Forall plain (Object_keys [("a", VStr "x"); ("b", VNum 2%float)])).
  { repeat constructor. }
  assert (Hv : Forall (fun r => Forall (fun h => readable (field_text (get r h)))
                                  (Object_keys [("a", VStr "x"); ("b", VNum 2%float)]))
                 [ [("a", VStr "x"); ("b", VNum 2%float)];
                   [("b", VStr "y, z"); ("c", VStr "dropped")] ]).
  { repeat constructor; intros Hq; solve [reflexivity | discriminate Hq]. }
  assert (Hl : csv_line (Object_keys [("a", VStr "x"); ("b", VNum 2%float)])
                 (List.last [ [("a", VStr "x"); ("b", VNum 2%float)];
                              [("b", VStr "y, z"); ("c", VStr "dropped")] ]
                    [("a", VStr "x"); ("b", VNum 2%float)]) <> "").
  { vm_compute. discriminate. }
  pose proof (toCsv_columns_of_first [("a", VStr "x"); ("b", VNum 2%float)]
                [ [("b", VStr "y, z"); ("c", VStr "dropped")] ] Hk Hv Hl) as E.
  vm_compute in E. vm_compute. exact E.
Defined.

(** ** The history file as CSV *)

Lemma digits_go_lacks (c : ascii) (fuel : nat) (n : Z) (acc : string) :
  (forall d, (0 <= d < 10)%Z -> Ascii.eqb c (digit_char d) = false) ->
  str_has c acc = false -> str_has c (digits_go fuel n acc) = false.
Proof.
  intros Hc. revert n acc. induction fuel as [|fuel IH]; intros n acc Hacc; cbn [digits_go];
    [exact Hacc|].
  assert (Hd : str_has c (String (digit_char (n mod 10)) acc) = false).
  { cbn [str_has]. rewrite Hc, Hacc; [reflexivity|]. apply Z.mod_pos_bound. lia. }
  destruct (n / 10 =? 0)%Z; [exact Hd | now apply IH].
Qed.

Lemma int_to_string_lacks (c : ascii) (n : Z) :
  (forall d, (0 <= d < 10)%Z -> Ascii.eqb c (digit_char d) = false) ->
  Ascii.eqb c "-" = false ->
  str_has c (int_to_string n) = false.
Proof.
  intros Hc Hm. unfold int_to_string, nat_digits. destruct (n <? 0)%Z.
  - rewrite str_has_app. cbn [str_has]. rewrite Hm. cbn [orb].
    now apply digits_go_lacks.
  - now apply digits_go_lacks.
Qed.

Lemma int_to_string_plain (n : Z) : plain (int_to_string n).
Proof.
  unfold plain. repeat split; (apply int_to_string_lacks; [|reflexivity]);
    intros d Hd; digit_cases d; reflexivity.
Qed.

Lemma json_escape_verbatim (s : string) : json_verbatim s -> json_escape s = s.
Proof.
  unfold json_verbatim. induction s as [|c s IH]; [reflexivity|].
  cbn [str_forall json_escape]. intros Hs. apply andb_prop in Hs as [Hc Hs].
  rewrite (IH Hs). clear IH Hs.
  destruct c as [[] [] [] [] [] [] [] []]; try discriminate Hc; reflexivity.
Qed.

Lemma verbatim_no_quote (s : string) : json_verbatim s -> str_has DQUOTE s = false.
Proof.
  unfold json_verbatim. induction s as [|c s IH]; [reflexivity|].
  cbn [str_forall str_has]. intros Hs. apply andb_prop in Hs as [Hc Hs].
  rewrite (IH Hs), orb_false_r. clear IH Hs.
  destruct c as [[] [] [] [] [] [] [] []]; try discriminate Hc; reflexivity.
Qed.

(** On such a text JSON's quoting and CSV's agree. *)
Lemma JSON_quote_verbatim (s : string) : json_verbatim s -> JSON_quote s = quoted s.
Proof.
  intros Hs. unfold JSON_quote, quoted.
  rewrite (json_escape_verbatim s Hs), (replace_char_absent _ _ _ (verbatim_no_quote s Hs)).
  reflexivity.
Qed.

Lemma comma_app (s : string) : "," +:+ s = String COMMA s.
Proof. reflexivity. Qed.

Lemma read_history_line (o : ScanLog.scan_row) (rest : string) (done : list (list string)) :
  row_readable o ->
  read_csv AtFieldStart "" [] done (ScanLog.line o +:+ rest)
  = read_csv AtFieldStart "" [] (done ++ [history_fields o]) rest.
Proof.
  intros (Hts & Hkey & Htitle & Hregion). unfold ScanLog.line.
  rewrite !str_app_assoc.
  rewrite !comma_app.
  rewrite (read_plain_comma _ _ _ _ Hts).
  rewrite (JSON_quote_verbatim _ Hkey), read_quoted_comma.
  assert (Ht : forall rec tail,
            read_csv AtFieldStart "" rec done
              (template_json (ScanLog.r_title o) +:+ String COMMA tail)
            = read_csv AtFieldStart "" (rec ++ [template_str (ScanLog.r_title o)]) done tail).
  { intros rec tail. destruct (ScanLog.r_title o) as [t|] eqn:Et; cbn [template_json template_str default].
    - rewrite (JSON_quote_verbatim t (Htitle t eq_refl)). apply read_quoted_comma.
    - apply read_plain_comma. repeat split; reflexivity. }
  rewrite Ht, (read_plain_comma _ _ _ _ Hregion).
  change (char_str LF +:+ rest) with (String LF rest).
  rewrite (read_plain_LF _ _ _ _ (int_to_string_plain _)).
  reflexivity.
Qed.

Lemma read_history_lines (rows : list ScanLog.scan_row) (done : list (list string)) :
  Forall row_readable rows ->
  read_csv AtFieldStart "" [] done (join "" (map ScanLog.line rows))
  = Some (done ++ map history_fields rows).
Proof.
  intros Hok. revert done. induction Hok as [|o rows Ho _ IH]; intros done.
  - cbn. now rewrite app_nil_r.
  - cbn [map]. rewrite join_empty_cons, (read_history_line o _ _ Ho), IH.
    now rewrite <- app_assoc.
Qed.

Lemma read_history_file (rows : list ScanLog.scan_row) :
  Forall row_readable rows ->
  parse_csv (ScanLog.header +:+ join "" (map ScanLog.line rows))
  = Some (header_fields :: map history_fields rows).
Proof.
  intros Hok. unfold parse_csv.
  change (ScanLog.header +:+ join "" (map ScanLog.line rows))
    with ("timestamp" +:+ String COMMA ("key" +:+ String COMMA ("title" +:+ String COMMA
            ("region" +:+ String COMMA ("count" +:+ String LF (join "" (map ScanLog.line rows))))))).
  rewrite !read_plain_comma, read_plain_LF by (repeat split; reflexivity).
  now rewrite read_history_lines.
Qed.

(** X13: the history file is CSV for rows whose key and title hold no
    double quote, backslash or control character and whose region needs no
    quoting: after any sequence of invocations from a machine without the
    file, an RFC 4180 reader gives back the header fields and then, for
    every logged row in order, its timestamp, key, title, region and count
    (a title that the catalog lacks reads back as the text undefined). *)
Lemma history_reads_back {num : Type}
    (runs : list (environment * utc * network num)) (w : world) :
  files w !! ScanLog.outPath = None ->
  ScanLog.outPath ∉ dirs w ->
  logged_batches runs <> [] ->
  Forall row_readable (concat (logged_batches runs)) ->
  exists content,
    files (run_scans runs w) !! ScanLog.outPath = Some content /\
    parse_csv content
    = Some (header_fields :: map history_fields (concat (logged_batches runs))).
Proof.
  intros Hnone Hdir Hne Hok.
  pose proof (run_scans_files runs w Hdir) as Hfiles.
  destruct (logged_batches runs) as [|b bs]; [congruence|].
  rewrite Hnone in Hfiles. cbn [default] in Hfiles.
  eexists. split; [exact Hfiles|]. now apply read_history_file.
Qed.

(** The witness of X13. *)
Lemma history_reads_back_witness :
  exists content,
    files (run_scans
             [ (example_env, example_now, example_net [example_match] (Rejected "fetch failed"));
               (example_env, example_now,
                example_net [] (Response true 200 "OK" (JsonArray []))) ]
             empty_world) !! ScanLog.outPath = Some content /\
    parse_csv content
    = Some [ header_fields;
             ["2024-01-05T10:03:45.007Z"; "atp"; "Open atp"; "eu"; "1"];
             ["2024-01-05T10:03:45.007Z"; "wta"; "Open wta"; "eu"; "-1"];
             ["2024-01-05T10:03:45.007Z"; "atp"; "Open atp"; "eu"; "0"];
             ["2024-01-05T10:03:45.007Z"; "wta"; "Open wta"; "eu"; "0"] ].
Proof.
  apply (history_reads_back
           [ (example_env, example_now, example_net [example_match] (Rejected "fetch failed"));
             (example_env, example_now,
              example_net [] (Response true 200 "OK" (JsonArray []))) ]
           empty_world).
  - reflexivity.
  - apply not_elem_of_empty.
  - discriminate.
  - repeat constructor; try reflexivity; intros t [= <-]; reflexivity.
Defined.

(** ** The history scan: regions and rows *)

Lemma split_char_lacks (c : ascii) (s : string) :
  Forall (fun p => str_has c p = false) (split_char c s).
Proof.
  induction s as [|d s IH]; [repeat constructor|]. cbn [split_char].
  destruct (Ascii.eqb c d) eqn:Hd; [constructor; [reflexivity | exact IH]|].
  destruct (split_char c s) as [|x xs]; [repeat constructor; cbn; now rewrite Hd|].
  apply Forall_cons_iff in IH as [Hx Hxs]. constructor; [|exact Hxs].
  cbn [str_has]. now rewrite Hd, Hx.
Qed.

Lemma trim_start_lacks (c : ascii) (s : string) :
  str_has c s = false -> str_has c (trim_start s) = false.
Proof.
  induction s as [|d s IH]; [reflexivity|]. cbn [trim_start]. intros Hs.
  destruct (is_space d); [|exact Hs].
  cbn [str_has] in Hs. apply orb_false_elim in Hs as [_ Hs]. now apply IH.
Qed.

Lemma trim_end_lacks (c : ascii) (s : string) :
  str_has c s = false -> str_has c (trim_end s) = false.
Proof.
  induction s as [|d s IH]; [reflexivity|]. cbn [trim_end str_has]. intros Hs.
  apply orb_false_elim in Hs as [Hd Hs]. specialize (IH Hs).
  destruct (trim_end s) as [|e t].
  - destruct (is_space d); [reflexivity|]. cbn. now rewrite Hd.
  - cbn [str_has]. cbn [str_has] in IH. now rewrite Hd, IH.
Qed.

Lemma trim_end_idempotent (s : string) : trim_end (trim_end s) = trim_end s.
Proof.
  induction s as [|c s IH]; [reflexivity|]. cbn [trim_end].
  destruct (trim_end s) as [|e t] eqn:Et.
  - destruct (is_space c) eqn:Hc; [reflexivity|]. cbn. now rewrite Hc.
  - cbn [trim_end]. cbn [trim_end] in IH. now rewrite IH.
Qed.

Lemma trim_end_head (c : ascii) (s : string) :
  is_space c = false -> exists t, trim_end (String c s) = String c t.
Proof.
  intros Hc. cbn [trim_end]. destruct (trim_end s) as [|e t].
  - rewrite Hc. now exists "".
  - now exists (String e t).
Qed.

Lemma trim_idempotent (s : string) : trim (trim s) = trim s.
Proof.
  unfold trim.
  assert (Hstart : trim_start (trim_end (trim_start s)) = trim_end (trim_start s)).
  { induction s as [|c s IH]; [reflexivity|]. cbn [trim_start].
    destruct (is_space c) eqn:Hc; [exact IH|].
    destruct (trim_end_head c s Hc) as [t ->]. cbn [trim_start]. now rewrite Hc. }
  rewrite Hstart. apply trim_end_idempotent.
Qed.

Section ScanFurther.
Context {num : Type}.

(** X14: the regions of the history scan, read from REGIONS by splitting
    at commas, are clean: none is empty, none holds a comma, none has white
    space at either end (the white space of [trim] below code unit 256:
    TAB, LF, VT, FF, CR, SP and NBSP); and when REGIONS is unset or empty
    the only region is eu. *)
Lemma REGIONS_clean (env : environment) :
  Forall (fun r => r <> "" /\ str_has COMMA r = false /\ trim r = r) (ScanLog.REGIONS env) /\
  (or_default (env_REGIONS env) "" = "" -> ScanLog.REGIONS env = ["eu"]).
Proof.
  split.
  - unfold ScanLog.REGIONS. apply List.Forall_forall. intros r Hr.
    apply filter_In in Hr as [Hr Hne]. apply in_map_iff in Hr as (p & <- & Hp).
    split; [|split].
    + intros E. rewrite E in Hne. discriminate.
    + pose proof (split_char_lacks "," (or_default (env_REGIONS env) "eu")) as Hall.
      rewrite List.Forall_forall in Hall. unfold trim.
      apply trim_end_lacks, trim_start_lacks. now apply Hall.
    + apply trim_idempotent.
  - intros He. unfold ScanLog.REGIONS.
    assert (E : or_default (env_REGIONS env) "eu" = "eu").
    { destruct (env_REGIONS env) as [s|]; [|reflexivity]. cbn in He |- *.
      unfold or_str in He |- *. destruct (String.eqb_spec s ""); [reflexivity|].
      congruence. }
    rewrite E. reflexivity.
Qed.

Lemma scan_rows_length (env : environment) (net : network num) (ts : string)
    (sports : list sport) :
  length (ScanLog.scan_rows env net ts sports)
  = (length sports * length (ScanLog.REGIONS env))%nat.
Proof.
  unfold ScanLog.scan_rows. induction sports as [|s l IH]; [reflexivity|].
  cbn [flat_map length]. rewrite length_app, length_map, IH. lia.
Qed.

Lemma scan_rows_pairs (env : environment) (net : network num) (ts : string)
    (sports : list sport) :
  map (fun o => (ScanLog.r_key o, ScanLog.r_region o)) (ScanLog.scan_rows env net ts sports)
  = flat_map (fun s => map (fun r => (s_key s, r)) (ScanLog.REGIONS env)) sports.
Proof.
  unfold ScanLog.scan_rows. induction sports as [|s l IH]; [reflexivity|].
  cbn [flat_map]. rewrite map_app, map_map, IH. reflexivity.
Qed.

(** X15: the history scan logs one row for every pair of an active tennis
    competition and a region, competition by competition in catalog order,
    whatever the market fetches answer: a failed fetch is a count of -1,
    never an error, and the invocation ends with exit status 0
    (scan_history.csv not being a directory).  Afterwards scan_history.csv
    holds what it held before, or the header when it did not exist,
    followed by the lines of these rows in that order. *)
Lemma scan_row_per_pair (env : environment) (now : utc) (net : network num) (w : world)
    (all : list sport) :
  has_api_key env ->
  ScanLog.outPath ∉ dirs w ->
  ScanLog.getTennisSports env net = Ok all ->
  let sports := List.filter s_active all in
  let rows := ScanLog.scan_rows env net (toISOString now) sports in
  fst (ScanLog.main env now net w) = 0%Z /\
  length rows = (length sports * length (ScanLog.REGIONS env))%nat /\
  map (fun o => (ScanLog.r_key o, ScanLog.r_region o)) rows
  = flat_map (fun s => map (fun r => (s_key s, r)) (ScanLog.REGIONS env)) sports /\
  Forall (fun o => (-1 <= ScanLog.r_count o)%Z) rows /\
  files (snd (ScanLog.main env now net w)) !! ScanLog.outPath
  = Some (default ScanLog.header (files w !! ScanLog.outPath)
          +:+ join "" (map ScanLog.line rows)) /\
  stdout (snd (ScanLog.main env now net w))
  = stdout w ++ [[CText ("Appended " +:+ int_to_string (Z.of_nat (length rows))
                           +:+ " rows to scan_history.csv")]].
Proof.
  intros Hk Hdir Hall sports rows.
  destruct (scan_main_completes env now net w all Hk Hall Hdir) as (H0 & Hf & Hout).
  split; [exact H0|]. split; [|split; [|split; [|split]]].
  - apply scan_rows_length.
  - apply scan_rows_pairs.
  - unfold rows, ScanLog.scan_rows. apply List.Forall_forall. intros o Ho.
    apply in_flat_map in Ho as (s & _ & Ho). apply in_map_iff in Ho as (r & <- & _).
    cbn [ScanLog.r_count]. unfold ScanLog.countEvents.
    destruct (ScanLog.fetchJSON _ _) as [[data|]|msg]; lia.
  - exact Hf.
  - exact Hout.
Qed.

End ScanFurther.

(** The witness of X14. *)
Lemma REGIONS_clean_witness :
  ScanLog.REGIONS {| ODDS_API_KEY := None; env_REGION := None; env_REGIONS := Some "" |}
  = ["eu"].
Proof.
  apply (proj2 (REGIONS_clean
                  {| ODDS_API_KEY := None; env_REGION := None; env_REGIONS := Some "" |})).
  reflexivity.
Defined.

(** The witness of X15. *)
Lemma scan_row_per_pair_witness :
  fst (ScanLog.main example_env example_now
         (example_net [example_match] (Rejected "fetch failed")) empty_world) = 0%Z.
Proof.
  apply (scan_row_per_pair example_env example_now
           (example_net [example_match] (Rejected "fetch failed")) empty_world
           [example_sport "atp"; example_sport "wta"]).
  - discriminate.
  - apply not_elem_of_empty.
  - reflexivity.
Defined.

(** ** The command line of odds.js *)

Lemma In_tl {A : Type} (x : A) (l : list A) : In x (tl l) -> In x l.
Proof. destruct l; [trivial | now right]. Qed.

(** A flag that does not occur among the arguments keeps its default. *)
Lemma parse_flags_absent (fuel : nat) (rest : list string) (f : Odds.flags) :
  (~ In "--csv" rest -> Odds.writeCsv (Odds.parse_flags fuel rest f) = Odds.writeCsv f) /\
  (~ In "--include" rest -> Odds.include (Odds.parse_flags fuel rest f) = Odds.include f) /\
  (~ In "--region" rest -> Odds.region (Odds.parse_flags fuel rest f) = Odds.region f).
Proof.
  revert rest f. induction fuel as [|fuel IH]; intros rest f; [now repeat split|].
  destruct rest as [|t rest]; [now repeat split|]. cbn [Odds.parse_flags].
  destruct (String.eqb_spec t "--include") as [->|Hi].
  { destruct (IH (tl rest) {| Odds.include := Odds.next_or_null rest;
                             Odds.writeCsv := Odds.writeCsv f;
                             Odds.region := Odds.region f |}) as (H1 & H2 & H3).
    repeat split; intros Hn.
    - rewrite H1; [reflexivity|]. intros Hin. apply Hn. right. now apply In_tl.
    - exfalso. apply Hn. now left.
    - rewrite H3; [reflexivity|]. intros Hin. apply Hn. right. now apply In_tl. }
  destruct (String.eqb_spec t "--csv") as [->|Hc].
  { destruct (IH rest {| Odds.include := Odds.include f; Odds.writeCsv := true;
                         Odds.region := Odds.region f |}) as (H1 & H2 & H3).
    repeat split; intros Hn.
    - exfalso. apply Hn. now left.
    - rewrite H2; [reflexivity|]. intros Hin. apply Hn. now right.
    - rewrite H3; [reflexivity|]. intros Hin. apply Hn. now right. }
  destruct (String.eqb_spec t "--region") as [->|Hr].
  { destruct (IH (tl rest) {| Odds.include := Odds.include f;
                             Odds.writeCsv := Odds.writeCsv f;
                             Odds.region := Odds.next_or_null rest |}) as (H1 & H2 & H3).
    repeat split; intros Hn.
    - rewrite H1; [reflexivity|]. intros Hin. apply Hn. right. now apply In_tl.
    - rewrite H2; [reflexivity|]. intros Hin. apply Hn. right. now apply In_tl.
    - exfalso. apply Hn. now left. }
  destruct (IH rest f) as (H1 & H2 & H3).
  repeat split; intros Hn; [apply H1 | apply H2 | apply H3];
    intros Hin; apply Hn; now right.
Qed.

Lemma parse_flags_csv_sticks (fuel : nat) (rest : list string) (f : Odds.flags) :
  Odds.writeCsv f = true -> Odds.writeCsv (Odds.parse_flags fuel rest f) = true.
Proof.
  revert rest f. induction fuel as [|fuel IH]; intros rest f Hf; [exact Hf|].
  destruct rest as [|t rest]; [exact Hf|]. cbn [Odds.parse_flags].
  destruct (String.eqb t "--include"); [now apply IH|].
  destruct (String.eqb t "--csv"); [now apply IH|].
  destruct (String.eqb t "--region"); now apply IH.
Qed.

Lemma parse_flags_csv_found (fuel : nat) (pre rest : list string) (f : Odds.flags) :
  (length pre < fuel)%nat -> ~ In "--include" pre -> ~ In "--region" pre ->
  Odds.writeCsv (Odds.parse_flags fuel (pre ++ "--csv" :: rest) f) = true.
Proof.
  revert fuel f. induction pre as [|t pre IH]; intros fuel f Hfuel Hi Hr.
  - destruct fuel as [|fuel]; [cbn in Hfuel; lia|]. cbn [app Odds.parse_flags].
    cbn [String.eqb Ascii.eqb Bool.eqb]. now apply parse_flags_csv_sticks.
  - destruct fuel as [|fuel]; [cbn in Hfuel; lia|]. cbn [length] in Hfuel.
    rewrite <- app_comm_cons. cbn [Odds.parse_flags].
    destruct (String.eqb_spec t "--include") as [->|_]; [exfalso; apply Hi; now left|].
    destruct (String.eqb t "--csv");
      [|destruct (String.eqb_spec t "--region") as [->|_]; [exfalso; apply Hr; now left|]];
      (apply IH; [lia | intros Hin; apply Hi; now right | intros Hin; apply Hr; now right]).
Qed.

(** X16: the flags of the command line.  A flag that does not occur among
    the arguments keeps its default (no CSV, no filter, no region); a flag
    that takes a value takes the next argument whatever it is, so that
    --include --csv filters by the text --csv and writes no CSV; an
    argument that is no flag is skipped; and --csv asks for the CSV
    wherever it stands after arguments that are neither --include nor
    --region. *)
Lemma cli_flags_defaults (rest : list string) :
  (~ In "--csv" rest -> Odds.writeCsv (cli_flags rest) = false) /\
  (~ In "--include" rest -> Odds.include (cli_flags rest) = None) /\
  (~ In "--region" rest -> Odds.region (cli_flags rest) = None) /\
  (forall v, v <> "" -> ~ In "--csv" rest -> ~ In "--include" rest ->
     Odds.include (cli_flags ("--include" :: v :: rest)) = Some v /\
     Odds.writeCsv (cli_flags ("--include" :: v :: rest)) = false) /\
  (forall t, t <> "--include" -> t <> "--csv" -> t <> "--region" ->
     cli_flags (t :: rest) = cli_flags rest) /\
  (forall pre, ~ In "--include" pre -> ~ In "--region" pre ->
     Odds.writeCsv (cli_flags (pre ++ "--csv" :: rest)) = true).
Proof.
  unfold cli_flags.
  destruct (parse_flags_absent (length rest) rest
              {| Odds.include := None; Odds.writeCsv := false; Odds.region := None |})
    as (H1 & H2 & H3).
  split; [exact H1|]. split; [exact H2|]. split; [exact H3|]. split; [|split].
  - intros v Hv Hc Hi. cbn [length Odds.parse_flags String.eqb Ascii.eqb Bool.eqb tl].
    cbn [Odds.next_or_null]. apply String.eqb_neq in Hv. rewrite Hv.
    destruct (parse_flags_absent (S (length rest)) rest
                {| Odds.include := Some v; Odds.writeCsv := false; Odds.region := None |})
      as (G1 & G2 & _).
    split; [now apply G2 | now apply G1].
  - intros t Ht1 Ht2 Ht3. cbn [length Odds.parse_flags].
    apply String.eqb_neq in Ht1, Ht2, Ht3. rewrite Ht1, Ht2, Ht3.
    reflexivity.
  - intros pre Hi Hr. apply parse_flags_csv_found; [|exact Hi|exact Hr].
    rewrite length_app. cbn [length]. lia.
Qed.

(** The witness of X16. *)
Lemma cli_flags_defaults_witness :
  Odds.writeCsv (cli_flags ["--region"; "uk"]) = false.
Proof.
  apply (proj1 (cli_flags_defaults ["--region"; "uk"])).
  intros [H|[H|[]]]; discriminate H.
Defined.

Section CommandLine.
Context {num : Type} `{JsNumber num}.
Variable RegExp_i : string -> result (string -> bool).
Variables (env : environment) (now : utc) (net : network num).

Lemma with_output_nil (w : world) : with_output [] w = w.
Proof. destruct w. unfold with_output. cbn. now rewrite app_nil_r. Qed.

Lemma with_output_cons (t : string) (lines : list string) (w : world) :
  with_output lines (snd (console_log [CText t] w)) = with_output (t :: lines) w.
Proof. unfold with_output. cbn. now rewrite <- app_assoc. Qed.

Lemma log_sport_lines (l : list sport) (w : world) :
  fold_right
    (fun s k =>
       console_log [CText ("- " +:+ s_key s +:+ "  |  " +:+ template_str (s_title s)
                           +:+ "  |  active=" +:+ (if s_active s then "true" else "false"))] ;;; k)
    (ret tt) l w
  = (Ok tt, with_output (map sport_line l) w).
Proof.
  revert w. induction l as [|s l IH]; intros w.
  - cbn. now rewrite with_output_nil.
  - cbn [fold_right map]. unfold bind at 1. cbn [console_log].
    rewrite IH. f_equal. apply (with_output_cons (sport_line s)).
Qed.

Lemma cli_body_unknown (c : string) (rest : list string) :
  c <> "sports" -> c <> "fetch" ->
  Odds.cli_body RegExp_i env now net (c :: rest)
  = console_log [CText ("Commands:" +:+ char_str LF +:+ "  node odds.js sports"
                          +:+ char_str LF +:+ "  " +:+ Odds.usage)].
Proof.
  intros Hs Hf. unfold Odds.cli_body. cbn [nth_error].
  repeat match goal with
         | |- context [match ?x with _ => _ end] =>
             is_var x; destruct x; try reflexivity; try congruence
         end.
Qed.

(** X17: the sports command.  When the catalog fetch answers with an
    array, the command prints the heading and then one line for every
    tennis entry of the catalog in catalog order, the inactive ones too
    (its key, its title and whether it is active), writes no file and ends
    with exit status 0; when the body is JSON but not an array, the
    invocation reports an error, ends with exit status 1 and writes
    nothing. *)
Lemma sports_command_lists_catalog (rest : list string) (w : world)
    (status : Z) (statusText : string) :
  has_api_key env ->
  (forall data,
     get_sports net = Response true status statusText (JsonArray data) ->
     Odds.main RegExp_i env now net ("sports" :: rest) w
     = (0%Z, with_output (("Tennis sport keys:" +:+ char_str LF)
                            :: map sport_line (List.filter is_tennis data)) w)) /\
  (get_sports net = Response true status statusText JsonOther ->
   exists msg,
     Odds.main RegExp_i env now net ("sports" :: rest) w = (1%Z, with_error msg w)).
Proof.
  intros Hk. pose proof (has_api_key_eqb env Hk) as Hkb. split.
  - intros data Hres. unfold Odds.main. rewrite Hkb.
    unfold run_script, Odds.cli_body. cbn [nth_error]. unfold Odds.listSports.
    rewrite Hres. cbn [negb res_json]. unfold bind at 1. unfold lift.
    unfold bind at 1. cbn [console_log]. rewrite log_sport_lines.
    f_equal. apply (with_output_cons ("Tennis sport keys:" +:+ char_str LF)).
  - intros Hres. eexists. unfold Odds.main. rewrite Hkb.
    unfold run_script, Odds.cli_body. cbn [nth_error]. unfold Odds.listSports.
    rewrite Hres. reflexivity.
Qed.

(** X18: the usage of the command line.  The fetch command without a
    competition key, or with an empty one, reports the usage as an error
    and ends with exit status 1; no command, or a command that is neither
    sports nor fetch, prints the help and ends with exit status 0; neither
    writes a file, whatever the upstream would answer. *)
Lemma cli_usage (w : world) :
  has_api_key env ->
  Odds.main RegExp_i env now net ["fetch"] w
  = (1%Z, with_error ("Usage: " +:+ Odds.usage) w) /\
  (forall rest,
     Odds.main RegExp_i env now net ("fetch" :: "" :: rest) w
     = (1%Z, with_error ("Usage: " +:+ Odds.usage) w)) /\
  Odds.main RegExp_i env now net [] w
  = (0%Z, with_output ["Commands:" +:+ char_str LF +:+ "  node odds.js sports"
                         +:+ char_str LF +:+ "  " +:+ Odds.usage] w) /\
  (forall c rest,
     c <> "sports" -> c <> "fetch" ->
     Odds.main RegExp_i env now net (c :: rest) w
     = (0%Z, with_output ["Commands:" +:+ char_str LF +:+ "  node odds.js sports"
                            +:+ char_str LF +:+ "  " +:+ Odds.usage] w)).
Proof.
  intros Hk. pose proof (has_api_key_eqb env Hk) as Hkb.
  unfold Odds.main. rewrite Hkb. repeat split.
  intros c rest Hs Hf. unfold run_script. now rewrite (cli_body_unknown c rest Hs Hf).
Qed.

(** X20: a pattern given with --include that is not a regular expression
    is fatal, after the fetch and before any file is written: the
    invocation reports the syntax error and ends with exit status 1. *)
Lemma invalid_include_pattern_is_fatal (key : string) (rest : list string) (w : world)
    (pattern msg : string) (status : Z) (statusText : string) (raw : list (event num)) :
  has_api_key env -> key <> "" ->
  Odds.include (cli_flags rest) = Some pattern -> pattern <> "" ->
  RegExp_i pattern = Throw msg ->
  get_odds net key (cli_region env rest) = Response true status statusText (JsonArray raw) ->
  Odds.main RegExp_i env now net ("fetch" :: key :: rest) w = (1%Z, with_error msg w).
Proof.
  intros Hk Hkey Hinc Hp Hre Hres. apply cli_fetch_throws; [exact Hk | exact Hkey|].
  unfold Odds.fetchOddsForKey. fold (cli_region env rest). rewrite Hres.
  cbn [negb res_json]. unfold bind at 1. unfold lift at 1.
  unfold Odds.filterByNames. rewrite Hinc. apply String.eqb_neq in Hp. rewrite Hp, Hre.
  reflexivity.
Qed.

End CommandLine.

(** The witness of X17. *)
Lemma sports_command_lists_catalog_witness :
  Odds.main no_regexp example_env example_now
    (example_net [example_match] (Rejected "fetch failed")) ["sports"] empty_world
  = (0%Z, with_output [ "Tennis sport keys:" +:+ char_str LF;
                        "- atp  |  Open atp  |  active=true";
                        "- wta  |  Open wta  |  active=true" ] empty_world).
Proof.
  apply (proj1 (sports_command_lists_catalog no_regexp example_env example_now
                  (example_net [example_match] (Rejected "fetch failed")) [] empty_world
                  200 "OK" ltac:(discriminate))
           [example_sport "atp"; example_sport "wta"]).
  reflexivity.
Defined.

(** The witness of X18. *)
Lemma cli_usage_witness :
  Odds.main no_regexp example_env example_now
    (example_net [example_match] (Rejected "fetch failed")) ["fetch"] empty_world
  = (1%Z, with_error ("Usage: " +:+ Odds.usage) empty_world).
Proof.
  apply (cli_usage no_regexp example_env example_now
           (example_net [example_match] (Rejected "fetch failed")) empty_world).
  discriminate.
Defined.

(** The witness of X20. *)
Lemma invalid_include_pattern_is_fatal_witness :
  Odds.main no_regexp example_env example_now
    (example_net [example_match] (Rejected "fetch failed"))
    ["fetch"; "atp"; "--include"; "("] empty_world
  = (1%Z, with_error "Invalid regular expression" empty_world).
Proof.
  apply (invalid_include_pattern_is_fatal no_regexp example_env example_now
           (example_net [example_match] (Rejected "fetch failed")) "atp" ["--include"; "("]
           empty_world "(" "Invalid regular expression" 200 "OK" [example_match]).
  - discriminate.
  - discriminate.
  - reflexivity.
  - discriminate.
  - reflexivity.
  - reflexivity.
Defined.

(** ** The catalog filter *)

Lemma prefix_iff (n s : string) : String.prefix n s = true <-> exists b, s = n +:+ b.
Proof.
  split.
  - revert s. induction n as [|c n IH]; intros s Hp; [now exists s|].
    destruct s as [|d s]; [discriminate|]. cbn [String.prefix] in Hp.
    destruct (ascii_dec c d) as [->|_]; [|discriminate].
    destruct (IH s Hp) as [b ->]. now exists b.
  - intros [b ->]. apply prefix_app.
Qed.

Lemma includes_iff (n s : string) :
  includes n s = true <-> exists a b, s = a +:+ n +:+ b.
Proof.
  split.
  - induction s as [|c s IH]; cbn [includes]; intros Hi; apply orb_prop in Hi as [Hp|Hr].
    + apply prefix_iff in Hp as [b Hb]. now exists "", b.
    + discriminate.
    + apply prefix_iff in Hp as [b Hb]. now exists "", b.
    + destruct (IH Hr) as (a & b & ->). now exists (String c a), b.
  - intros (a & b & ->). induction a as [|c a IH].
    + rewrite str_app_nil_l. assert (Hp : String.prefix n (n +:+ b) = true) by apply prefix_app.
      destruct (n +:+ b); cbn [includes]; now rewrite Hp.
    + rewrite str_app_cons. cbn [includes]. rewrite IH. apply orb_true_r.
Qed.

Lemma field_has_tennis (x : option string) :
  includes "tennis" (toLowerCase (or_default x "")) = true <->
  exists t a b, x = Some t /\ toLowerCase t = a +:+ "tennis" +:+ b.
Proof.
  rewrite includes_iff. split.
  - intros (a & b & E). destruct x as [t|].
    + exists t, a, b. split; [reflexivity|]. cbn [or_default] in E. unfold or_str in E.
      destruct (String.eqb_spec t "") as [->|_]; exact E.
    + cbn in E. destruct a; discriminate E.
  - intros (t & a & b & -> & E). exists a, b. cbn [or_default]. unfold or_str.
    destruct (String.eqb_spec t "") as [->|_]; exact E.
Qed.

(** X21: the catalog filter of the three scripts keeps an entry exactly
    when the lower-case form of its group, of its details or of its title
    holds the text tennis somewhere; a missing field counts as empty.
    From the same catalog, the bulk snapshot and the history scan then
    work on the same competitions, the active ones, in catalog order. *)
Lemma tennis_filter_spec {num : Type} (env : environment) (net : network num) :
  (forall s : sport,
     is_tennis s = true <->
     exists x t a b, In x [s_group s; s_details s; s_title s] /\ x = Some t /\
       toLowerCase t = a +:+ "tennis" +:+ b) /\
  (forall keys sports,
     OddsAll.getActiveTennisKeys net = Ok keys ->
     ScanLog.getTennisSports env net = Ok sports ->
     keys = map (fun s => (s_key s, s_title s)) (List.filter s_active sports) /\
     Forall (fun s => is_tennis s = true /\ s_active s = true) (List.filter s_active sports)).
Proof.
  split.
  - intros s. unfold is_tennis. rewrite !orb_true_iff, !field_has_tennis. split.
    + intros [[(t & a & b & E & Ht)|(t & a & b & E & Ht)]|(t & a & b & E & Ht)].
      * exists (s_group s), t, a, b. cbn. tauto.
      * exists (s_details s), t, a, b. cbn. tauto.
      * exists (s_title s), t, a, b. cbn. tauto.
    + intros (x & t & a & b & Hin & E & Ht). cbn in Hin.
      destruct Hin as [<-|[<-|[<-|[]]]].
      * left. left. now exists t, a, b.
      * left. right. now exists t, a, b.
      * right. now exists t, a, b.
  - intros keys sports. unfold OddsAll.getActiveTennisKeys, ScanLog.getTennisSports,
      ScanLog.fetchJSON.
    destruct (get_sports net) as [msg|ok status statusText b]; [discriminate|].
    destruct ok; cbn [negb]; [|discriminate].
    destruct b as [data| |msg]; cbn [res_json]; try discriminate.
    intros [= <-] [= <-]. split; [reflexivity|].
    apply List.Forall_forall. intros s Hs. apply filter_In in Hs as [Hs Ha].
    apply filter_In in Hs as [_ Ht]. now split.
Qed.

(** The witness of X21. *)
Lemma tennis_filter_spec_witness :
  is_tennis {| s_key := "tt"; s_group := Some "Table Tennis"; s_title := None;
               s_details := None; s_active := false |} = true.
Proof.
  apply (proj1 (@tennis_filter_spec float example_env
                  (example_net [] (Rejected "fetch failed")))).
  exists (Some "Table Tennis"), "Table Tennis", "table ", "".
  split; [now left|]. split; reflexivity.
Defined.

(** ** The two extractions side by side *)

Lemma bookmaker_label (t : string) (k : option string) :
  or_str t (or_default k "")
  = or_default (if String.eqb t "" then k else Some t) "".
Proof.
  unfold or_str at 1. destruct (String.eqb_spec t "") as [->|Ht]; [reflexivity|].
  cbn [or_default]. unfold or_str. destruct (String.eqb_spec t ""); [contradiction|reflexivity].
Qed.

Section SideBySide.
Context {num : Type} `{JsNumber num}.

Lemma row_agrees (env : environment) (sportKey regionToUse : string)
    (ev : event num) (x : extracted num) :
  extract ev = Some x ->
  rows_agree (OddsAll.row_of env sportKey ev x)
             (Odds.csv_row regionToUse (Odds.mapped_of ev x)).
Proof.
  intros Hx.
  destruct (extract_two ev x Hx) as (n1 & n2 & names & o1 & o2 & odds & p1 & p2 & probs
                                     & Hn & Ho & Hp & _).
  unfold rows_agree, OddsAll.row_of, Odds.csv_row, Odds.mapped_of, shared_columns.
  cbn [Odds.e_id Odds.e_start Odds.e_players Odds.e_odds_decimal
       Odds.e_probs_normalized Odds.e_bookmaker].
  rewrite Hp, Hn, Ho. cbn [nth_error get String.eqb Ascii.eqb Bool.eqb].
  split; [reflexivity|]. split.
  - repeat constructor. cbn. f_equal. apply bookmaker_label.
  - constructor; [|constructor; [|constructor]]; cbn.
    + destruct (num_isFinite p1); [now left | now right].
    + destruct (num_isFinite p2); [now left | now right].
Qed.

(** X22: the bulk snapshot and the command line extract alike.  From the
    same payload both keep the same events in the same order, and for
    each of them the two rows agree on the identifier, the start, the two
    players, the two odds and the bookmaker; the probabilities agree too,
    except where the bulk snapshot leaves one empty. *)
Lemma scripts_extract_alike (env : environment) (sportKey regionToUse : string)
    (raw : list (event num)) :
  Forall2 rows_agree
    (OddsAll.rows_of_events env sportKey raw)
    (map (Odds.csv_row regionToUse) (Odds.map_events raw)).
Proof.
  unfold Odds.map_events. induction raw as [|ev raw IH]; [constructor|].
  cbn [OddsAll.rows_of_events flat_map].
  destruct (extract ev) as [x|] eqn:Hx; [|exact IH].
  cbn [app map]. constructor; [now apply row_agrees | exact IH].
Qed.

End SideBySide.

(** ** The files of the bulk snapshot *)

Lemma str_app_inv_tail_str (s1 s2 t : string) : s1 +:+ t = s2 +:+ t -> s1 = s2.
Proof.
  revert s1 s2. induction t as [|c t IH]; intros s1 s2.
  - now rewrite !str_app_nil_r.
  - change (String c t) with (char_str c +:+ t). rewrite <- !str_app_assoc.
    intros E. apply IH in E. now apply str_app_inv_tail in E.
Qed.

Lemma archive_csv_shape (d : utc) : archive_csv d = "data/odds_" +:+ stamp_shape d +:+ ".csv".
Proof. unfold archive_csv. now rewrite stamp_of_toISOString. Qed.

Lemma archive_not_latest (d : utc) : archive_csv d <> latest_csv /\ archive_csv d <> latest_json.
Proof.
  rewrite archive_csv_shape. split; intros E; apply (f_equal String.length) in E;
    rewrite !str_length_app, stamp_shape_length in E; discriminate E.
Qed.

Lemma archive_csv_injective (a b : utc) :
  archive_csv a = archive_csv b -> stamp_shape a = stamp_shape b.
Proof.
  rewrite !archive_csv_shape. intros E. apply str_app_inv_head in E.
  now apply str_app_inv_tail_str in E.
Qed.

Lemma string_compare_refl (s : string) : String.compare s s = Eq.
Proof. induction s as [|c s IH]; [reflexivity|]. cbn. now rewrite ascii_compare_refl. Qed.

Lemma archive_later (a b : utc) :
  valid_utc a -> valid_utc b -> (time_value a + 1000 <= time_value b)%Z ->
  archive_csv a <> archive_csv b.
Proof.
  intros Va Vb Hlater E. apply archive_csv_injective in E.
  pose proof (stamp_shape_lt a b Va Vb Hlater) as Hlt.
  rewrite E, string_compare_refl in Hlt. discriminate.
Qed.

Section BulkFiles.
Context {num : Type} `{JsNumber num}.

(** The state after a run of the bulk snapshot that collects [all]. *)
Lemma bulk_main_world (env : environment) (now : utc) (net : network num) (w : world)
    (keys : list (string * option string)) (all : list (record num)) :
  has_api_key env ->
  OddsAll.getActiveTennisKeys net = Ok keys ->
  OddsAll.collect env net keys [] = Ok all ->
  exists w',
    OddsAll.main env now net w = (0%Z, w') /\
    files w' = <[archive_csv now := toCsv all]>
                 (<[latest_json := JSON_stringify2 (OddsAll.snapshot_json env (toISOString now) all)]>
                    (<[latest_csv := toCsv all]> (files w))) /\
    dirs w' = (if bool_decide (is_Some (files w !! "data")) || bool_decide ("data" ∈ dirs w)
               then dirs w else {["data"]} ∪ dirs w) /\
    stderr w' = stderr w.
Proof.
  intros Hk Hkeys Hcol. unfold OddsAll.main. rewrite (has_api_key_eqb env Hk).
  unfold run_script, OddsAll.main_body, bind, lift. rewrite Hkeys, Hcol.
  unfold existsSync.
  destruct (bool_decide (is_Some (files w !! "data")) || bool_decide ("data" ∈ dirs w));
    eexists; (split; [reflexivity|]); repeat split; reflexivity.
Qed.

(** X23: the files of a run of the bulk snapshot that completes.  The
    archive data/odds_<stamp>.csv holds the same text as
    data/odds_latest.csv, the CSV of the collected rows;
    data/odds_latest.json holds the snapshot; no other file is changed;
    and the directory data exists afterwards, created when it was not
    there. *)
Lemma bulk_archive_is_latest (env : environment) (now : utc) (net : network num) (w : world)
    (keys : list (string * option string)) (all : list (record num)) :
  has_api_key env ->
  OddsAll.getActiveTennisKeys net = Ok keys ->
  OddsAll.collect env net keys [] = Ok all ->
  files w !! "data" = None ->
  let w' := snd (OddsAll.main env now net w) in
  files w' !! archive_csv now = Some (toCsv all) /\
  files w' !! latest_csv = Some (toCsv all) /\
  files w' !! latest_json
  = Some (JSON_stringify2 (OddsAll.snapshot_json env (toISOString now) all)) /\
  (forall p, p <> archive_csv now -> p <> latest_csv -> p <> latest_json ->
     files w' !! p = files w !! p) /\
  "data" ∈ dirs w' /\
  (forall d, d <> "data" -> d ∈ dirs w' <-> d ∈ dirs w).
Proof.
  intros Hk Hkeys Hcol Hdata w'.
  destruct (bulk_main_world env now net w keys all Hk Hkeys Hcol) as (w1 & Hmain & Hf & Hd & _).
  subst w'. rewrite Hmain. cbn [snd]. clear Hmain.
  destruct (archive_not_latest now) as [Hne1 Hne2].
  rewrite Hf. split; [now rewrite lookup_insert_eq|]. split; [|split; [|split; [|split]]].
  - rewrite lookup_insert_ne by exact Hne1.
    rewrite lookup_insert_ne by discriminate. now rewrite lookup_insert_eq.
  - rewrite lookup_insert_ne by exact Hne2. now rewrite lookup_insert_eq.
  - intros p Hp1 Hp2 Hp3. now rewrite !lookup_insert_ne by congruence.
  - rewrite Hd, Hdata.
    rewrite (bool_decide_eq_false_2 (is_Some None)) by (intros [x Hx]; discriminate).
    cbn [orb]. destruct (bool_decide ("data" ∈ dirs w)) eqn:Hin.
    + now apply bool_decide_eq_true in Hin.
    + apply elem_of_union_l. now apply elem_of_singleton.
  - intros d Hne. rewrite Hd. destruct (_ || _); [reflexivity|].
    rewrite elem_of_union, elem_of_singleton. tauto.
Qed.

(** X24: the archives of the bulk snapshot accumulate by the second.  Of
    two runs that complete, one after the other on the same machine, the
    later one overwrites data/odds_latest.csv; the archive of the earlier
    one is kept with its own rows when the clocks of the two runs are a
    second or more apart, and is overwritten when they read the same
    second. *)
Lemma bulk_archives_accumulate (env1 env2 : environment) (now1 now2 : utc)
    (net1 net2 : network num) (w : world)
    (keys1 keys2 : list (string * option string)) (all1 all2 : list (record num)) :
  has_api_key env1 -> has_api_key env2 ->
  OddsAll.getActiveTennisKeys net1 = Ok keys1 ->
  OddsAll.collect env1 net1 keys1 [] = Ok all1 ->
  OddsAll.getActiveTennisKeys net2 = Ok keys2 ->
  OddsAll.collect env2 net2 keys2 [] = Ok all2 ->
  let w2 := snd (OddsAll.main env2 now2 net2 (snd (OddsAll.main env1 now1 net1 w))) in
  files w2 !! latest_csv = Some (toCsv all2) /\
  files w2 !! archive_csv now2 = Some (toCsv all2) /\
  (valid_utc now1 -> valid_utc now2 -> (time_value now1 + 1000 <= time_value now2)%Z ->
   files w2 !! archive_csv now1 = Some (toCsv all1)) /\
  (same_second now1 now2 -> files w2 !! archive_csv now1 = Some (toCsv all2)).
Proof.
  intros Hk1 Hk2 Hkeys1 Hcol1 Hkeys2 Hcol2 w2.
  destruct (bulk_main_world env1 now1 net1 w keys1 all1 Hk1 Hkeys1 Hcol1)
    as (w1 & Hmain1 & Hf1 & _).
  destruct (bulk_main_world env2 now2 net2 w1 keys2 all2 Hk2 Hkeys2 Hcol2)
    as (w2' & Hmain2 & Hf2 & _).
  subst w2. rewrite Hmain1. cbn [snd]. rewrite Hmain2. cbn [snd]. clear Hmain1 Hmain2.
  destruct (archive_not_latest now2) as [Hne1 Hne2].
  assert (Hlatest : files w2' !! latest_csv = Some (toCsv all2)).
  { rewrite Hf2. rewrite lookup_insert_ne by exact Hne1.
    rewrite lookup_insert_ne by discriminate. now rewrite lookup_insert_eq. }
  assert (Harch2 : files w2' !! archive_csv now2 = Some (toCsv all2)).
  { rewrite Hf2. now rewrite lookup_insert_eq. }
  split; [exact Hlatest|]. split; [exact Harch2|]. split.
  - intros V1 V2 Hlater. pose proof (archive_later now1 now2 V1 V2 Hlater) as Hne.
    destruct (archive_not_latest now1) as [Hn1 Hn2].
    rewrite Hf2. rewrite !lookup_insert_ne by congruence.
    rewrite Hf1. now rewrite lookup_insert_eq.
  - intros (Ey & Em & Ed & Eh & Emi & Es).
    assert (E : archive_csv now1 = archive_csv now2).
    { rewrite !archive_csv_shape. unfold stamp_shape. now rewrite Ey, Em, Ed, Eh, Emi, Es. }
    rewrite E. exact Harch2.
Qed.

End BulkFiles.

(** The witness of X23. *)
Lemma bulk_archive_is_latest_witness :
  files (snd (OddsAll.main example_env example_now
                (example_net [example_match] (Response true 200 "OK" (JsonArray [])))
                empty_world)) !! "data/odds_20240105T100345.csv"
  = Some ("event_id,start,player1,player2,odds1,odds2,prob1,prob2,bookmaker,sport_key,region"
          +:+ char_str LF +:+ "m1,2024-06-01T12:00:00Z,Alice,Bob,1.8,2.2,0.5500,0.4500,First,atp,eu").
Proof.
  pose proof (proj1 (bulk_archive_is_latest example_env example_now
           (example_net [example_match] (Response true 200 "OK" (JsonArray [])))
           empty_world [("atp", Some "Open atp"); ("wta", Some "Open wta")] _
           ltac:(discriminate) eq_refl eq_refl eq_refl)) as E.
  vm_compute in E. vm_compute. exact E.
Defined.

(** The witness of X24. *)
Lemma bulk_archives_accumulate_witness :
  files (snd (OddsAll.main example_env
                {| year := 2024; month := 1; day := 5; hours := 10; minutes := 4;
                   seconds := 45; milliseconds := 7 |}
                (example_net [] (Response true 200 "OK" (JsonArray [])))
                (snd (OddsAll.main example_env example_now
                        (example_net [example_match] (Response true 200 "OK" (JsonArray [])))
                        empty_world)))) !! archive_csv example_now
  = Some (toCsv (OddsAll.rows_of_events example_env "atp" [example_match])).
Proof.
  refine (proj1 (proj2 (proj2
    (bulk_archives_accumulate example_env example_env example_now
       {| year := 2024; month := 1; day := 5; hours := 10; minutes := 4;
          seconds := 45; milliseconds := 7 |}
       (example_net [example_match] (Response true 200 "OK" (JsonArray [])))
       (example_net [] (Response true 200 "OK" (JsonArray [])))
       empty_world
       [("atp", Some "Open atp"); ("wta", Some "Open wta")]
       [("atp", Some "Open atp"); ("wta", Some "Open wta")]
       (OddsAll.rows_of_events example_env "atp" [example_match]) []
       _ _ eq_refl _ eq_refl eq_refl))) _ _ _).
  - discriminate.
  - discriminate.
  - reflexivity.
  - unfold valid_utc. simpl. lia.
  - unfold valid_utc. simpl. lia.
  - vm_compute. discriminate.
Defined.

(** ** What a fetch on the command line writes, and what the scan touches *)


Section FetchWrites.
Context {num : Type} `{JsNumber num}.
Variable RegExp_i : string -> result (string -> bool).
Variables (env : environment) (now : utc) (net : network num).


End FetchWrites.


Section ScanFrame.
Context {num : Type}.

(** X26: the history scan touches nothing but scan_history.csv: whatever
    the upstream answers, every other file is as before and no directory
    is created; and an invocation that ends with exit status 1 has changed
    no file and printed nothing but the error. *)
Lemma scan_touches_only_history (env : environment) (now : utc) (net : network num)
    (w : world) :
  (forall p, p <> ScanLog.outPath ->
     files (snd (ScanLog.main env now net w)) !! p = files w !! p) /\
  dirs (snd (ScanLog.main env now net w)) = dirs w /\
  (fst (ScanLog.main env now net w) = 1%Z ->
   files (snd (ScanLog.main env now net w)) = files w /\
   stdout (snd (ScanLog.main env now net w)) = stdout w).
Proof.
  unfold ScanLog.main.
  destruct (String.eqb (ScanLog.API_KEY env) ""); [now repeat split|].
  unfold run_script, ScanLog.main_body, bind, lift.
  destruct (ScanLog.getTennisSports env net) as [all|msg]; [|now repeat split].
  unfold ScanLog.appendHistory, bind, existsSync, writeFileSync, appendFileSync,
    console_log, ret.
  destruct (bool_decide _ || bool_decide _); cbn [fst snd files dirs stdout].
  - split; [|split; [reflexivity | discriminate]].
    intros p Hp. now rewrite lookup_insert_ne by congruence.
  - split; [|split; [reflexivity | discriminate]].
    intros p Hp. now rewrite !lookup_insert_ne by congruence.
Qed.

End ScanFrame.
